(** * The remote state watcher of the uniter, and the txn queue bound

    A shallow embedding of [worker/uniter/remotestate] (the
    [RemoteStateWatcher]: its constructor, its aggregator loop and the
    per-source handlers) and of the queue-length patch to [mgo/txn].

    Go maps are reference values: the maps reachable from a [Snapshot]
    live in a heap and are named by locations, so that sharing between
    the watcher's state and a value handed to a caller is visible.
    Channels, goroutines and the backing store are the environment: what
    a receive delivers and what a remote call answers is an input of the
    step that performs it. *)

From stdpp Require Import base option gmap sets list strings numbers pretty.
From Stdlib Require Import ZArith Lia.

Open Scope string_scope.
Open Scope list_scope.
Open Scope Z_scope.

(** ** Errors *)

Module Errors.

(** Error values as the watcher sees them: the two sentinels, an API
    error carrying a code, any other error, and the wrappers of
    [juju/errors]. A Go [error] that may be nil is an [option error]. *)
Inductive error : Type :=
| ErrTerminateAgent                       (* worker.ErrTerminateAgent *)
| ErrDying                                (* tomb.ErrDying *)
| ApiError (code : string) (msg : string) (* *params.Error *)
| OtherError (msg : string)
| Trace (e : error)                       (* errors.Trace *)
| Annotate (msg : string) (e : error).    (* errors.Annotatef *)

#[global] Instance error_eq_dec : EqDecision error.
Proof. solve_decision. Defined.

(* errors.Cause: the error under the wrappers. *)
Fixpoint Cause (e : error) : error :=
  match e with
  | Trace e' => Cause e'
  | Annotate _ e' => Cause e'
  | _ => e
  end.

Definition CodeNotFound : string := "not found".
Definition CodeUnauthorized : string := "unauthorized access".

(** Modelled from the spec: the error classifiers of [apiserver/params]
    are not among the sources. The spec names a pair of predicates,
    is-not-found and is-not-found-or-unauthorized; they read the code
    of the error's cause, and an error without a code has the empty
    code. *)
Definition ErrCode (err : option error) : string :=
  match err with
  | None => ""
  | Some e => match Cause e with
              | ApiError code _ => code
              | _ => ""
              end
  end.

Definition IsCodeNotFound (err : option error) : bool :=
  bool_decide (ErrCode err = CodeNotFound).

Definition IsCodeUnauthorized (err : option error) : bool :=
  bool_decide (ErrCode err = CodeUnauthorized).

Definition IsCodeNotFoundOrCodeUnauthorized (err : option error) : bool :=
  IsCodeNotFound err || IsCodeUnauthorized err.

(** What a handler leaves behind: it returned nil, it returned an error,
    or it hit a run-time panic. The state is kept in the first two. *)
Inductive Outcome (A : Type) : Type :=
| Done (a : A)
| Fail (e : error) (a : A)
| Panic.

Arguments Done {A} a.
Arguments Fail {A} e a.
Arguments Panic {A}.

End Errors.

Import Errors.

(** ** Data model *)

(* params.Life is a string type; its zero value is the empty string. *)
Abbreviation Life := string.
Definition Alive : Life := "alive".
Definition Dying : Life := "dying".
Definition Dead : Life := "dead".

Inductive ResolvedMode : Type :=
| ResolvedNone
| ResolvedRetryHooks
| ResolvedNoHooks.

#[global] Instance ResolvedMode_eq_dec : EqDecision ResolvedMode.
Proof. solve_decision. Defined.

(* names.RelationTag and names.StorageTag wrap the key they are made from. *)
Abbreviation RelationTag := string.
Abbreviation StorageTag := string.
Definition NewRelationTag (key : string) : RelationTag := key.
Definition NewStorageTag (key : string) : StorageTag := key.

(* A location names a map allocated by [make]; a handle names a running
   sub-watcher. *)
Abbreviation loc := positive.
Abbreviation handle := positive.

(** Modelled from the spec: the declarations of [Snapshot],
    [RelationSnapshot] and [StorageSnapshot] are not among the sources;
    the fields are those of the spec's data model, with the types the
    handlers use them at. The two version counters are Go ints (the
    spec calls them integers, and the handlers apply ++ to them): a
    [Z] within the range of int, the wrap-around of ++ being written
    out where they are incremented. [Members] is a Go map, nil ([None])
    in the zero value. *)
Record RelationSnapshot : Type := {
  rsLife : Life;
  Members : option loc
}.

Record StorageSnapshot : Type := {
  Tag : StorageTag;
  ssLife : Life;
  Kind : Z;
  Location : string;
  Attached : bool
}.

Record Snapshot : Type := {
  Life_ : Life;
  ResolvedMode_ : ResolvedMode;
  CharmURL : option string;
  ForceCharmUpgrade : bool;
  ConfigVersion : Z;
  LeaderSettingsVersion : Z;
  Leader : bool;
  Relations : loc;
  Storage : loc
}.

(* The zero value a map read gives for a missing key. *)
Definition zeroRelationSnapshot : RelationSnapshot :=
  {| rsLife := ""; Members := None |}.

(** The heap of maps, one table per map type. *)
Record Heap : Type := {
  relMaps : gmap loc (gmap Z RelationSnapshot);
  stoMaps : gmap loc (gmap StorageTag StorageSnapshot);
  memMaps : gmap loc (gmap string Z)
}.

Definition emptyHeap : Heap :=
  {| relMaps := ∅; stoMaps := ∅; memMaps := ∅ |}.

(** The sub-watchers: what a running one watches. A relation-units
    watcher is the [relationUnitsWatcher] with the API watcher it was
    built around; an API watcher that [WatchRelationUnits] returned and
    no [relationUnitsWatcher] was built around runs on its own. *)
Inductive SubWatcher : Type :=
| RelationUnitsW (relationId : Z)
| StorageAttachmentW (tag : StorageTag)
| WatchRelationUnitsW (tag : RelationTag).

#[global] Instance SubWatcher_eq_dec : EqDecision SubWatcher.
Proof. solve_decision. Defined.

Record relationUnitsWatcher : Type := {
  relationId : Z;
  ruwHandle : handle
}.

Record Unit : Type := { unitTag : string }.
Record Service : Type := { serviceName : string }.

Record RemoteStateWatcher : Type := {
  unit_ : option Unit;
  service_ : option Service;
  relations : gmap RelationTag relationUnitsWatcher;
  storageAttachementWatchers : gmap StorageTag handle;
  current : Snapshot
}.

(** The program state a handler runs in: the heap, the running
    sub-watchers, the watcher and the number of signals delivered on
    its [out] channel. *)
Record World : Type := {
  heap : Heap;
  subs : gmap handle SubWatcher;
  watcher : RemoteStateWatcher;
  out : nat
}.

(** ** Reading and writing the state *)

Definition withCurrent (f : Snapshot → Snapshot) (σ : World) : World :=
  {| heap := heap σ; subs := subs σ; out := out σ;
     watcher := {| unit_ := unit_ (watcher σ); service_ := service_ (watcher σ);
                   relations := relations (watcher σ);
                   storageAttachementWatchers := storageAttachementWatchers (watcher σ);
                   current := f (current (watcher σ)) |} |}.

Definition withRelationWatchers
    (f : gmap RelationTag relationUnitsWatcher → gmap RelationTag relationUnitsWatcher)
    (σ : World) : World :=
  {| heap := heap σ; subs := subs σ; out := out σ;
     watcher := {| unit_ := unit_ (watcher σ); service_ := service_ (watcher σ);
                   relations := f (relations (watcher σ));
                   storageAttachementWatchers := storageAttachementWatchers (watcher σ);
                   current := current (watcher σ) |} |}.

Definition withStorageWatchers
    (f : gmap StorageTag handle → gmap StorageTag handle) (σ : World) : World :=
  {| heap := heap σ; subs := subs σ; out := out σ;
     watcher := {| unit_ := unit_ (watcher σ); service_ := service_ (watcher σ);
                   relations := relations (watcher σ);
                   storageAttachementWatchers := f (storageAttachementWatchers (watcher σ));
                   current := current (watcher σ) |} |}.

Definition withSubs (f : gmap handle SubWatcher → gmap handle SubWatcher)
    (σ : World) : World :=
  {| heap := heap σ; subs := f (subs σ); out := out σ; watcher := watcher σ |}.

Definition withHeap (f : Heap → Heap) (σ : World) : World :=
  {| heap := f (heap σ); subs := subs σ; out := out σ; watcher := watcher σ |}.

(* The map a location names; a location of no map reads as empty. *)
Definition relMapAt (h : Heap) (l : loc) : gmap Z RelationSnapshot :=
  default ∅ (relMaps h !! l).
Definition stoMapAt (h : Heap) (l : loc) : gmap StorageTag StorageSnapshot :=
  default ∅ (stoMaps h !! l).
Definition memMapAt (h : Heap) (l : loc) : gmap string Z :=
  default ∅ (memMaps h !! l).

Definition putRelMap (l : loc) (m : gmap Z RelationSnapshot) (h : Heap) : Heap :=
  {| relMaps := <[l := m]> (relMaps h); stoMaps := stoMaps h; memMaps := memMaps h |}.
Definition putStoMap (l : loc) (m : gmap StorageTag StorageSnapshot) (h : Heap) : Heap :=
  {| relMaps := relMaps h; stoMaps := <[l := m]> (stoMaps h); memMaps := memMaps h |}.
Definition putMemMap (l : loc) (m : gmap string Z) (h : Heap) : Heap :=
  {| relMaps := relMaps h; stoMaps := stoMaps h; memMaps := <[l := m]> (memMaps h) |}.

(* [make(map...)]: a location no map of that type has yet. *)
Definition newRelLoc (h : Heap) : loc := fresh (dom (relMaps h)).
Definition newStoLoc (h : Heap) : loc := fresh (dom (stoMaps h)).
Definition newMemLoc (h : Heap) : loc := fresh (dom (memMaps h)).

(* w.current.Relations and w.current.Storage, read and written in place. *)
Definition curRelations (σ : World) : gmap Z RelationSnapshot :=
  relMapAt (heap σ) (Relations (current (watcher σ))).
Definition curStorage (σ : World) : gmap StorageTag StorageSnapshot :=
  stoMapAt (heap σ) (Storage (current (watcher σ))).

Definition setCurRelations (m : gmap Z RelationSnapshot) (σ : World) : World :=
  withHeap (putRelMap (Relations (current (watcher σ))) m) σ.
Definition setCurStorage (m : gmap StorageTag StorageSnapshot) (σ : World) : World :=
  withHeap (putStoMap (Storage (current (watcher σ))) m) σ.

(* Field updates of the snapshot. *)
Definition setLifeResolved (l : Life) (r : ResolvedMode) (s : Snapshot) : Snapshot :=
  {| Life_ := l; ResolvedMode_ := r; CharmURL := CharmURL s;
     ForceCharmUpgrade := ForceCharmUpgrade s; ConfigVersion := ConfigVersion s;
     LeaderSettingsVersion := LeaderSettingsVersion s; Leader := Leader s;
     Relations := Relations s; Storage := Storage s |}.

Definition setResolvedMode (r : ResolvedMode) (s : Snapshot) : Snapshot :=
  setLifeResolved (Life_ s) r s.

Definition setCharm (url : option string) (force : bool) (s : Snapshot) : Snapshot :=
  {| Life_ := Life_ s; ResolvedMode_ := ResolvedMode_ s; CharmURL := url;
     ForceCharmUpgrade := force; ConfigVersion := ConfigVersion s;
     LeaderSettingsVersion := LeaderSettingsVersion s; Leader := Leader s;
     Relations := Relations s; Storage := Storage s |}.

Definition setConfigVersion (v : Z) (s : Snapshot) : Snapshot :=
  {| Life_ := Life_ s; ResolvedMode_ := ResolvedMode_ s; CharmURL := CharmURL s;
     ForceCharmUpgrade := ForceCharmUpgrade s; ConfigVersion := v;
     LeaderSettingsVersion := LeaderSettingsVersion s; Leader := Leader s;
     Relations := Relations s; Storage := Storage s |}.

Definition setLeaderSettingsVersion (v : Z) (s : Snapshot) : Snapshot :=
  {| Life_ := Life_ s; ResolvedMode_ := ResolvedMode_ s; CharmURL := CharmURL s;
     ForceCharmUpgrade := ForceCharmUpgrade s; ConfigVersion := ConfigVersion s;
     LeaderSettingsVersion := v; Leader := Leader s;
     Relations := Relations s; Storage := Storage s |}.

Definition setLeader (b : bool) (s : Snapshot) : Snapshot :=
  {| Life_ := Life_ s; ResolvedMode_ := ResolvedMode_ s; CharmURL := CharmURL s;
     ForceCharmUpgrade := ForceCharmUpgrade s; ConfigVersion := ConfigVersion s;
     LeaderSettingsVersion := LeaderSettingsVersion s; Leader := b;
     Relations := Relations s; Storage := Storage s |}.

Definition setMaps (r s' : loc) (s : Snapshot) : Snapshot :=
  {| Life_ := Life_ s; ResolvedMode_ := ResolvedMode_ s; CharmURL := CharmURL s;
     ForceCharmUpgrade := ForceCharmUpgrade s; ConfigVersion := ConfigVersion s;
     LeaderSettingsVersion := LeaderSettingsVersion s; Leader := Leader s;
     Relations := r; Storage := s' |}.

(** ** Construction *)

(** What the backing store answers to the two lookups of [init]. *)
Record InitEnv : Type := {
  stUnit : Unit + error;        (* w.st.Unit(unitTag) *)
  unitService : Service + error (* w.unit.Service() *)
}.

(* The deferred function of [init]: it rewrites the named result. *)
Definition initDeferred (err : option error) : option error :=
  if IsCodeNotFoundOrCodeUnauthorized err then Some ErrTerminateAgent else err.

Definition init (env : InitEnv) (σ : World) : World * option error :=
  match stUnit env with
  | inr err => (σ, initDeferred (Some err))
  | inl u =>
      let σ1 :=
        {| heap := heap σ; subs := subs σ; out := out σ;
           watcher := {| unit_ := Some u; service_ := service_ (watcher σ);
                         relations := relations (watcher σ);
                         storageAttachementWatchers := storageAttachementWatchers (watcher σ);
                         current := current (watcher σ) |} |} in
      match unitService env with
      | inr err => (σ1, initDeferred (Some err))
      | inl s =>
          ({| heap := heap σ1; subs := subs σ1; out := out σ1;
              watcher := {| unit_ := Some u; service_ := Some s;
                            relations := relations (watcher σ1);
                            storageAttachementWatchers := storageAttachementWatchers (watcher σ1);
                            current := current (watcher σ1) |} |},
           initDeferred None)
      end
  end.

(* The struct literal of [NewWatcher]: empty maps, zero fields. *)
Definition newWorld : World :=
  let r := newRelLoc emptyHeap in
  let s := newStoLoc emptyHeap in
  {| heap := putStoMap s ∅ (putRelMap r ∅ emptyHeap);
     subs := ∅;
     out := 0%nat;
     watcher := {| unit_ := None; service_ := None;
                   relations := ∅; storageAttachementWatchers := ∅;
                   current := {| Life_ := ""; ResolvedMode_ := ResolvedNone;
                           CharmURL := None; ForceCharmUpgrade := false;
                           ConfigVersion := 0; LeaderSettingsVersion := 0;
                           Leader := false; Relations := r; Storage := s |} |} |}.

(** [NewWatcher] up to the point where it starts the loop: the watcher
    (as the state it lives in) or the traced error of [init]. The loop
    itself is [loopStart] and [step] below. *)
Definition NewWatcher (env : InitEnv) : World + error :=
  match init env newWorld with
  | (_, Some err) => inr (Trace err)
  | (σ, None) => inl σ
  end.

(** ** The caller's operations *)

(* Snapshot(): the struct is copied, the two maps are rebuilt entry by
   entry in fresh maps. The entries are copied as they are. *)
Definition copyEntries {K V} `{Countable K} (src : gmap K V) : gmap K V :=
  map_fold (λ k v dst, <[k := v]> dst) ∅ src.

Definition Snapshot_ (σ : World) : Snapshot * World :=
  let r := newRelLoc (heap σ) in
  let h1 := putRelMap r (copyEntries (curRelations σ)) (heap σ) in
  let s := newStoLoc h1 in
  let h2 := putStoMap s (copyEntries (curStorage σ)) h1 in
  (setMaps r s (current (watcher σ)), withHeap (λ _, h2) σ).

Definition ClearResolvedMode (σ : World) : World :=
  withCurrent (setResolvedMode ResolvedNone) σ.

(** ** Go's int *)

(* Go's int is 64 bits wide (on the platforms juju supports); n++ wraps. *)
Definition intWrap (z : Z) : Z := (z + 2 ^ 63) mod 2 ^ 64 - 2 ^ 63.
Definition intIncr (n : Z) : Z := intWrap (n + 1).

(* math.MaxInt64 and math.MinInt64 *)
Definition maxInt : Z := 2 ^ 63 - 1.
Definition minInt : Z := - 2 ^ 63.

(** ** Handlers of the primary sources *)

(** What the unit answers during [unitChanged]. *)
Record UnitAnswer : Type := {
  uaRefresh : option error;   (* w.unit.Refresh() *)
  uaResolved : ResolvedMode;  (* w.unit.Resolved() *)
  uaResolvedErr : option error;
  uaLife : Life               (* w.unit.Life() *)
}.

Definition unitChanged (a : UnitAnswer) (σ : World) : Outcome World :=
  match uaRefresh a with
  | Some err => Fail err σ
  | None =>
      match uaResolvedErr a with
      | Some err => Fail err σ
      | None => Done (withCurrent (setLifeResolved (uaLife a) (uaResolved a)) σ)
      end
  end.

(** What the service answers during [serviceChanged]. *)
Record ServiceAnswer : Type := {
  saRefresh : option error;   (* w.service.Refresh() *)
  saURL : option string;      (* w.service.CharmURL() *)
  saForce : bool;
  saCharmErr : option error
}.

Definition serviceChanged (a : ServiceAnswer) (σ : World) : Outcome World :=
  match saRefresh a with
  | Some err => Fail err σ
  | None =>
      match saCharmErr a with
      | Some err => Fail err σ
      | None => Done (withCurrent (setCharm (saURL a) (saForce a)) σ)
      end
  end.

(* w.current.ConfigVersion++ *)
Definition configChanged (σ : World) : Outcome World :=
  Done (withCurrent (λ s, setConfigVersion (intIncr (ConfigVersion s)) s) σ).

(* w.current.ConfigVersion++ *)
Definition addressesChanged (σ : World) : Outcome World :=
  Done (withCurrent (λ s, setConfigVersion (intIncr (ConfigVersion s)) s) σ).

(* w.current.LeaderSettingsVersion++ *)
Definition leaderSettingsChanged (σ : World) : Outcome World :=
  Done (withCurrent
          (λ s, setLeaderSettingsVersion (intIncr (LeaderSettingsVersion s)) s)
          σ).

Definition leadershipChanged (isLeader : bool) (σ : World) : Outcome World :=
  Done (withCurrent (setLeader isLeader) σ).

(** ** Relations *)

(* for unit, settings := range changed { members[unit] = settings.Version } *)
Definition assignAll (changed members : gmap string Z) : gmap string Z :=
  map_fold (λ unit version acc, <[unit := version]> acc) members changed.

(* for _, unit := range departed { delete(members, unit) } *)
Definition deleteAll (departed : list string) (members : gmap string Z)
    : gmap string Z :=
  foldl (λ acc unit, delete unit acc) members departed.

(** What the select on the new relation-units watcher receives. *)
Inductive InitialEvent : Type :=
| GotDying                             (* <-w.tomb.Dying() *)
| ChannelClosed (ensureErr : error)    (* !ok; watcher.EnsureErr(in) *)
| GotChange (changed : gmap string Z). (* change.Changed, by version *)

(** What the environment answers while one key is handled. *)
Record RelationAnswer : Type := {
  raRelation : (Z * Life) + error; (* w.st.Relation: rel.Id(), rel.Life() *)
  raStop : option error;           (* ruw.Stop() *)
  raWatch : option error;          (* w.st.WatchRelationUnits *)
  raInitial : InitialEvent
}.

(* ruw.Stop(), watcher.Stop(): the goroutine is gone afterwards. *)
Definition stopSub (h : handle) (σ : World) : World :=
  withSubs (delete h) σ.

(* newRelationUnitsWatcher, newStorageAttachmentWatcher: a goroutine
   under a handle no running one has. *)
Definition newHandle (σ : World) : handle := fresh (dom (subs σ)).

Definition relationsChangedKey (key : string) (a : RelationAnswer) (σ : World)
    : Outcome World :=
  let relationTag := NewRelationTag key in
  match raRelation a with
  | inr err =>
      if IsCodeNotFoundOrCodeUnauthorized (Some err) then
        match relations (watcher σ) !! relationTag with
        | Some ruw =>
            let σ1 := stopSub (ruwHandle ruw) σ in
            match raStop a with
            | Some err' => Fail (Trace err') σ1
            | None =>
                let σ2 := withRelationWatchers (delete relationTag) σ1 in
                Done (setCurRelations
                        (delete (relationId ruw) (curRelations σ2)) σ2)
            end
        | None => Done σ
        end
      else Fail err σ
  | inl (relId, relLife) =>
      match relations (watcher σ) !! relationTag with
      | Some _ =>
          let relationSnapshot :=
            default zeroRelationSnapshot (curRelations σ !! relId) in
          let relationSnapshot' :=
            {| rsLife := relLife; Members := Members relationSnapshot |} in
          Done (setCurRelations
                  (<[relId := relationSnapshot']> (curRelations σ)) σ)
      | None =>
          match raWatch a with
          | Some err => Fail (Trace err) σ
          | None =>
              let members := newMemLoc (heap σ) in
              let σ1 := withHeap (putMemMap members ∅) σ in
              let relationSnapshot :=
                {| rsLife := relLife; Members := Some members |} in
              match raInitial a with
              | GotDying =>
                  (* in is left running: this return does not stop it,
                     and it is not in w.relations for the deferred
                     function of the loop to stop *)
                  Fail ErrDying
                    (withSubs (<[newHandle σ1 := WatchRelationUnitsW relationTag]>)
                       σ1)
              | ChannelClosed err =>
                  (* in has closed its channel: it has stopped *)
                  Fail err σ1
              | GotChange changed =>
                  let σ2 :=
                    withHeap
                      (putMemMap members
                         (assignAll changed (memMapAt (heap σ1) members))) σ1 in
                  let σ3 :=
                    setCurRelations
                      (<[relId := relationSnapshot]> (curRelations σ2)) σ2 in
                  let h := newHandle σ3 in
                  let σ4 := withSubs (<[h := RelationUnitsW relId]>) σ3 in
                  Done (withRelationWatchers
                          (<[relationTag :=
                               {| relationId := relId; ruwHandle := h |}]>) σ4)
              end
          end
      end
  end.

Fixpoint relationsChanged (keys : list (string * RelationAnswer)) (σ : World)
    : Outcome World :=
  match keys with
  | [] => Done σ
  | (key, a) :: rest =>
      match relationsChangedKey key a σ with
      | Done σ' => relationsChanged rest σ'
      | stopped => stopped
      end
  end.

Record relationUnitsChange : Type := {
  rucRelationId : Z;
  Changed : gmap string Z;   (* unit name to settings.Version *)
  Departed : list string
}.

Definition relationUnitsChanged (change : relationUnitsChange) (σ : World)
    : Outcome World :=
  match curRelations σ !! rucRelationId change with
  | None => Done σ
  | Some snapshot =>
      match Members snapshot with
      | None =>
          (* an assignment to an entry of a nil map panics; a delete does not *)
          if decide (Changed change = ∅) then Done σ else Panic
      | Some members =>
          Done (withHeap
                  (λ h, putMemMap members
                          (deleteAll (Departed change)
                             (assignAll (Changed change) (memMapAt h members)))
                          h) σ)
      end
  end.

(** ** Storage *)

Record StorageSnapshotEvent : Type := {
  sseSnapshot : StorageSnapshot;
  remove : bool
}.

Definition storageAttachmentChanged (event : StorageSnapshotEvent) (σ : World)
    : Outcome World :=
  if remove event then
    Done (setCurStorage (delete (Tag (sseSnapshot event)) (curStorage σ)) σ)
  else
    Done (setCurStorage
            (<[Tag (sseSnapshot event) := sseSnapshot event]> (curStorage σ)) σ).

Definition startStorageAttachmentWatcher (tag : StorageTag)
    (newErr : option error) (σ : World) : Outcome World :=
  match storageAttachementWatchers (watcher σ) !! tag with
  | Some _ => Done σ
  | None =>
      match newErr with
      | Some err => Fail (Trace err) σ
      | None =>
          let h := newHandle σ in
          Done (withStorageWatchers (<[tag := h]>)
                  (withSubs (<[h := StorageAttachmentW tag]>) σ))
      end
  end.

Definition stopStorageAttachmentWatcher (tag : StorageTag)
    (stopErr : option error) (σ : World) : Outcome World :=
  match storageAttachementWatchers (watcher σ) !! tag with
  | None => Done σ
  | Some h =>
      let σ1 := stopSub h (withStorageWatchers (delete tag) σ) in
      match stopErr with
      | Some err => Fail err σ1
      | None => Done σ1
      end
  end.

(* params.LifeResult *)
Record LifeResult : Type := {
  lrLife : Life;
  lrError : option error
}.

(** What the environment answers during [storageChanged]: the batched
    life query, and for the i-th result what starting or stopping the
    attachment watcher returns. *)
Record StorageAnswer : Type := {
  stLife : list LifeResult + error; (* w.st.StorageAttachmentLife(ids) *)
  stWatcherErr : nat → option error
}.

(* names.ReadableString of a storage tag. *)
Definition ReadableString (tag : StorageTag) : string := "storage " +:+ tag.

Definition withAnnotation (msg : string) (o : Outcome World) : Outcome World :=
  match o with
  | Fail err σ => Fail (Annotate msg err) σ
  | other => other
  end.

(* The body of the loop over the results, for the result at index i. *)
Definition storageResult (tags : list StorageTag) (i : nat)
    (result : LifeResult) (watcherErr : option error) (σ : World)
    : Outcome World :=
  match tags !! i with
  | None => Panic (* tags[i] out of range *)
  | Some tag =>
      match lrError result with
      | None =>
          let storageSnapshot :=
            match curStorage σ !! tag with
            | Some s => s
            | None => {| Tag := tag; ssLife := lrLife result; Kind := 0;
                         Location := ""; Attached := false |}
            end in
          let storageSnapshot' :=
            {| Tag := Tag storageSnapshot; ssLife := lrLife result;
               Kind := Kind storageSnapshot;
               Location := Location storageSnapshot;
               Attached := Attached storageSnapshot |} in
          let σ1 := setCurStorage (<[tag := storageSnapshot']> (curStorage σ)) σ in
          withAnnotation
            ("starting watcher of " +:+ ReadableString tag +:+ " attachment")
            (startStorageAttachmentWatcher tag watcherErr σ1)
      | Some err =>
          if IsCodeNotFound (Some err) then
            let σ1 := setCurStorage (delete tag (curStorage σ)) σ in
            withAnnotation
              ("stopping watcher of " +:+ ReadableString tag +:+ " attachment")
              (stopStorageAttachmentWatcher tag watcherErr σ1)
          else
            Fail (Annotate
                    ("getting life of " +:+ ReadableString tag +:+ " attachment")
                    err) σ
      end
  end.

Fixpoint storageResults (tags : list StorageTag) (i : nat)
    (results : list LifeResult) (watcherErr : nat → option error) (σ : World)
    : Outcome World :=
  match results with
  | [] => Done σ
  | result :: rest =>
      match storageResult tags i result (watcherErr i) σ with
      | Done σ' => storageResults tags (S i) rest watcherErr σ'
      | stopped => stopped
      end
  end.

Definition storageChanged (keys : list string) (a : StorageAnswer) (σ : World)
    : Outcome World :=
  let tags := NewStorageTag <$> keys in
  match stLife a with
  | inr err => Fail (Trace err) σ
  | inl results => storageResults tags 0 results (stWatcherErr a) σ
  end.

(** ** The aggregator loop *)

(** The eight [seen...] locals of [loop]; [observedEvent] is handed a
    pointer to one of them. *)
Inductive Flag : Type :=
| seenUnitChange
| seenServiceChange
| seenConfigChange
| seenRelationsChange
| seenAddressesChange
| seenStorageChange
| seenLeaderSettingsChange
| seenLeadershipChange.

#[global] Instance Flag_eq_dec : EqDecision Flag.
Proof. solve_decision. Defined.

Definition allFlags : list Flag :=
  [seenUnitChange; seenServiceChange; seenConfigChange; seenRelationsChange;
   seenAddressesChange; seenStorageChange; seenLeaderSettingsChange;
   seenLeadershipChange].

(** The locals of [loop]. [waitLeader] and [waitMinion] are channels:
    nil ([false]) or the tracker's ready channel ([true]). *)
Record LoopVars : Type := {
  requiredEvents : Z;
  eventsObserved : Z;
  seen : Flag → bool;
  waitLeader : bool;
  waitMinion : bool
}.

Record Config : Type := {
  world : World;
  vars : LoopVars
}.

Definition observedEvent (flag : Flag) (v : LoopVars) : LoopVars :=
  if negb (seen v flag) then
    {| requiredEvents := requiredEvents v;
       eventsObserved := intIncr (eventsObserved v);
       seen := λ f, if decide (f = flag) then true else seen v f;
       waitLeader := waitLeader v; waitMinion := waitMinion v |}
  else v.

(* The send on w.out goes through only if the consumer is receiving. *)
Definition fire (receiverReady : bool) (c : Config) : Config :=
  if decide (eventsObserved (vars c) ≠ requiredEvents (vars c)) then c
  else if receiverReady then
    {| world := {| heap := heap (world c); subs := subs (world c);
                   watcher := watcher (world c); out := S (out (world c)) |};
       vars := vars c |}
  else c.

(** What the seven Watch calls at the head of [loop] return. *)
Record WatchEnv : Type := {
  unitWatch : option error;
  serviceWatch : option error;
  configWatch : option error;
  relationsWatch : option error;
  addressesWatch : option error;
  storageWatch : option error;
  leaderSettingsWatch : option error
}.

(** Where the loop is: blocked in the select on the claim-leader ticket,
    blocked in the select of the for loop, returned, or panicked (with
    the state the panicking handler started from). *)
Inductive LoopState : Type :=
| AtClaimLeader (c : Config)
| InLoop (c : Config)
| Returned (err : error) (σ : World)
| Panicked (σ : World).

(* The deferred function of [loop]: every relation-units watcher in
   w.relations is stopped. *)
Definition stopRelationWatchers (σ : World) : World :=
  withSubs
    (λ s, map_fold (λ _ ruw acc, delete (ruwHandle ruw) acc) s
            (relations (watcher σ))) σ.

Definition loopStart (env : WatchEnv) (σ : World) : LoopState :=
  let requiredEvents := 0 in
  match unitWatch env with Some err => Returned err σ | None =>
  let requiredEvents := intIncr requiredEvents in
  match serviceWatch env with Some err => Returned err σ | None =>
  let requiredEvents := intIncr requiredEvents in
  match configWatch env with Some err => Returned err σ | None =>
  let requiredEvents := intIncr requiredEvents in
  match relationsWatch env with Some err => Returned err σ | None =>
  let requiredEvents := intIncr requiredEvents in
  match addressesWatch env with Some err => Returned err σ | None =>
  let requiredEvents := intIncr requiredEvents in
  match storageWatch env with Some err => Returned err σ | None =>
  let requiredEvents := intIncr requiredEvents in
  match leaderSettingsWatch env with Some err => Returned err σ | None =>
  let requiredEvents := intIncr requiredEvents in
  (* leadership has no watcher *)
  let requiredEvents := intIncr requiredEvents in
  AtClaimLeader
    {| world := σ;
       vars := {| requiredEvents := requiredEvents; eventsObserved := 0;
                  seen := λ _, false;
                  waitLeader := false; waitMinion := false |} |}
  end end end end end end end.

(** What a receive on a watcher's channel yields: the channel was closed
    (and [watcher.EnsureErr] gives the error), or a value together with
    what the environment answers while it is handled. *)
Inductive Recv (A : Type) : Type :=
| Closed (ensureErr : error)
| Value (a : A).

Arguments Closed {A} ensureErr.
Arguments Value {A} a.

(** The case a select takes. *)
Inductive Event : Type :=
| TombDying
| ClaimLeaderReady (isLeader : bool)
| UnitChanges (r : Recv UnitAnswer)
| ServiceChanges (r : Recv ServiceAnswer)
| ConfigChanges (r : Recv ())
| AddressesChanges (r : Recv ())
| LeaderSettingsChanges (r : Recv ())
| RelationsChanges (r : Recv (list (string * RelationAnswer)))
| StorageChanges (r : Recv (list string * StorageAnswer))
| WaitMinionReady
| WaitLeaderReady
| StorageAttachment (ok : bool) (event : StorageSnapshotEvent)
| RelationUnitsChanges (change : relationUnitsChange).

Record Input : Type := {
  event : Event;
  receiverReady : bool (* is the consumer receiving on w.out? *)
}.

(* After a handler: an error returns from the loop, otherwise the
   source's flag is observed (if it has one) and fire() runs. *)
Definition handled (o : Outcome World) (flag : option Flag) (rr : bool)
    (c : Config) : LoopState :=
  match o with
  | Panic => Panicked (world c)
  | Fail err σ => Returned err (stopRelationWatchers σ)
  | Done σ =>
      let v := match flag with
               | Some f => observedEvent f (vars c)
               | None => vars c
               end in
      InLoop (fire rr {| world := σ; vars := v |})
  end.

Definition received {A} (r : Recv A) (handler : A → World → Outcome World)
    (flag : Flag) (rr : bool) (c : Config) : LoopState :=
  match r with
  | Closed err => Returned err (stopRelationWatchers (world c))
  | Value a => handled (handler a (world c)) (Some flag) rr c
  end.

Definition setWaits (leader minion : bool) (v : LoopVars) : LoopVars :=
  {| requiredEvents := requiredEvents v; eventsObserved := eventsObserved v;
     seen := seen v; waitLeader := leader; waitMinion := minion |}.

Definition step (s : LoopState) (i : Input) : LoopState :=
  match s with
  | AtClaimLeader c =>
      match event i with
      | TombDying => Returned ErrDying (stopRelationWatchers (world c))
      | ClaimLeaderReady isLeader =>
          match leadershipChanged isLeader (world c) with
          | Done σ =>
              let v := if isLeader then setWaits false true (vars c)
                       else setWaits true false (vars c) in
              InLoop {| world := σ; vars := observedEvent seenLeadershipChange v |}
          | _ => s
          end
      | _ => s
      end
  | InLoop c =>
      let rr := receiverReady i in
      match event i with
      | TombDying => Returned ErrDying (stopRelationWatchers (world c))
      | ClaimLeaderReady _ => s
      | UnitChanges r => received r unitChanged seenUnitChange rr c
      | ServiceChanges r => received r serviceChanged seenServiceChange rr c
      | ConfigChanges r => received r (λ _, configChanged) seenConfigChange rr c
      | AddressesChanges r =>
          received r (λ _, addressesChanged) seenAddressesChange rr c
      | LeaderSettingsChanges r =>
          received r (λ _, leaderSettingsChanged) seenLeaderSettingsChange rr c
      | RelationsChanges r => received r relationsChanged seenRelationsChange rr c
      | StorageChanges r =>
          received r (λ ka, storageChanged ka.1 ka.2) seenStorageChange rr c
      | WaitMinionReady =>
          if waitMinion (vars c) then
            handled (leadershipChanged false (world c)) None rr
              {| world := world c; vars := setWaits true false (vars c) |}
          else s
      | WaitLeaderReady =>
          if waitLeader (vars c) then
            handled (leadershipChanged true (world c)) None rr
              {| world := world c; vars := setWaits false true (vars c) |}
          else s
      | StorageAttachment ok event =>
          if ok then handled (storageAttachmentChanged event (world c)) None rr c
          else InLoop (fire rr c)
      | RelationUnitsChanges change =>
          handled (relationUnitsChanged change (world c)) None rr c
      end
  | Returned _ _ | Panicked _ => s
  end.

(** ** The watcher and its caller *)

Definition worldOf (s : LoopState) : World :=
  match s with
  | AtClaimLeader c | InLoop c => world c
  | Returned _ σ | Panicked σ => σ
  end.

Definition onWorld (f : World → World) (s : LoopState) : LoopState :=
  match s with
  | AtClaimLeader c => AtClaimLeader {| world := f (world c); vars := vars c |}
  | InLoop c => InLoop {| world := f (world c); vars := vars c |}
  | Returned err σ => Returned err (f σ)
  | Panicked σ => Panicked (f σ)
  end.

(** One move of the whole: the loop takes a case of its select, or the
    caller calls one of the two methods that touch the state. *)
Inductive Action : Type :=
| LoopInput (i : Input)
| CallClearResolvedMode
| CallSnapshot.

Definition act (s : LoopState) (a : Action) : LoopState :=
  match a with
  | LoopInput i => step s i
  | CallClearResolvedMode => onWorld ClearResolvedMode s
  | CallSnapshot => onWorld (λ σ, (Snapshot_ σ).2) s
  end.

Definition run (s : LoopState) (acts : list Action) : LoopState :=
  foldl act s acts.

Record StartEnv : Type := {
  seInit : InitEnv;
  seWatch : WatchEnv
}.

(** [NewWatcher] either fails, and there is no watcher and no channel, or
    starts the loop. *)
Inductive System : Type :=
| NoWatcher (err : error)
| Started (s : LoopState).

Definition start (env : StartEnv) : System :=
  match NewWatcher (seInit env) with
  | inr err => NoWatcher err
  | inl σ => Started (loopStart (seWatch env) σ)
  end.

Definition systemRun (env : StartEnv) (acts : list Action) : System :=
  match start env with
  | NoWatcher err => NoWatcher err
  | Started s => Started (run s acts)
  end.

(* The signals delivered on RemoteStateChanged() so far. *)
Definition signals (sys : System) : nat :=
  match sys with
  | NoWatcher _ => 0%nat
  | Started s => out (worldOf s)
  end.

(** * The txn queue bound (patch to mgo/txn) *)

Module Txn.

Inductive state : Type :=
| tpreparing
| tprepared
| taborting
| tapplying
| taborted
| tapplied.

#[global] Instance state_eq_dec : EqDecision state.
Proof. solve_decision. Defined.

Record RunnerOptions : Type := {
  MaxTxnQueueLength : Z;
  AssertionCleanupLength : Z
}.

Definition defaultMaxTxnQueueLength : Z := 1000.
Definition defaultAssertionCleanupLength : Z := 10.

Definition DefaultRunnerOptions : RunnerOptions :=
  {| MaxTxnQueueLength := defaultMaxTxnQueueLength;
     AssertionCleanupLength := defaultAssertionCleanupLength |}.

(* The collections of a Runner are the database below. *)
Record Runner : Type := { opts : RunnerOptions }.

Definition NewRunner : Runner := {| opts := DefaultRunnerOptions |}.

Definition SetOptions (o : RunnerOptions) (r : Runner) : Runner :=
  {| opts := o |}.

(* A token names its transaction and carries a nonce. *)
Record token : Type := {
  tokId : string;
  tokNonce : string
}.

#[global] Instance token_eq_dec : EqDecision token.
Proof. solve_decision. Defined.

Record transaction : Type := {
  tId : string;
  State : state;
  Nonce : string
}.

Definition tokenOf (t : transaction) : token :=
  {| tokId := tId t; tokNonce := Nonce t |}.

Section Flusher.

(* Document ids are of any type; fmt renders them with %v, and a
   collection name with %q. *)
Context {Id : Type} `{Countable Id}.
Variable fmtV : Id → string.
Variable fmtQ : string → string.

(* docKey{C, Id} *)
Abbreviation docKey := (string * Id)%type.

(** The database: the txn-queue of every document, and the state of
    every transaction in the txns collection. *)
Record DB : Type := {
  docQueues : gmap docKey (list token);
  txnStates : gmap string state
}.

Record flusher : Type := {
  fopts : RunnerOptions;
  fqueue : gmap docKey (list token) (* f.queue *)
}.

(** Modelled from the spec: the update that [cquery.Apply] performs is
    not in the patch. It puts the transaction's token on the document's
    txn-queue, once, and [info] is the document as it is then: the
    patch's test fills a queue up to the bound and expects the next
    transaction to be refused with the queue no longer than before. *)
Definition addToSet (tt : token) (q : list token) : list token :=
  if decide (tt ∈ q) then q else q ++ [tt].

(** Modelled from the spec: the update that takes tokens off a queue is
    not in the patch; it removes the tokens of the transactions in
    [pull]. *)
Definition pullTokens (pull : gset string) (q : list token) : list token :=
  filter (λ tok, tokId tok ∉ pull) q.

(** Modelled from the spec: of [abortOrReload] the patch shows the test
    on the state and the update that sets it to aborting. After that
    update, in the words of the patch, it will pull the tokens from all
    of the docs that we've touched so far (those the flusher holds a
    queue for), and the transaction ends aborted. *)
Definition afterSetAborting (f : flusher) (db : DB) (t : transaction)
    (pull : gset string) : DB * option error :=
  ({| docQueues :=
        map_imap (λ dkey q,
                    Some (if decide (is_Some (fqueue f !! dkey))
                          then pullTokens pull q else q))
          (docQueues db);
      txnStates := <[tId t := taborted]> (txnStates db) |},
   None).

(* [None] stands for the branches of which the patch shows nothing. *)
Definition abortOrReload (f : flusher) (db : DB) (t : transaction)
    (pull : gset string) : option (DB * option error) :=
  if decide (State t = tprepared ∨ State t = tpreparing) then
    (* f.tc.Update({_id: t.Id, s: t.State}, {$set: {s: taborting}}) *)
    if decide (txnStates db !! tId t = Some (State t)) then
      Some (afterSetAborting f
              {| docQueues := docQueues db;
                 txnStates := <[tId t := taborting]> (txnStates db) |}
              t pull)
    else None
  else None.

Definition tooManyTransactions (dkey : docKey) (n : nat) : string :=
  "txn-queue for " +:+ fmtV dkey.2 +:+ " in " +:+ fmtQ dkey.1
  +:+ " has too many transactions (" +:+ pretty n +:+ ")".

Inductive Prepared : Type :=
| Proceed (f : flusher) (db : DB)           (* on to the fast path *)
| Refused (err : error) (f : flusher) (db : DB) (* return nil, err *)
| NotInPatch.

(** The step of the flusher's loop over the documents of a transaction
    at which the token has been put on the queue of [dkey]. *)
Definition prepareDoc (f : flusher) (db : DB) (t : transaction) (dkey : docKey)
    : Prepared :=
  match docQueues db !! dkey with
  | None => NotInPatch
  | Some q =>
      let infoQueue := addToSet (tokenOf t) q in
      let db1 := {| docQueues := <[dkey := infoQueue]> (docQueues db);
                    txnStates := txnStates db |} in
      if bool_decide (MaxTxnQueueLength (fopts f) > 0
                      ∧ Z.of_nat (length infoQueue) > MaxTxnQueueLength (fopts f))
      then
        let f1 := {| fopts := fopts f;
                     fqueue := <[dkey := infoQueue]> (fqueue f) |} in
        let pull : gset string := {[tId t]} in
        match abortOrReload f1 db1 t pull with
        | Some (db2, None) =>
            Refused (OtherError (tooManyTransactions dkey (length infoQueue)))
              f1 db2
        | Some (db2, Some err) => Refused err f1 db2
        | None => NotInPatch
        end
      else Proceed f db1
  end.

End Flusher.

End Txn.


(** * The vocabulary of the properties *)

(* [keeps σ σ']: the snapshot struct and the count of signals are the
   same in both states. *)
Definition keeps (σ σ' : World) : Prop :=
  out σ' = out σ ∧ current (watcher σ') = current (watcher σ).

Definition after {A} (P : A → Prop) (o : Outcome A) : Prop :=
  match o with
  | Done a | Fail _ a => P a
  | Panic => True
  end.

(* Snapshot().ConfigVersion *)
Definition readConfigVersion (σ : World) : Z := ConfigVersion (Snapshot_ σ).1.

(* [grows σ σ']: no signal was sent and the counter is where it was or
   one ++ further. *)
Definition grows (σ σ' : World) : Prop :=
  out σ' = out σ
  ∧ (readConfigVersion σ' = readConfigVersion σ
     ∨ readConfigVersion σ' = intIncr (readConfigVersion σ)).

(* Snapshot().ConfigVersion once the watcher started in [env] has gone
   through [acts]; zero if there is no watcher. *)
Definition configVersionAfter (env : StartEnv) (acts : list Action) : Z :=
  match systemRun env acts with
  | Started s => readConfigVersion (worldOf s)
  | NoWatcher _ => 0
  end.

(* The position of the loop and its locals. *)
Definition varsOf (s : LoopState) : option LoopVars :=
  match s with
  | AtClaimLeader c | InLoop c => Some (vars c)
  | Returned _ _ | Panicked _ => None
  end.

(* The error of the first lookup of [init] that fails, if one does. *)
Definition lookupError (env : InitEnv) : option error :=
  match stUnit env with
  | inr err => Some err
  | inl _ => match unitService env with
             | inr err => Some err
             | inl _ => None
             end
  end.

(* The flag an event sets when it is handled: the eight primary sources. *)
Definition sourceOf (e : Event) : option Flag :=
  match e with
  | ClaimLeaderReady _ => Some seenLeadershipChange
  | UnitChanges (Value _) => Some seenUnitChange
  | ServiceChanges (Value _) => Some seenServiceChange
  | ConfigChanges (Value _) => Some seenConfigChange
  | AddressesChanges (Value _) => Some seenAddressesChange
  | LeaderSettingsChanges (Value _) => Some seenLeaderSettingsChange
  | RelationsChanges (Value _) => Some seenRelationsChange
  | StorageChanges (Value _) => Some seenStorageChange
  | _ => None
  end.

(* The flag the loop in state [s] observes when it takes input [i]: the
   ticket became ready, or a value came from a primary source and its
   handler returned no error. *)
Definition observes (s : LoopState) (i : Input) : option Flag :=
  match s with
  | AtClaimLeader _ =>
      match event i with
      | ClaimLeaderReady _ => Some seenLeadershipChange
      | _ => None
      end
  | InLoop _ =>
      match event i with
      | ClaimLeaderReady _ => None
      | e => match sourceOf e, step s i with
             | Some flag, InLoop _ => Some flag
             | _, _ => None
             end
      end
  | Returned _ _ | Panicked _ => None
  end.

(* The source of [flag] has delivered: among [acts], run from [s0], one
   is an input the loop observes [flag] at. *)
Definition delivered (s0 : LoopState) (flag : Flag) (acts : list Action) : Prop :=
  ∃ pre i post,
    acts = pre ++ LoopInput i :: post ∧ observes (run s0 pre) i = Some flag.

Definition deliveredTo (env : StartEnv) (flag : Flag) (acts : list Action) : Prop :=
  ∃ s0, start env = Started s0 ∧ delivered s0 flag acts.

(* How many of the eight flags are set. *)
Definition countSeen (v : LoopVars) : Z :=
  foldr (λ f n, Z.b2z (seen v f) + n) 0 allFlags.

(** What holds of the loop after the actions [acts], run from [s0]. *)
Definition gateInv (s0 : LoopState) (acts : list Action) (s : LoopState) : Prop :=
  match s with
  | AtClaimLeader c =>
      out (world c) = 0%nat ∧ requiredEvents (vars c) = 8
      ∧ eventsObserved (vars c) = 0 ∧ ∀ f, seen (vars c) f = false
  | InLoop c =>
      requiredEvents (vars c) = 8
      ∧ eventsObserved (vars c) = countSeen (vars c)
      ∧ (∀ f, seen (vars c) f = true → delivered s0 f acts)
      ∧ ((0 < out (world c))%nat → ∀ f, seen (vars c) f = true)
  | Returned _ σ | Panicked σ =>
      (0 < out σ)%nat → ∀ f, delivered s0 f acts
  end.

(** Every running storage-attachment watcher is the one registered for
    its tag. *)
Definition trackedIn (running : gmap handle SubWatcher)
    (registered : gmap StorageTag handle) : Prop :=
  ∀ h tag, running !! h = Some (StorageAttachmentW tag) →
           registered !! tag = Some h.

Definition storageWatchersTracked (σ : World) : Prop :=
  trackedIn (subs σ) (storageAttachementWatchers (watcher σ)).

(* The entry written for a storage the store reports present. *)
Definition upserted (tag : StorageTag) (life : Life) (σ : World) : StorageSnapshot :=
  match curStorage σ !! tag with
  | Some s => {| Tag := Tag s; ssLife := life; Kind := Kind s;
                 Location := Location s; Attached := Attached s |}
  | None => {| Tag := tag; ssLife := life; Kind := 0; Location := "";
               Attached := false |}
  end.

(* snapshot.Relations[id].Members, read in heap [h] by whoever holds the
   Relations map at [relationsAt]. *)
Definition readMembers (h : Heap) (relationsAt : loc) (id : Z)
    : option (gmap string Z) :=
  rs ← relMapAt h relationsAt !! id;
  members ← Members rs;
  Some (memMapAt h members).







(** The parts of what Snapshot() shows: the scalar fields, the contents
    of the two maps, and the Members maps behind the relations. *)
Inductive Part : Type :=
| PLife
| PResolvedMode
| PCharm
| PConfigVersion
| PLeaderSettingsVersion
| PLeader
| PRelations
| PMembers
| PStorage.

#[global] Instance Part_eq_dec : EqDecision Part.
Proof. solve_decision. Defined.

Definition samePart (p : Part) (σ σ' : World) : Prop :=
  match p with
  | PLife => Life_ (current (watcher σ')) = Life_ (current (watcher σ))
  | PResolvedMode =>
      ResolvedMode_ (current (watcher σ')) = ResolvedMode_ (current (watcher σ))
  | PCharm =>
      CharmURL (current (watcher σ')) = CharmURL (current (watcher σ))
      ∧ ForceCharmUpgrade (current (watcher σ'))
        = ForceCharmUpgrade (current (watcher σ))
  | PConfigVersion =>
      ConfigVersion (current (watcher σ')) = ConfigVersion (current (watcher σ))
  | PLeaderSettingsVersion =>
      LeaderSettingsVersion (current (watcher σ'))
      = LeaderSettingsVersion (current (watcher σ))
  | PLeader => Leader (current (watcher σ')) = Leader (current (watcher σ))
  | PRelations => curRelations σ' = curRelations σ
  | PMembers => memMaps (heap σ') = memMaps (heap σ)
  | PStorage => curStorage σ' = curStorage σ
  end.

(* The parts the handler of an event writes. *)
Definition writes (e : Event) : list Part :=
  match e with
  | TombDying => []
  | UnitChanges _ => [PLife; PResolvedMode]
  | ServiceChanges _ => [PCharm]
  | ConfigChanges _ | AddressesChanges _ => [PConfigVersion]
  | LeaderSettingsChanges _ => [PLeaderSettingsVersion]
  | ClaimLeaderReady _ | WaitMinionReady | WaitLeaderReady => [PLeader]
  | RelationsChanges _ => [PRelations; PMembers]
  | RelationUnitsChanges _ => [PMembers]
  | StorageChanges _ | StorageAttachment _ _ => [PStorage]
  end.

(* [framed W σ σ']: every part outside [W] is the same in both states. *)
Definition framed (W : list Part) (σ σ' : World) : Prop :=
  ∀ p, p ∉ W → samePart p σ σ'.

(* What the handlers of relations, of relation units and of storage
   leave alone in the state. *)
Definition relationsFrame (σ σ' : World) : Prop :=
  current (watcher σ') = current (watcher σ)
  ∧ stoMaps (heap σ') = stoMaps (heap σ)
  ∧ storageAttachementWatchers (watcher σ')
    = storageAttachementWatchers (watcher σ).

Definition membersFrame (σ σ' : World) : Prop :=
  current (watcher σ') = current (watcher σ)
  ∧ relMaps (heap σ') = relMaps (heap σ)
  ∧ stoMaps (heap σ') = stoMaps (heap σ)
  ∧ subs σ' = subs σ
  ∧ relations (watcher σ') = relations (watcher σ)
  ∧ storageAttachementWatchers (watcher σ')
    = storageAttachementWatchers (watcher σ).

Definition storageFrame (σ σ' : World) : Prop :=
  current (watcher σ') = current (watcher σ)
  ∧ relMaps (heap σ') = relMaps (heap σ)
  ∧ memMaps (heap σ') = memMaps (heap σ)
  ∧ relations (watcher σ') = relations (watcher σ).

(* The leadership bridge is set: the ticket the loop waits on is the one
   for the role the unit does not have. *)
Definition bridgeSet (s : LoopState) : Prop :=
  match s with
  | InLoop c =>
      waitMinion (vars c) = Leader (current (watcher (world c)))
      ∧ waitLeader (vars c) = negb (Leader (current (watcher (world c))))
  | _ => True
  end.

(* How many of [acts], run from [s], are values of the sources picked by
   [counted] that the for loop receives. *)
Fixpoint valuesReceived (counted : Event → bool) (s : LoopState)
    (acts : list Action) : Z :=
  match acts with
  | [] => 0
  | a :: rest =>
      match a, s with
      | LoopInput i, InLoop _ => if counted (event i) then 1 else 0
      | _, _ => 0
      end + valuesReceived counted (act s a) rest
  end.

Definition isConfigOrAddress (e : Event) : bool :=
  match e with
  | ConfigChanges (Value _) | AddressesChanges (Value _) => true
  | _ => false
  end.

Definition isLeaderSettings (e : Event) : bool :=
  match e with
  | LeaderSettingsChanges (Value _) => true
  | _ => false
  end.

(* Snapshot().LeaderSettingsVersion *)
Definition readLeaderSettingsVersion (σ : World) : Z :=
  LeaderSettingsVersion (Snapshot_ σ).1.

(* The counters and the tallies of a watcher started in [env]. *)
Definition leaderSettingsVersionAfter (env : StartEnv) (acts : list Action) : Z :=
  match systemRun env acts with
  | Started s => readLeaderSettingsVersion (worldOf s)
  | NoWatcher _ => 0
  end.

Definition valuesReceivedBy (counted : Event → bool) (env : StartEnv)
    (acts : list Action) : Z :=
  match start env with
  | Started s0 => valuesReceived counted s0 acts
  | NoWatcher _ => 0
  end.

(* The answer of the store cut down to the results [results]. *)
Definition answering (results : list LifeResult) (a : StorageAnswer)
    : StorageAnswer :=
  {| stLife := inl results; stWatcherErr := stWatcherErr a |}.

(* The storage-changed event with payload [keys], answered by [a]. *)
Definition storageEvent (keys : list string) (a : StorageAnswer)
    (receiving : bool) : Input :=
  {| event := StorageChanges (Value (keys, a)); receiverReady := receiving |}.

(* Can the select of the for loop, with the locals of [c], take the
   case [e]? A receive on a nil channel is never taken, and the ticket
   of the claim is not among the cases of the for loop. *)
Definition enabled (c : Config) (e : Event) : bool :=
  match e with
  | ClaimLeaderReady _ => false
  | WaitMinionReady => waitMinion (vars c)
  | WaitLeaderReady => waitLeader (vars c)
  | _ => true
  end.

(* How many of [acts], run from [s], are cases the for loop takes and
   stays in the loop after, with the consumer receiving on the output
   channel. *)
Fixpoint sendsOffered (s : LoopState) (acts : list Action) : nat :=
  match acts with
  | [] => 0%nat
  | a :: rest =>
      (match a, s, act s a with
       | LoopInput i, InLoop c, InLoop _ =>
           if receiverReady i && enabled c (event i) then 1 else 0
       | _, _, _ => 0
       end + sendsOffered (act s a) rest)%nat
  end.

Definition sendsOfferedTo (env : StartEnv) (acts : list Action) : nat :=
  match start env with
  | Started s0 => sendsOffered s0 acts
  | NoWatcher _ => 0%nat
  end.

(* [foreignKept σ σ']: the watcher still holds the same two maps, they
   are still there, and every other Relations or Storage map of the
   heap is as it was. *)
Definition foreignKept (σ σ' : World) : Prop :=
  Relations (current (watcher σ')) = Relations (current (watcher σ))
  ∧ Storage (current (watcher σ')) = Storage (current (watcher σ))
  ∧ (∀ l m, l ≠ Relations (current (watcher σ)) →
            relMaps (heap σ) !! l = Some m → relMaps (heap σ') !! l = Some m)
  ∧ (∀ l m, l ≠ Storage (current (watcher σ)) →
            stoMaps (heap σ) !! l = Some m → stoMaps (heap σ') !! l = Some m)
  ∧ (is_Some (relMaps (heap σ) !! Relations (current (watcher σ))) →
     is_Some (relMaps (heap σ') !! Relations (current (watcher σ))))
  ∧ (is_Some (stoMaps (heap σ) !! Storage (current (watcher σ))) →
     is_Some (stoMaps (heap σ') !! Storage (current (watcher σ)))).

(* The two maps of the watcher exist. *)
Definition allocated (σ : World) : Prop :=
  is_Some (relMaps (heap σ) !! Relations (current (watcher σ)))
  ∧ is_Some (stoMaps (heap σ) !! Storage (current (watcher σ))).

(* Does the handler of the event work through a payload, key by key or
   result by result? *)
Definition hasPayload (e : Event) : bool :=
  match e with
  | RelationsChanges (Value _) | StorageChanges (Value _) => true
  | _ => false
  end.

(* The relations event with payload [keys] (each key with what the store
   answers for it). *)
Definition relationsEvent (keys : list (string * RelationAnswer))
    (receiving : bool) : Input :=
  {| event := RelationsChanges (Value keys); receiverReady := receiving |}.

(* The error of the first of the seven Watch calls of [loop] that
   fails, in the order the loop makes them. *)
Definition watchErrors (env : WatchEnv) : list (option error) :=
  [unitWatch env; serviceWatch env; configWatch env; relationsWatch env;
   addressesWatch env; storageWatch env; leaderSettingsWatch env].

Definition firstWatchError (env : WatchEnv) : option error :=
  foldr (λ e rest, match e with Some _ => e | None => rest end) None
    (watchErrors env).

(** The API watchers of relation units. While a handler has not failed
    every one that runs is inside a relationUnitsWatcher; what is left
    when relationsChanged fails is at most one running on its own: the
    one it asked for and abandoned because the tomb was dying, for a
    tag that is not registered. *)
Definition allOwned (running : gmap handle SubWatcher) : Prop :=
  ∀ h tag, running !! h ≠ Some (WatchRelationUnitsW tag).

Definition oneLeftBehind (err : error) (running : gmap handle SubWatcher)
    (rels : gmap RelationTag relationUnitsWatcher) : Prop :=
  ∀ h tag,
    running !! h = Some (WatchRelationUnitsW tag) →
    err = ErrDying
    ∧ rels !! tag = None
    ∧ ∀ h' tag', running !! h' = Some (WatchRelationUnitsW tag') → h' = h.

Definition keepsOwned (o : Outcome World) : Prop :=
  match o with
  | Done σ => allOwned (subs σ)
  | Fail err σ => oneLeftBehind err (subs σ) (relations (watcher σ))
  | Panic => True
  end.


(** * Scenarios *)

(* A delta for relation 5, which a fresh watcher does not track. *)
Definition unknownDelta : relationUnitsChange :=
  {| rucRelationId := 5; Changed := {["svc2/1" := 3]}; Departed := ["svc2/0"] |}.

(* Every Watch call succeeds. *)
Definition watchAll : WatchEnv :=
  {| unitWatch := None; serviceWatch := None; configWatch := None;
     relationsWatch := None; addressesWatch := None; storageWatch := None;
     leaderSettingsWatch := None |}.

(* The store does not find the unit; the store finds unit u/0 and its
   service. *)
Definition unitGone : StartEnv :=
  {| seInit := {| stUnit := inr (ApiError CodeNotFound "unit not found");
                  unitService := inl {| serviceName := "u" |} |};
     seWatch := watchAll |}.

Definition unitPresent : StartEnv :=
  {| seInit := {| stUnit := inl {| unitTag := "u/0" |};
                  unitService := inl {| serviceName := "u" |} |};
     seWatch := watchAll |}.

(* The loop of a freshly built watcher, blocked on the ticket. *)
Definition waitingForTicket : Config :=
  {| world := match NewWatcher (seInit unitPresent) with
              | inl σ => σ
              | inr _ => newWorld
              end;
     vars := {| requiredEvents := 8; eventsObserved := 0; seen := λ _, false;
                waitLeader := false; waitMinion := false |} |}.

(** The eight initial events of a unit with no relation and no storage,
    the consumer receiving all along. *)
Definition initialEvents : list Action :=
  (λ e, LoopInput {| event := e; receiverReady := true |}) <$>
  [ClaimLeaderReady false;
   UnitChanges (Value {| uaRefresh := None; uaResolved := ResolvedNone;
                         uaResolvedErr := None; uaLife := Alive |});
   ServiceChanges (Value {| saRefresh := None; saURL := Some "cs:trusty/u-1";
                            saForce := false; saCharmErr := None |});
   ConfigChanges (Value ());
   AddressesChanges (Value ());
   RelationsChanges (Value []);
   StorageChanges (Value ([], {| stLife := inl []; stWatcherErr := λ _, None |}));
   LeaderSettingsChanges (Value ())].

(* Scenario S3: a relation appears with one member, has its life
   refreshed, and goes away. *)
Definition dbKey : string := "svc:db svc2:db".

Definition dbAppears : RelationAnswer :=
  {| raRelation := inl (0, Alive); raStop := None; raWatch := None;
     raInitial := GotChange {["svc2/0" := 7]} |}.

Definition dbDying : RelationAnswer :=
  {| raRelation := inl (0, Dying); raStop := None; raWatch := None;
     raInitial := GotDying |}.

Definition dbGone : RelationAnswer :=
  {| raRelation := inr (ApiError CodeNotFound "relation not found");
     raStop := None; raWatch := None; raInitial := GotDying |}.

Definition withDb : World :=
  match relationsChangedKey dbKey dbAppears newWorld with
  | Done σ => σ
  | _ => newWorld
  end.

(* Scenario: storage data/0 appears on a fresh watcher and is then
   reported not found. *)
Definition dataPresent : StorageAnswer :=
  {| stLife := inl [{| lrLife := Alive; lrError := None |}];
     stWatcherErr := λ _, None |}.

Definition dataGone : StorageAnswer :=
  {| stLife := inl [{| lrLife := ""; lrError :=
                         Some (ApiError CodeNotFound "attachment not found") |}];
     stWatcherErr := λ _, None |}.

Definition withData : World :=
  match storageChanged ["data/0"] dataPresent newWorld with
  | Done σ => σ
  | _ => newWorld
  end.

(* Scenario S3 goes on: with relation 0 and its member svc2/0 at
   version 7 in place, one unit joins and svc2/0 departs. *)
Definition dbDelta : relationUnitsChange :=
  {| rucRelationId := 0; Changed := {["svc2/1" := 3]}; Departed := ["svc2/0"] |}.

(* Scenario S6 in small: the bound is two, the queue of account 0 holds
   two tokens of dead transactions, and a third transaction comes. *)
Definition doubleQuote : string := String (Ascii.ascii_of_nat 34) "".

Definition quoted (s : string) : string := doubleQuote +:+ s +:+ doubleQuote.

Definition account0 : string * Z := ("accounts", 0).

Definition deadTokens : list Txn.token :=
  [{| Txn.tokId := "t1"; Txn.tokNonce := "a" |};
   {| Txn.tokId := "t2"; Txn.tokNonce := "b" |}].

Definition third : Txn.transaction :=
  {| Txn.tId := "t3"; Txn.State := Txn.tpreparing; Txn.Nonce := "c" |}.

Definition fullDB : @Txn.DB Z _ _ :=
  {| Txn.docQueues := {[account0 := deadTokens]};
     Txn.txnStates := {["t3" := Txn.tpreparing]} |}.

Definition boundedAt (n : Z) : @Txn.flusher Z _ _ :=
  {| Txn.fopts := {| Txn.MaxTxnQueueLength := n;
                     Txn.AssertionCleanupLength := 10 |};
     Txn.fqueue := ∅ |}.

(* Inputs taken while the consumer is, or is not, receiving. *)
Definition received_ (e : Event) : Action :=
  LoopInput {| event := e; receiverReady := true |}.

Definition unread (e : Event) : Action :=
  LoopInput {| event := e; receiverReady := false |}.

(* What Snapshot() returns and what the loop's locals are, once the
   watcher of [unitPresent] has gone through [acts]. *)
Definition snapshotAfter (acts : list Action) : option Snapshot :=
  match systemRun unitPresent acts with
  | Started s => Some (Snapshot_ (worldOf s)).1
  | NoWatcher _ => None
  end.

Definition waitsAfter (acts : list Action) : option (bool * bool) :=
  match systemRun unitPresent acts with
  | Started s => (λ v, (waitLeader v, waitMinion v)) <$> varsOf s
  | NoWatcher _ => None
  end.

(* A unit becomes minion, joins relation 0 with one member and gets
   storage data/0; then the tomb is killed. *)
Definition busyEvents : list Action :=
  [received_ (ClaimLeaderReady false);
   received_ (RelationsChanges (Value [(dbKey, dbAppears)]));
   received_ (StorageChanges (Value (["data/0"], dataPresent)))].

Definition killedWhileBusy : list Action :=
  busyEvents ++ [received_ TombDying].

(* A config change arrives while the consumer is receiving. *)
Definition configArrives : Input :=
  {| event := ConfigChanges (Value ()); receiverReady := true |}.

(* Two keys, and a store that answers with three results. *)
Definition twoKeys : list string := ["data/0"; "data/1"].

Definition threeResults : StorageAnswer :=
  {| stLife := inl [ {| lrLife := Alive; lrError := None |};
                     {| lrLife := Alive; lrError := None |};
                     {| lrLife := Alive; lrError := None |} ];
     stWatcherErr := λ _, None |}.

(* The second of two results is an error that is not a not-found. *)
Definition secondFails : StorageAnswer :=
  {| stLife := inl [ {| lrLife := Alive; lrError := None |};
                     {| lrLife := Alive;
                        lrError := Some (ApiError "permission denied" "no") |} ];
     stWatcherErr := λ _, None |}.

(* The unit cannot be refreshed. *)
Definition unitRefreshFails : Input :=
  {| event := UnitChanges
                (Value {| uaRefresh := Some (OtherError "connection is shut down");
                          uaResolved := ResolvedNone; uaResolvedErr := None;
                          uaLife := Alive |});
     receiverReady := true |}.

(* The store cannot be asked about a second relation. *)
Definition otherKey : string := "svc:web svc3:web".

Definition storeDown : RelationAnswer :=
  {| raRelation := inr (OtherError "connection is shut down");
     raStop := None; raWatch := None; raInitial := GotDying |}.

(* The relations of the service cannot be watched. *)
Definition relationsUnwatchable : StartEnv :=
  {| seInit := seInit unitPresent;
     seWatch := {| unitWatch := None; serviceWatch := None; configWatch := None;
                   relationsWatch := Some (OtherError "cannot watch relations");
                   addressesWatch := None;
                   storageWatch := Some (OtherError "cannot watch storage");
                   leaderSettingsWatch := None |} |}.

(* A config change nobody is waiting to hear of, and a watcher that
   takes as many of them as the largest int counts. *)
Definition configUnread : Action := unread (ConfigChanges (Value ())).

Definition upToMaxInt : list Action :=
  received_ (ClaimLeaderReady false) :: replicate (Z.to_nat maxInt) configUnread.

(* A watcher whose counter stands at the largest int. *)
Definition counterAtMaxInt : World :=
  withCurrent (setConfigVersion maxInt) newWorld.


(** * Properties *)

(** ** What the handlers leave alone *)

Lemma keeps_refl σ : keeps σ σ.
Proof. by split. Qed.

Lemma keeps_trans σ1 σ2 σ3 : keeps σ1 σ2 → keeps σ2 σ3 → keeps σ1 σ3.
Proof. intros [? ?] [? ?]; split; congruence. Qed.

Lemma after_withAnnotation (P : World → Prop) msg o :
  after P o → after P (withAnnotation msg o).
Proof. by destruct o. Qed.

Lemma relationsChangedKey_keeps key a σ :
  after (keeps σ) (relationsChangedKey key a σ).
Proof.
  unfold relationsChangedKey.
  destruct (raRelation a) as [[relId relLife]|err].
  - destruct (relations (watcher σ) !! NewRelationTag key); [by split|].
    destruct (raWatch a); [by split|].
    destruct (raInitial a); by split.
  - destruct (IsCodeNotFoundOrCodeUnauthorized (Some err)); [|by split].
    destruct (relations (watcher σ) !! NewRelationTag key); [|by split].
    destruct (raStop a); by split.
Qed.

Lemma relationsChanged_keeps keys σ :
  after (keeps σ) (relationsChanged keys σ).
Proof.
  revert σ; induction keys as [|[key a] rest IH]; intros σ; [by split|].
  simpl. pose proof (relationsChangedKey_keeps key a σ) as Hk.
  destruct (relationsChangedKey key a σ) as [σ'| |]; try done.
  specialize (IH σ'). destruct (relationsChanged rest σ'); simpl in *;
    eauto using keeps_trans.
Qed.

Lemma relationUnitsChanged_keeps change σ :
  after (keeps σ) (relationUnitsChanged change σ).
Proof.
  unfold relationUnitsChanged.
  destruct (curRelations σ !! rucRelationId change) as [snapshot|]; [|by split].
  destruct (Members snapshot); [by split|].
  case_decide; by try split.
Qed.

Lemma storageAttachmentChanged_keeps event σ :
  after (keeps σ) (storageAttachmentChanged event σ).
Proof. unfold storageAttachmentChanged. destruct (remove event); by split. Qed.

Lemma startStorageAttachmentWatcher_keeps tag e σ :
  after (keeps σ) (startStorageAttachmentWatcher tag e σ).
Proof.
  unfold startStorageAttachmentWatcher.
  destruct (storageAttachementWatchers (watcher σ) !! tag); [by split|].
  destruct e; by split.
Qed.

Lemma stopStorageAttachmentWatcher_keeps tag e σ :
  after (keeps σ) (stopStorageAttachmentWatcher tag e σ).
Proof.
  unfold stopStorageAttachmentWatcher.
  destruct (storageAttachementWatchers (watcher σ) !! tag); [|by split].
  destruct e; by split.
Qed.

Lemma storageResult_keeps tags i result e σ :
  after (keeps σ) (storageResult tags i result e σ).
Proof.
  unfold storageResult.
  destruct (tags !! i) as [tag|]; [|done].
  destruct (lrError result) as [err|].
  - destruct (IsCodeNotFound (Some err)); [|by split].
    apply after_withAnnotation.
    match goal with |- after _ (stopStorageAttachmentWatcher _ _ ?s) =>
      pose proof (stopStorageAttachmentWatcher_keeps tag e s) as Hs;
      destruct (stopStorageAttachmentWatcher tag e s) end;
      simpl in *; try done; destruct Hs; by split.
  - apply after_withAnnotation.
    match goal with |- after _ (startStorageAttachmentWatcher _ _ ?s) =>
      pose proof (startStorageAttachmentWatcher_keeps tag e s) as Hs;
      destruct (startStorageAttachmentWatcher tag e s) end;
      simpl in *; try done; destruct Hs; by split.
Qed.

Lemma storageResults_keeps tags results we : ∀ i σ,
  after (keeps σ) (storageResults tags i results we σ).
Proof.
  induction results as [|result rest IH]; intros i σ; [by split|].
  simpl. pose proof (storageResult_keeps tags i result (we i) σ) as Hk.
  destruct (storageResult tags i result (we i) σ) as [σ'| |]; try done.
  specialize (IH (S i) σ').
  destruct (storageResults tags (S i) rest we σ'); simpl in *;
    eauto using keeps_trans.
Qed.

Lemma storageChanged_keeps keys a σ :
  after (keeps σ) (storageChanged keys a σ).
Proof.
  unfold storageChanged. destruct (stLife a); [|by split].
  apply storageResults_keeps.
Qed.

(** ** ConfigVersion and the range of int *)

Lemma readConfigVersion_current σ :
  readConfigVersion σ = ConfigVersion (current (watcher σ)).
Proof. reflexivity. Qed.

Lemma intWrap_range z : minInt ≤ intWrap z ≤ maxInt.
Proof.
  unfold intWrap, minInt, maxInt.
  pose proof (Z.mod_pos_bound (z + 2 ^ 63) (2 ^ 64)). lia.
Qed.

Lemma intWrap_id z : minInt ≤ z ≤ maxInt → intWrap z = z.
Proof.
  unfold intWrap, minInt, maxInt. intros H. rewrite Z.mod_small; lia.
Qed.

Lemma intWrap_add z n : intWrap (intWrap z + n) = intWrap (z + n).
Proof.
  unfold intWrap.
  replace ((z + 2 ^ 63) mod 2 ^ 64 - 2 ^ 63 + n + 2 ^ 63)
    with ((z + 2 ^ 63) mod 2 ^ 64 + n) by lia.
  replace (z + n + 2 ^ 63) with ((z + 2 ^ 63) + n) by lia.
  by rewrite Zplus_mod_idemp_l.
Qed.

Lemma intIncr_below n : minInt ≤ n < maxInt → intIncr n = n + 1.
Proof. intros H. apply intWrap_id. lia. Qed.

Lemma intIncr_maxInt : intIncr maxInt = minInt.
Proof. reflexivity. Qed.

Lemma keeps_grows σ σ' : keeps σ σ' → grows σ σ'.
Proof.
  intros [Ho Hc]; split; [done|]. left.
  unfold readConfigVersion; simpl. by rewrite Hc.
Qed.

Lemma after_impl {A} (P Q : A → Prop) o :
  (∀ a, P a → Q a) → after P o → after Q o.
Proof. destruct o; simpl; auto. Qed.

Lemma unitChanged_grows a σ : after (grows σ) (unitChanged a σ).
Proof.
  unfold unitChanged.
  destruct (uaRefresh a); [by apply keeps_grows, keeps_refl|].
  destruct (uaResolvedErr a); [by apply keeps_grows, keeps_refl|].
  split; [done|]. by left.
Qed.

Lemma serviceChanged_grows a σ : after (grows σ) (serviceChanged a σ).
Proof.
  unfold serviceChanged.
  destruct (saRefresh a); [by apply keeps_grows, keeps_refl|].
  destruct (saCharmErr a); [by apply keeps_grows, keeps_refl|].
  split; [done|]. by left.
Qed.

Lemma configChanged_grows σ : after (grows σ) (configChanged σ).
Proof. split; [done|]. by right. Qed.

Lemma addressesChanged_grows σ : after (grows σ) (addressesChanged σ).
Proof. split; [done|]. by right. Qed.

Lemma leaderSettingsChanged_grows σ : after (grows σ) (leaderSettingsChanged σ).
Proof. split; [done|]. by left. Qed.

Lemma leadershipChanged_grows b σ : after (grows σ) (leadershipChanged b σ).
Proof. split; [done|]. by left. Qed.

Lemma fire_readConfigVersion rr c :
  readConfigVersion (world (fire rr c)) = readConfigVersion (world c).
Proof. unfold fire. case_decide; [done|]. by destruct rr. Qed.

Lemma stopRelationWatchers_keeps σ : keeps σ (stopRelationWatchers σ).
Proof. by split. Qed.

Lemma handled_readConfigVersion o flag rr c :
  after (grows (world c)) o →
  readConfigVersion (worldOf (handled o flag rr c)) = readConfigVersion (world c)
  ∨ readConfigVersion (worldOf (handled o flag rr c))
    = intIncr (readConfigVersion (world c)).
Proof.
  destruct o as [σ|err σ|]; simpl; intros H.
  - rewrite fire_readConfigVersion. apply H.
  - apply H.
  - by left.
Qed.

Lemma received_readConfigVersion {A} (r : Recv A) handler flag rr c :
  (∀ a σ, after (grows σ) (handler a σ)) →
  readConfigVersion (worldOf (received r handler flag rr c))
  = readConfigVersion (world c)
  ∨ readConfigVersion (worldOf (received r handler flag rr c))
    = intIncr (readConfigVersion (world c)).
Proof.
  intros H. destruct r as [err|a]; simpl.
  - by left.
  - by apply handled_readConfigVersion.
Qed.

Local Ltac same_version :=
  left; rewrite ?fire_readConfigVersion, ?readConfigVersion_current; reflexivity.

Lemma step_readConfigVersion s i :
  readConfigVersion (worldOf (step s i)) = readConfigVersion (worldOf s)
  ∨ readConfigVersion (worldOf (step s i)) = intIncr (readConfigVersion (worldOf s)).
Proof.
  destruct s as [c|c|err σ|σ]; simpl; try (by left).
  - destruct (event i) as [|isLeader| | | | | | | | | | |]; simpl;
      try (by left); same_version.
  - destruct (event i) as [|isLeader| | | | | | | | | |ok ev|]; simpl;
      try (by left).
    + apply received_readConfigVersion, unitChanged_grows.
    + apply received_readConfigVersion, serviceChanged_grows.
    + apply received_readConfigVersion; intros; apply configChanged_grows.
    + apply received_readConfigVersion; intros; apply addressesChanged_grows.
    + apply received_readConfigVersion; intros; apply leaderSettingsChanged_grows.
    + apply received_readConfigVersion; intros.
      eapply after_impl; [apply keeps_grows|apply relationsChanged_keeps].
    + apply received_readConfigVersion; intros.
      eapply after_impl; [apply keeps_grows|apply storageChanged_keeps].
    + destruct (waitMinion (vars c)); simpl; [|by left]. same_version.
    + destruct (waitLeader (vars c)); simpl; [|by left]. same_version.
    + destruct ok; simpl; [|same_version].
      apply handled_readConfigVersion.
      eapply after_impl; [apply keeps_grows|apply storageAttachmentChanged_keeps].
    + apply handled_readConfigVersion.
      eapply after_impl; [apply keeps_grows|apply relationUnitsChanged_keeps].
Qed.

Lemma act_readConfigVersion s a :
  readConfigVersion (worldOf (act s a)) = readConfigVersion (worldOf s)
  ∨ readConfigVersion (worldOf (act s a)) = intIncr (readConfigVersion (worldOf s)).
Proof.
  destruct a as [i| |]; simpl.
  - apply step_readConfigVersion.
  - left. by destruct s.
  - left. by destruct s.
Qed.

Lemma run_app s acts1 acts2 : run s (acts1 ++ acts2) = run (run s acts1) acts2.
Proof. apply foldl_app. Qed.

(* Below the largest int nothing takes the counter down. *)
Lemma run_readConfigVersion acts : ∀ s,
  minInt ≤ readConfigVersion (worldOf s) →
  readConfigVersion (worldOf s) + Z.of_nat (length acts) ≤ maxInt →
  readConfigVersion (worldOf s)
  ≤ readConfigVersion (worldOf (run s acts))
  ≤ readConfigVersion (worldOf s) + Z.of_nat (length acts).
Proof.
  induction acts as [|a acts IH]; intros s Hlo Hhi; [simpl; lia|].
  change (run s (a :: acts)) with (run (act s a) acts).
  rewrite length_cons, Nat2Z.inj_succ in Hhi |- *.
  assert (readConfigVersion (worldOf s)
          ≤ readConfigVersion (worldOf (act s a))
          ≤ readConfigVersion (worldOf s) + 1) as Ha.
  { destruct (act_readConfigVersion s a) as [->| ->]; [lia|].
    rewrite intIncr_below; lia. }
  specialize (IH (act s a)). lia.
Qed.

(* The counter stays an int. *)
Lemma run_readConfigVersion_int acts : ∀ s,
  minInt ≤ readConfigVersion (worldOf s) ≤ maxInt →
  minInt ≤ readConfigVersion (worldOf (run s acts)) ≤ maxInt.
Proof.
  induction acts as [|a acts IH]; intros s Hs; [done|].
  change (run s (a :: acts)) with (run (act s a) acts).
  apply IH. destruct (act_readConfigVersion s a) as [->| ->]; [done|].
  apply intWrap_range.
Qed.

Lemma loopStart_world env σ : worldOf (loopStart env σ) = σ.
Proof.
  unfold loopStart. repeat case_match; reflexivity.
Qed.

Lemma NewWatcher_readConfigVersion env σ :
  NewWatcher env = inl σ → readConfigVersion σ = 0.
Proof.
  unfold NewWatcher, init. intros HN.
  repeat case_match; simplify_eq; reflexivity.
Qed.

Lemma start_readConfigVersion env s0 :
  start env = Started s0 → readConfigVersion (worldOf s0) = 0.
Proof.
  unfold start.
  destruct (NewWatcher (seInit env)) as [σ|err] eqn:HN; [|done].
  intros [= <-]. rewrite loopStart_world. by eapply NewWatcher_readConfigVersion.
Qed.

(* Config values, as many as one likes, taken in the for loop. *)
Lemma run_config_values n : ∀ c,
  minInt ≤ readConfigVersion (world c) ≤ maxInt →
  ∃ c', run (InLoop c) (replicate n (unread (ConfigChanges (Value ()))))
        = InLoop c'
        ∧ readConfigVersion (world c')
          = intWrap (readConfigVersion (world c) + Z.of_nat n).
Proof.
  induction n as [|n IH]; intros c Hc.
  - exists c. split; [done|]. rewrite Z.add_0_r. symmetry. by apply intWrap_id.
  - change (replicate (S n) (unread (ConfigChanges (Value ()))))
      with (unread (ConfigChanges (Value ()))
            :: replicate n (unread (ConfigChanges (Value ())))).
    change (run (InLoop c) (?a :: ?l)) with (run (act (InLoop c) a) l).
    set (c1 := fire false
                 {| world := withCurrent
                               (λ s, setConfigVersion (intIncr (ConfigVersion s)) s)
                               (world c);
                    vars := observedEvent seenConfigChange (vars c) |}).
    assert (act (InLoop c) (unread (ConfigChanges (Value ()))) = InLoop c1)
      as -> by reflexivity.
    assert (readConfigVersion (world c1) = intIncr (readConfigVersion (world c)))
      as H1 by (unfold c1; by rewrite fire_readConfigVersion).
    destruct (IH c1) as (c' & Hrun & Hv).
    { rewrite H1. apply intWrap_range. }
    exists c'. split; [done|]. rewrite Hv, H1. unfold intIncr.
    rewrite intWrap_add. f_equal. lia.
Qed.

(** C2, as amended. A config-change event and an addresses-change event
    each increment the one ConfigVersion counter by exactly one, as
    Go's ++ does: at the largest int the increment wraps around to the
    smallest. Along every interleaving of loop events and caller
    operations a step leaves the counter where it was or increments it,
    so the ConfigVersion read through Snapshot() never decreases as
    long as the counter has not reached the largest int: what was read
    after a prefix of a run is at most what is read after the whole
    run, and for a watcher built by NewWatcher this holds of every run
    of fewer than 2^63 steps, the counter never exceeding the number of
    steps. *)
Theorem ConfigVersion_shared_and_monotone :
  (∀ σ, ∃ σ', configChanged σ = Done σ'
              ∧ readConfigVersion σ' = intIncr (readConfigVersion σ)
              ∧ (minInt ≤ readConfigVersion σ < maxInt →
                 readConfigVersion σ' = readConfigVersion σ + 1))
  ∧ (∀ σ, ∃ σ', addressesChanged σ = Done σ'
                ∧ readConfigVersion σ' = intIncr (readConfigVersion σ)
                ∧ (minInt ≤ readConfigVersion σ < maxInt →
                   readConfigVersion σ' = readConfigVersion σ + 1))
  ∧ (∀ c rr,
       minInt ≤ readConfigVersion (world c) < maxInt →
       readConfigVersion
         (worldOf (step (InLoop c)
            {| event := ConfigChanges (Value ()); receiverReady := rr |}))
       = readConfigVersion (world c) + 1
       ∧ readConfigVersion
           (worldOf (step (InLoop c)
              {| event := AddressesChanges (Value ()); receiverReady := rr |}))
         = readConfigVersion (world c) + 1)
  ∧ (∀ s before later,
       minInt ≤ readConfigVersion (worldOf (run s before)) →
       readConfigVersion (worldOf (run s before)) + Z.of_nat (length later)
       ≤ maxInt →
       readConfigVersion (worldOf (run s before))
       ≤ readConfigVersion (worldOf (run s (before ++ later))))
  ∧ (∀ s i,
       readConfigVersion (worldOf (step s i)) = readConfigVersion (worldOf s)
       ∨ readConfigVersion (worldOf (step s i))
         = intIncr (readConfigVersion (worldOf s)))
  ∧ (∀ env acts,
       Z.of_nat (length acts) ≤ maxInt →
       0 ≤ configVersionAfter env acts ≤ Z.of_nat (length acts))
  ∧ (∀ env before later,
       Z.of_nat (length (before ++ later)) ≤ maxInt →
       configVersionAfter env before
       ≤ configVersionAfter env (before ++ later)).
Proof.
  assert (∀ env s0 acts,
            start env = Started s0 → Z.of_nat (length acts) ≤ maxInt →
            0 ≤ readConfigVersion (worldOf (run s0 acts))
            ≤ Z.of_nat (length acts)) as Hbound.
  { intros env s0 acts Hstart Hlen.
    pose proof (run_readConfigVersion acts s0) as Hrun.
    rewrite (start_readConfigVersion _ _ Hstart) in Hrun.
    unfold minInt in Hrun. lia. }
  split_and!.
  - intros σ. eexists; split; [reflexivity|]. split; [reflexivity|].
    intros Hr. by apply intIncr_below.
  - intros σ. eexists; split; [reflexivity|]. split; [reflexivity|].
    intros Hr. by apply intIncr_below.
  - intros c rr Hr; split; simpl; rewrite fire_readConfigVersion;
      by apply intIncr_below.
  - intros s before later Hlo Hhi. rewrite run_app.
    by apply run_readConfigVersion.
  - apply step_readConfigVersion.
  - intros env acts Hlen. unfold configVersionAfter, systemRun.
    destruct (start env) as [err|s0] eqn:Hstart; [lia|]. by eapply Hbound.
  - intros env before later Hlen. unfold configVersionAfter, systemRun.
    destruct (start env) as [err|s0] eqn:Hstart; [lia|].
    rewrite length_app, Nat2Z.inj_add in Hlen.
    pose proof (Hbound env s0 before Hstart ltac:(lia)) as Hb.
    rewrite run_app. apply run_readConfigVersion; unfold minInt; lia.
Qed.

Lemma config_values_from_start n :
  Z.of_nat n ≤ maxInt →
  configVersionAfter unitPresent
    (received_ (ClaimLeaderReady false) :: replicate n configUnread)
  = Z.of_nat n
  ∧ configVersionAfter unitPresent
      ((received_ (ClaimLeaderReady false) :: replicate n configUnread)
       ++ [configUnread])
    = intIncr (Z.of_nat n).
Proof.
  intros Hn. unfold configVersionAfter, systemRun.
  assert (start unitPresent = Started (AtClaimLeader waitingForTicket)) as ->
    by reflexivity.
  set (c0 := {| world := withCurrent (setLeader false) (world waitingForTicket);
                vars := observedEvent seenLeadershipChange
                          (setWaits true false (vars waitingForTicket)) |}).
  assert (∀ l, run (AtClaimLeader waitingForTicket)
                 (received_ (ClaimLeaderReady false) :: l)
               = run (InLoop c0) l) as Hticket by reflexivity.
  assert (readConfigVersion (world c0) = 0) as H0 by reflexivity.
  destruct (run_config_values n c0) as (c' & Hrun & Hv).
  { rewrite H0. unfold minInt, maxInt. lia. }
  rewrite H0, Z.add_0_l, intWrap_id in Hv by (unfold minInt; lia).
  split.
  - rewrite Hticket. unfold configUnread. by rewrite Hrun.
  - rewrite run_app, Hticket. unfold configUnread. rewrite Hrun.
    simpl. by rewrite fire_readConfigVersion, readConfigVersion_current, <- Hv.
Qed.

(** C2 as stated fails: a watcher that has taken as many config changes
    as the largest int counts shows that int as its ConfigVersion; the
    next config change makes it the smallest int, so the ConfigVersion
    read through Snapshot() has decreased, and the increment was not by
    one. *)
Lemma ConfigVersion_wraps_around_counterexample :
  configVersionAfter unitPresent upToMaxInt = maxInt
  ∧ configVersionAfter unitPresent (upToMaxInt ++ [configUnread]) = minInt
  ∧ ¬ (∀ env before later,
         configVersionAfter env before
         ≤ configVersionAfter env (before ++ later))
  ∧ readConfigVersion counterAtMaxInt = maxInt
  ∧ configChanged counterAtMaxInt
    = Done (withCurrent (setConfigVersion minInt) counterAtMaxInt)
  ∧ ¬ (∀ σ σ', configChanged σ = Done σ' →
               readConfigVersion σ' = readConfigVersion σ + 1).
Proof.
  assert (Z.of_nat (Z.to_nat maxInt) = maxInt) as Hmax
    by (apply Z2Nat.id; unfold maxInt; lia).
  destruct (config_values_from_start (Z.to_nat maxInt)) as [Hup Hover].
  { rewrite Hmax. lia. }
  rewrite Hmax in Hup, Hover. fold upToMaxInt in Hup, Hover.
  rewrite intIncr_maxInt in Hover.
  split_and!.
  - exact Hup.
  - exact Hover.
  - intros Hmono. specialize (Hmono unitPresent upToMaxInt [configUnread]).
    rewrite Hup, Hover in Hmono. unfold maxInt, minInt in Hmono. lia.
  - reflexivity.
  - reflexivity.
  - intros Hone.
    specialize (Hone counterAtMaxInt
                  (withCurrent (setConfigVersion minInt) counterAtMaxInt)
                  eq_refl).
    revert Hone. unfold readConfigVersion; simpl. unfold maxInt, minInt. lia.
Qed.

Lemma ConfigVersion_shared_and_monotone_witness :
  Z.of_nat (length initialEvents) ≤ maxInt
  ∧ 0 ≤ configVersionAfter unitPresent initialEvents
    ≤ Z.of_nat (length initialEvents)
  ∧ configVersionAfter unitPresent (take 3 initialEvents)
    ≤ configVersionAfter unitPresent (take 3 initialEvents ++ drop 3 initialEvents).
Proof.
  assert (Z.of_nat (length initialEvents) ≤ maxInt) as Hlen
    by (unfold maxInt; simpl; lia).
  assert (Z.of_nat (length (take 3 initialEvents ++ drop 3 initialEvents))
          ≤ maxInt) as Hlen'
    by (unfold maxInt; simpl; lia).
  destruct ConfigVersion_shared_and_monotone
    as (_ & _ & _ & _ & _ & Hbound & Hmono).
  split; [exact Hlen|]. split.
  - exact (Hbound unitPresent initialEvents Hlen).
  - exact (Hmono unitPresent (take 3 initialEvents) (drop 3 initialEvents) Hlen').
Defined.

(** ** ClearResolvedMode *)

(** C8. ClearResolvedMode sets ResolvedMode to None and leaves every
    other field of the snapshot, both maps and their contents, the
    sub-watchers and the loop's locals as they were; the count of
    signals sent on the output channel is the same after the call. *)
Theorem ClearResolvedMode_only_clears (s : LoopState) :
  let s' := act s CallClearResolvedMode in
  let before := current (watcher (worldOf s)) in
  let after_ := current (watcher (worldOf s')) in
  ResolvedMode_ after_ = ResolvedNone
  ∧ ResolvedMode_ (Snapshot_ (worldOf s')).1 = ResolvedNone
  ∧ Life_ after_ = Life_ before
  ∧ CharmURL after_ = CharmURL before
  ∧ ForceCharmUpgrade after_ = ForceCharmUpgrade before
  ∧ ConfigVersion after_ = ConfigVersion before
  ∧ LeaderSettingsVersion after_ = LeaderSettingsVersion before
  ∧ Leader after_ = Leader before
  ∧ Relations after_ = Relations before
  ∧ Storage after_ = Storage before
  ∧ heap (worldOf s') = heap (worldOf s)
  ∧ curRelations (worldOf s') = curRelations (worldOf s)
  ∧ curStorage (worldOf s') = curStorage (worldOf s)
  ∧ subs (worldOf s') = subs (worldOf s)
  ∧ relations (watcher (worldOf s')) = relations (watcher (worldOf s))
  ∧ storageAttachementWatchers (watcher (worldOf s'))
    = storageAttachementWatchers (watcher (worldOf s))
  ∧ varsOf s' = varsOf s
  ∧ out (worldOf s') = out (worldOf s)
  ∧ signals (Started s') = signals (Started s).
Proof. destruct s; simpl; split_and!; reflexivity. Qed.

(** ** Deltas for relations that are not tracked *)

(** C10. A relation-units delta whose relation id is not a key of the
    current Relations map makes relationUnitsChanged return nil with
    the whole state, snapshot and heap included, unchanged, whatever
    the delta's Changed and Departed hold; the loop then goes on to
    fire() from that same state. *)
Theorem relationUnitsChanged_unknown_relation
    (change : relationUnitsChange) (σ : World) :
  curRelations σ !! rucRelationId change = None →
  relationUnitsChanged change σ = Done σ
  ∧ ∀ vs rr,
      step (InLoop {| world := σ; vars := vs |})
        {| event := RelationUnitsChanges change; receiverReady := rr |}
      = InLoop (fire rr {| world := σ; vars := vs |}).
Proof.
  intros Hnone.
  assert (relationUnitsChanged change σ = Done σ) as Hdone
    by (unfold relationUnitsChanged; by rewrite Hnone).
  split; [done|]. intros vs rr. simpl. by rewrite Hdone.
Qed.

Lemma relationUnitsChanged_unknown_relation_witness :
  curRelations newWorld !! rucRelationId unknownDelta = None
  ∧ relationUnitsChanged unknownDelta newWorld = Done newWorld.
Proof.
  split; [vm_compute; reflexivity|].
  apply (relationUnitsChanged_unknown_relation unknownDelta newWorld).
  vm_compute; reflexivity.
Defined.

(** ** Construction fails on a missing or forbidden unit *)

Lemma init_result env σ :
  (init env σ).2 = initDeferred (lookupError env).
Proof.
  unfold init, lookupError.
  destruct (stUnit env); [|done]. by destruct (unitService env).
Qed.

(** C7. When the lookup of the unit, or of its service, fails during
    construction with a not-found or unauthorized error, init returns
    the terminate-agent sentinel in its place, NewWatcher returns that
    sentinel (traced) and no watcher, the loop is never started and no
    signal is sent whatever happens afterwards. Any other lookup error
    comes out of init as it is, and out of NewWatcher traced. *)
Theorem init_translates_missing_unit (env : StartEnv) (err : error) :
  lookupError (seInit env) = Some err →
  (IsCodeNotFoundOrCodeUnauthorized (Some err) = true →
     (init (seInit env) newWorld).2 = Some ErrTerminateAgent
     ∧ NewWatcher (seInit env) = inr (Trace ErrTerminateAgent)
     ∧ Cause (Trace ErrTerminateAgent) = ErrTerminateAgent
     ∧ ∀ acts, systemRun env acts = NoWatcher (Trace ErrTerminateAgent)
               ∧ signals (systemRun env acts) = 0%nat)
  ∧ (IsCodeNotFoundOrCodeUnauthorized (Some err) = false →
       (init (seInit env) newWorld).2 = Some err
       ∧ NewWatcher (seInit env) = inr (Trace err)
       ∧ ∀ acts, systemRun env acts = NoWatcher (Trace err)
                 ∧ signals (systemRun env acts) = 0%nat).
Proof.
  intros Hlookup.
  pose proof (init_result (seInit env) newWorld) as Hinit.
  rewrite Hlookup in Hinit. unfold initDeferred in Hinit.
  split; intros Hcode; rewrite Hcode in Hinit.
  - assert (NewWatcher (seInit env) = inr (Trace ErrTerminateAgent)) as HN.
    { unfold NewWatcher. destruct (init (seInit env) newWorld) as [σ e].
      simpl in Hinit. by subst e. }
    split_and!; try done.
    intros acts. unfold systemRun, start. by rewrite HN.
  - assert (NewWatcher (seInit env) = inr (Trace err)) as HN.
    { unfold NewWatcher. destruct (init (seInit env) newWorld) as [σ e].
      simpl in Hinit. by subst e. }
    split_and!; try done.
    intros acts. unfold systemRun, start. by rewrite HN.
Qed.

Lemma init_translates_missing_unit_witness :
  lookupError (seInit unitGone) = Some (ApiError CodeNotFound "unit not found")
  ∧ IsCodeNotFoundOrCodeUnauthorized
      (Some (ApiError CodeNotFound "unit not found")) = true
  ∧ NewWatcher (seInit unitGone) = inr (Trace ErrTerminateAgent).
Proof.
  split; [reflexivity|]. split; [reflexivity|].
  apply (init_translates_missing_unit unitGone
           (ApiError CodeNotFound "unit not found")); reflexivity.
Defined.

(** ** The wait for the claim-leader ticket *)

(** C9, as the code has it. While the loop waits for the claim-leader
    ticket it selects on the dying channel as well: when the tomb is
    dying the loop returns the dying sentinel (after the deferred
    stops) without waiting for the ticket; the only other case of that
    select is the ticket becoming ready, and every other event leaves
    the loop waiting. *)
Theorem claim_leader_wait_selects_on_dying (c : Config) (rr : bool) :
  step (AtClaimLeader c) {| event := TombDying; receiverReady := rr |}
  = Returned ErrDying (stopRelationWatchers (world c))
  ∧ ∀ i, event i ≠ TombDying →
         (∀ isLeader, event i ≠ ClaimLeaderReady isLeader) →
         step (AtClaimLeader c) i = AtClaimLeader c.
Proof.
  split; [reflexivity|].
  intros [ev r] Hd Hc; simpl in *. destruct ev; try done.
  by destruct (Hc isLeader).
Qed.

Lemma waitingForTicket_start :
  start unitPresent = Started (AtClaimLeader waitingForTicket).
Proof. reflexivity. Qed.

Lemma claim_leader_wait_selects_on_dying_witness :
  event {| event := WaitLeaderReady; receiverReady := true |} ≠ TombDying
  ∧ step (AtClaimLeader waitingForTicket)
      {| event := WaitLeaderReady; receiverReady := true |}
    = AtClaimLeader waitingForTicket.
Proof.
  split; [discriminate|].
  apply (claim_leader_wait_selects_on_dying waitingForTicket true);
    simpl; [discriminate|intros; discriminate].
Defined.

(** C9 as stated fails: a freshly started loop that is waiting for the
    ticket, which is not ready, returns the dying sentinel as soon as
    the tomb is dying. *)
Lemma claim_leader_wait_ignores_dying_counterexample :
  systemRun unitPresent
    [LoopInput {| event := TombDying; receiverReady := false |}]
  = Started (Returned ErrDying (world waitingForTicket))
  ∧ ¬ (∀ c i, (∀ isLeader, event i ≠ ClaimLeaderReady isLeader) →
              ∀ σ, step (AtClaimLeader c) i ≠ Returned ErrDying σ).
Proof.
  split; [vm_compute; reflexivity|].
  intros H.
  apply (H waitingForTicket {| event := TombDying; receiverReady := false |}
           ltac:(simpl; discriminate)
           (stopRelationWatchers (world waitingForTicket))).
  reflexivity.
Qed.

(** ** The gate on the first signal *)

Lemma intIncr_small n : 0 ≤ n < 2 ^ 62 → intIncr n = n + 1.
Proof.
  intros H. unfold intIncr, intWrap.
  rewrite Z.mod_small; lia.
Qed.

Lemma b2z_range b : 0 ≤ Z.b2z b ≤ 1.
Proof. destruct b; simpl; lia. Qed.

Local Ltac flag_ranges v :=
  pose proof (b2z_range (seen v seenUnitChange));
  pose proof (b2z_range (seen v seenServiceChange));
  pose proof (b2z_range (seen v seenConfigChange));
  pose proof (b2z_range (seen v seenRelationsChange));
  pose proof (b2z_range (seen v seenAddressesChange));
  pose proof (b2z_range (seen v seenStorageChange));
  pose proof (b2z_range (seen v seenLeaderSettingsChange));
  pose proof (b2z_range (seen v seenLeadershipChange)).

Lemma countSeen_range v : 0 ≤ countSeen v ≤ 8.
Proof. unfold countSeen; simpl. flag_ranges v. lia. Qed.

Lemma countSeen_all v : countSeen v = 8 → ∀ f, seen v f = true.
Proof.
  unfold countSeen; simpl. intros H f. flag_ranges v.
  destruct f;
    match goal with |- ?b = true =>
      assert (Z.b2z b = 1) as Hb by lia; by destruct b end.
Qed.

Lemma countSeen_observed flag v :
  seen v flag = false →
  countSeen
    {| requiredEvents := requiredEvents v;
       eventsObserved := intIncr (eventsObserved v);
       seen := λ f, if decide (f = flag) then true else seen v f;
       waitLeader := waitLeader v; waitMinion := waitMinion v |}
  = countSeen v + 1.
Proof.
  intros H. unfold countSeen; destruct flag; simpl; rewrite H; simpl; lia.
Qed.

Lemma observedEvent_required flag v :
  requiredEvents (observedEvent flag v) = requiredEvents v.
Proof. unfold observedEvent. by destruct (seen v flag). Qed.

Lemma observedEvent_count flag v :
  eventsObserved v = countSeen v →
  eventsObserved (observedEvent flag v) = countSeen (observedEvent flag v).
Proof.
  intros H. unfold observedEvent.
  destruct (seen v flag) eqn:Hf; simpl; [done|].
  rewrite countSeen_observed by done. simpl. rewrite H.
  apply intIncr_small. pose proof (countSeen_range v). lia.
Qed.

Lemma observedEvent_seen flag v f :
  seen (observedEvent flag v) f = true ↔ f = flag ∨ seen v f = true.
Proof.
  unfold observedEvent. destruct (seen v flag) eqn:Hf; simpl.
  - split; [auto|]. intros [->|]; done.
  - case_decide as Heq; split; intros Hs; auto.
    destruct Hs as [Hs|Hs]; done.
Qed.

Lemma delivered_mono s0 flag acts a :
  delivered s0 flag acts → delivered s0 flag (acts ++ [a]).
Proof.
  intros (pre & i & post & -> & Hobs).
  exists pre, i, (post ++ [a]). split; [|done].
  by rewrite <- app_assoc.
Qed.

Lemma delivered_last s0 flag acts i :
  observes (run s0 acts) i = Some flag →
  delivered s0 flag (acts ++ [LoopInput i]).
Proof. intros Hobs. by exists acts, i, []. Qed.

Lemma gateInv_mono s0 acts a s : gateInv s0 acts s → gateInv s0 (acts ++ [a]) s.
Proof.
  destruct s as [c|c|err σ|σ]; simpl; [done| | |].
  - intros (? & ? & Hd & ?). split_and!; try done.
    intros f Hf. by apply delivered_mono, Hd.
  - intros H Ho f. by apply delivered_mono, H.
  - intros H Ho f. by apply delivered_mono, H.
Qed.

Lemma gateInv_onWorld s0 acts f s :
  (∀ σ, out (f σ) = out σ) → gateInv s0 acts s → gateInv s0 acts (onWorld f s).
Proof.
  intros Hout. destruct s as [c|c|err σ|σ]; simpl; rewrite ?Hout; done.
Qed.

Lemma fire_gate s0 acts σ v rr :
  requiredEvents v = 8 →
  eventsObserved v = countSeen v →
  (∀ f, seen v f = true → delivered s0 f acts) →
  ((0 < out σ)%nat → ∀ f, seen v f = true) →
  gateInv s0 acts (InLoop (fire rr {| world := σ; vars := v |})).
Proof.
  intros Hr He Hd Ho. unfold fire; simpl.
  case_decide as Hgate; [by simpl|].
  assert (∀ f, seen v f = true) by (apply countSeen_all; congruence).
  destruct rr; simpl; split_and!; done.
Qed.

Lemma handled_gate s0 acts o flag rr c :
  requiredEvents (vars c) = 8 →
  eventsObserved (vars c) = countSeen (vars c) →
  (∀ f, seen (vars c) f = true → delivered s0 f acts) →
  ((0 < out (world c))%nat → ∀ f, seen (vars c) f = true) →
  after (λ σ', out σ' = out (world c)) o →
  (∀ f σ', flag = Some f → o = Done σ' → delivered s0 f acts) →
  gateInv s0 acts (handled o flag rr c).
Proof.
  intros Hr He Hd Ho Hout Hflag.
  destruct o as [σ|err σ|]; simpl in *.
  - destruct flag as [f0|].
    + apply fire_gate.
      * by rewrite observedEvent_required.
      * by apply observedEvent_count.
      * intros f [->|Hf]%observedEvent_seen; [by eapply Hflag|by apply Hd].
      * rewrite Hout. intros Hpos f. apply observedEvent_seen. right. by apply Ho.
    + apply fire_gate; try done. by rewrite Hout.
  - rewrite Hout. intros Hpos f. by apply Hd, Ho.
  - intros Hpos f. by apply Hd, Ho.
Qed.

Lemma received_gate {A} s0 acts (r : Recv A) handler flag rr c :
  requiredEvents (vars c) = 8 →
  eventsObserved (vars c) = countSeen (vars c) →
  (∀ f, seen (vars c) f = true → delivered s0 f acts) →
  ((0 < out (world c))%nat → ∀ f, seen (vars c) f = true) →
  (∀ a σ, after (λ σ', out σ' = out σ) (handler a σ)) →
  (∀ a σ', r = Value a → handler a (world c) = Done σ' →
           delivered s0 flag acts) →
  gateInv s0 acts (received r handler flag rr c).
Proof.
  intros Hr He Hd Ho Hh Hflag. destruct r as [err|a]; simpl.
  - intros Hpos f. by apply Hd, Ho.
  - apply handled_gate; try done.
    intros f σ' [= <-] Hdone. by eapply Hflag.
Qed.

Lemma grows_out σ o : after (grows σ) o → after (λ σ', out σ' = out σ) o.
Proof. apply after_impl. by intros σ' [? _]. Qed.

Lemma keeps_out σ o : after (keeps σ) o → after (λ σ', out σ' = out σ) o.
Proof. apply after_impl. by intros σ' [? _]. Qed.

(* A value received from a primary source and handled without error is
   observed. *)
Local Ltac observed_now Hrun :=
  let a := fresh "a" in
  let σ' := fresh "σ'" in
  let Hdone := fresh "Hdone" in
  intros a σ' -> Hdone; apply delivered_last; rewrite Hrun;
  unfold observes; simpl; try rewrite Hdone; done.

Lemma step_gate s0 acts i :
  gateInv s0 acts (run s0 acts) →
  gateInv s0 (acts ++ [LoopInput i]) (step (run s0 acts) i).
Proof.
  intros Hinv.
  pose proof (gateInv_mono s0 acts (LoopInput i) _ Hinv) as Hmono.
  destruct (run s0 acts) as [c|c|err σ|σ] eqn:Hrun; try done.
  - (* waiting for the ticket *)
    destruct i as [ev rr]; simpl in *.
    destruct Hinv as (Hout & Hr & He & Hs).
    destruct ev as [|isLeader| | | | | | | | | | |]; simpl; try done.
    + rewrite Hout. lia.
    + set (v := if isLeader then _ else _).
      assert (requiredEvents v = 8 ∧ eventsObserved v = 0
              ∧ ∀ f, seen v f = false) as (Hr' & He' & Hs')
        by (subst v; by destruct isLeader).
      split_and!.
      * by rewrite observedEvent_required.
      * apply observedEvent_count. rewrite He'.
        unfold countSeen; simpl. by rewrite !Hs'.
      * intros f [->|Hf]%observedEvent_seen.
        -- apply delivered_last. by rewrite Hrun.
        -- by rewrite Hs' in Hf.
      * rewrite Hout. lia.
  - (* in the for loop *)
    destruct i as [ev rr]; simpl in Hmono |- *.
    destruct Hmono as (Hr & He & Hd & Ho).
    destruct ev as [|isLeader|r|r|r|r|r|r|r| | |ok sev|change]; simpl.
    + intros Hpos f. by apply Hd, Ho.
    + done.
    + apply received_gate; try done; [|observed_now Hrun].
      intros a σ. apply grows_out, unitChanged_grows.
    + apply received_gate; try done; [|observed_now Hrun].
      intros a σ. apply grows_out, serviceChanged_grows.
    + apply received_gate; try done. observed_now Hrun.
    + apply received_gate; try done. observed_now Hrun.
    + apply received_gate; try done. observed_now Hrun.
    + apply received_gate; try done; [|observed_now Hrun].
      intros a σ. apply keeps_out, relationsChanged_keeps.
    + apply received_gate; try done; [|observed_now Hrun].
      intros a σ. apply keeps_out, storageChanged_keeps.
    + destruct (waitMinion (vars c)); [|done]. by apply fire_gate.
    + destruct (waitLeader (vars c)); [|done]. by apply fire_gate.
    + destruct ok.
      * apply handled_gate; try done.
        apply keeps_out, storageAttachmentChanged_keeps.
      * destruct c as [σ v]. by apply fire_gate.
    + apply handled_gate; try done.
      apply keeps_out, relationUnitsChanged_keeps.
Qed.

Lemma act_gate s0 acts a :
  gateInv s0 acts (run s0 acts) →
  gateInv s0 (acts ++ [a]) (act (run s0 acts) a).
Proof.
  intros Hinv. destruct a as [i| |]; simpl.
  - by apply step_gate.
  - by apply gateInv_onWorld, gateInv_mono.
  - by apply gateInv_onWorld, gateInv_mono.
Qed.

Lemma run_gate s0 acts : gateInv s0 [] s0 → gateInv s0 acts (run s0 acts).
Proof.
  intros Hstart. induction acts as [|a acts IH] using rev_ind; [done|].
  rewrite run_app. simpl. by apply act_gate.
Qed.

Lemma init_out env σ : out (init env σ).1 = out σ.
Proof.
  unfold init. destruct (stUnit env); [|done]. by destruct (unitService env).
Qed.

Lemma NewWatcher_out env σ : NewWatcher env = inl σ → out σ = 0%nat.
Proof.
  unfold NewWatcher. pose proof (init_out env newWorld) as Hout.
  destruct (init env newWorld) as [σ' [err|]]; [done|].
  intros [= <-]. exact Hout.
Qed.

Lemma loopStart_gate env σ :
  out σ = 0%nat → gateInv (loopStart env σ) [] (loopStart env σ).
Proof.
  intros Hout. generalize (loopStart env σ) at 1. intros s0. unfold loopStart.
  repeat match goal with
         | |- gateInv _ _ (match ?e with _ => _ end) =>
             destruct e; [simpl; rewrite Hout; lia|]
         end.
  simpl. split_and!; done.
Qed.

Lemma systemRun_gate env acts :
  match start env with
  | NoWatcher _ => True
  | Started s0 => gateInv s0 acts (run s0 acts)
  end.
Proof.
  unfold start.
  destruct (NewWatcher (seInit env)) as [σ|err] eqn:HN; [|done].
  apply run_gate, loopStart_gate. by eapply NewWatcher_out.
Qed.

(** C1. In every execution of the watcher, whatever the environment
    does: if a signal has been sent on the output channel by the end of
    some actions, then each of the eight primary sources (unit,
    service, config, addresses, relations, storage, leader settings,
    leadership) has had an event received by the loop and handled
    without error among those same actions, so no signal precedes any
    of the eight initial events. While the loop runs, requiredEvents is
    eight, eventsObserved is the number of flags that are set (each
    source is counted once, however many events it delivers), a flag is
    set only for a source that has delivered, and fire() sends only
    when eventsObserved equals requiredEvents. *)
Theorem no_signal_before_all_initial_events (env : StartEnv) (acts : list Action) :
  ((0 < signals (systemRun env acts))%nat → ∀ flag, deliveredTo env flag acts)
  ∧ (∀ s v, systemRun env acts = Started s → varsOf s = Some v →
            requiredEvents v = 8
            ∧ eventsObserved v = countSeen v
            ∧ 0 ≤ eventsObserved v ≤ requiredEvents v
            ∧ ∀ flag, seen v flag = true → deliveredTo env flag acts)
  ∧ (∀ c rr, out (world (fire rr c)) ≠ out (world c) →
             eventsObserved (vars c) = requiredEvents (vars c))
  ∧ (∀ flag v, eventsObserved (observedEvent flag v) ≠ eventsObserved v →
               seen v flag = false ∧ seen (observedEvent flag v) flag = true).
Proof.
  pose proof (systemRun_gate env acts) as Hinv.
  unfold systemRun, deliveredTo in *.
  split_and!.
  - destruct (start env) as [err|s0]; simpl; [lia|].
    intros Hpos flag. exists s0. split; [done|]. revert Hpos flag.
    destruct (run s0 acts) as [c|c|err σ|σ]; simpl in *.
    + destruct Hinv as (-> & _). lia.
    + destruct Hinv as (_ & _ & Hd & Ho). intros Hpos f. by apply Hd, Ho.
    + done.
    + done.
  - intros s v Hs Hv. destruct (start env) as [err|s0]; [done|].
    injection Hs as <-.
    destruct (run s0 acts) as [c|c|err σ|σ]; simpl in *; try done;
      injection Hv as <-.
    + destruct Hinv as (_ & Hr & He & Hseen). split_and!; try lia.
      * rewrite He. unfold countSeen; simpl. by rewrite !Hseen.
      * intros f Hf. by rewrite Hseen in Hf.
    + destruct Hinv as (Hr & He & Hd & _).
      pose proof (countSeen_range (vars c)). split_and!; try done; try lia.
      intros f Hf. exists s0. split; [done|]. by apply Hd.
  - intros c rr. unfold fire. case_decide as Hg; [done|].
    intros _. destruct (decide (eventsObserved (vars c) = requiredEvents (vars c)));
      [done|by destruct Hg].
  - intros flag v. unfold observedEvent.
    destruct (seen v flag) eqn:Hf; simpl; [done|].
    intros _. split; [done|]. by rewrite decide_True.
Qed.

Lemma no_signal_before_all_initial_events_witness :
  (0 < signals (systemRun unitPresent initialEvents))%nat
  ∧ (∀ flag, deliveredTo unitPresent flag initialEvents)
  ∧ ∃ s v, systemRun unitPresent initialEvents = Started s
           ∧ varsOf s = Some v
           ∧ requiredEvents v = 8 ∧ eventsObserved v = countSeen v.
Proof.
  assert (0 < signals (systemRun unitPresent initialEvents))%nat as Hsent
    by (vm_compute; lia).
  split; [exact Hsent|]. split.
  - exact (proj1 (no_signal_before_all_initial_events unitPresent initialEvents)
             Hsent).
  - destruct (systemRun unitPresent initialEvents) as [err|s] eqn:Hrun;
      [by vm_compute in Hrun|].
    destruct (varsOf s) as [v|] eqn:Hv.
    + exists s, v. split; [reflexivity|]. split; [exact Hv|].
      destruct (proj1 (proj2 (no_signal_before_all_initial_events
                                unitPresent initialEvents)) s v Hrun Hv)
        as (Hr & He & _). by split.
    + exfalso. vm_compute in Hrun. injection Hrun as <-. by vm_compute in Hv.
Defined.

(* Scenario S1: one signal once the eighth initial event is in, none
   while one is missing. *)
Example initial_gate_scenario :
  signals (systemRun unitPresent initialEvents) = 1%nat
  ∧ signals (systemRun unitPresent (removelast initialEvents)) = 0%nat.
Proof. split; vm_compute; reflexivity. Qed.

(** ** Relations *)

Lemma relMapAt_put l m h : relMapAt (putRelMap l m h) l = m.
Proof. unfold relMapAt, putRelMap; simpl. by rewrite lookup_insert_eq. Qed.

Lemma stoMapAt_put l m h : stoMapAt (putStoMap l m h) l = m.
Proof. unfold stoMapAt, putStoMap; simpl. by rewrite lookup_insert_eq. Qed.

Lemma memMapAt_put l m h : memMapAt (putMemMap l m h) l = m.
Proof. unfold memMapAt, putMemMap; simpl. by rewrite lookup_insert_eq. Qed.

Lemma curRelations_set m σ : curRelations (setCurRelations m σ) = m.
Proof. unfold curRelations, setCurRelations; simpl. apply relMapAt_put. Qed.

Lemma curStorage_set m σ : curStorage (setCurStorage m σ) = m.
Proof. unfold curStorage, setCurStorage; simpl. apply stoMapAt_put. Qed.

(* The loop over the changed units overwrites or adds each of them. *)
Lemma assignAll_union (changed members : gmap string Z) :
  assignAll changed members = changed ∪ members.
Proof.
  unfold assignAll.
  apply (map_fold_weak_ind (λ r m, r = m ∪ members)).
  - by rewrite (left_id_L ∅ (∪)).
  - intros k v m r Hk ->. by rewrite insert_union_l.
Qed.

Lemma assignAll_fresh (changed : gmap string Z) : assignAll changed ∅ = changed.
Proof. rewrite assignAll_union. apply (right_id_L ∅ (∪)). Qed.

Lemma newMemLoc_fresh h : memMaps h !! newMemLoc h = None.
Proof. unfold newMemLoc. apply not_elem_of_dom. apply is_fresh. Qed.

Lemma newHandle_fresh σ : subs σ !! newHandle σ = None.
Proof. unfold newHandle. apply not_elem_of_dom. apply is_fresh. Qed.

(* The relation is gone and was tracked: its sub-watcher is stopped and,
   if the stop reports no error, both entries are removed. *)
Lemma relationsChangedKey_gone key a σ err ruw :
  raRelation a = inr err →
  IsCodeNotFoundOrCodeUnauthorized (Some err) = true →
  relations (watcher σ) !! NewRelationTag key = Some ruw →
  ∃ σ',
    subs σ' = delete (ruwHandle ruw) (subs σ)
    ∧ memMaps (heap σ') = memMaps (heap σ)
    ∧ match raStop a with
      | None =>
          relationsChangedKey key a σ = Done σ'
          ∧ relations (watcher σ') = delete (NewRelationTag key) (relations (watcher σ))
          ∧ curRelations σ' = delete (relationId ruw) (curRelations σ)
      | Some err' =>
          relationsChangedKey key a σ = Fail (Trace err') σ'
          ∧ relations (watcher σ') = relations (watcher σ)
          ∧ curRelations σ' = curRelations σ
      end.
Proof.
  intros Hrel Hcode Htracked. unfold relationsChangedKey.
  rewrite Hrel, Hcode, Htracked.
  destruct (raStop a) as [err'|]; eexists; split_and!.
  all: try (lazymatch goal with
            | |- _ = Done _ => reflexivity
            | |- _ = Fail _ _ => reflexivity
            end).
  all: try reflexivity.
  by rewrite curRelations_set.
Qed.

(* The relation is there and tracked: its entry gets the new Life and
   keeps its Members; nothing else moves. *)
Lemma relationsChangedKey_tracked key a σ relId relLife ruw :
  raRelation a = inl (relId, relLife) →
  relations (watcher σ) !! NewRelationTag key = Some ruw →
  ∃ σ',
    relationsChangedKey key a σ = Done σ'
    ∧ curRelations σ'
      = <[relId := {| rsLife := relLife;
                      Members := Members (default zeroRelationSnapshot
                                            (curRelations σ !! relId)) |}]>
          (curRelations σ)
    ∧ memMaps (heap σ') = memMaps (heap σ)
    ∧ subs σ' = subs σ
    ∧ relations (watcher σ') = relations (watcher σ).
Proof.
  intros Hrel Htracked. unfold relationsChangedKey. rewrite Hrel, Htracked.
  eexists; split_and!; try reflexivity. by rewrite curRelations_set.
Qed.

(* The relation is there and new: a sub-watcher is started, and what the
   select on its channel receives decides the rest. *)
Lemma relationsChangedKey_new key a σ relId relLife :
  raRelation a = inl (relId, relLife) →
  relations (watcher σ) !! NewRelationTag key = None →
  match raWatch a, raInitial a with
  | Some err, _ => relationsChangedKey key a σ = Fail (Trace err) σ
  | None, GotDying =>
      ∃ σ', relationsChangedKey key a σ = Fail ErrDying σ'
            ∧ relations (watcher σ') = relations (watcher σ)
            ∧ curRelations σ' = curRelations σ
  | None, ChannelClosed err =>
      ∃ σ', relationsChangedKey key a σ = Fail err σ'
            ∧ relations (watcher σ') = relations (watcher σ)
            ∧ curRelations σ' = curRelations σ
  | None, GotChange changed =>
      ∃ σ' members h,
        relationsChangedKey key a σ = Done σ'
        ∧ memMaps (heap σ) !! members = None
        ∧ subs σ !! h = None
        ∧ curRelations σ'
          = <[relId := {| rsLife := relLife; Members := Some members |}]>
              (curRelations σ)
        ∧ memMapAt (heap σ') members = changed
        ∧ (∀ l, l ≠ members → memMaps (heap σ') !! l = memMaps (heap σ) !! l)
        ∧ subs σ' = <[h := RelationUnitsW relId]> (subs σ)
        ∧ relations (watcher σ')
          = <[NewRelationTag key := {| relationId := relId; ruwHandle := h |}]>
              (relations (watcher σ))
  end.
Proof.
  intros Hrel Hnew. unfold relationsChangedKey. rewrite Hrel, Hnew.
  destruct (raWatch a) as [err|]; [by destruct (raInitial a)|].
  destruct (raInitial a) as [|err|changed].
  - eexists; split_and!; reflexivity.
  - eexists; split_and!; reflexivity.
  - eexists _, (newMemLoc (heap σ)), _. split_and!.
    + reflexivity.
    + apply newMemLoc_fresh.
    + apply newHandle_fresh.
    + unfold curRelations, setCurRelations, relMapAt; simpl.
      by rewrite lookup_insert_eq.
    + unfold memMapAt; simpl. rewrite !lookup_insert_eq; simpl.
      apply assignAll_fresh.
    + intros l Hl. simpl. by rewrite !lookup_insert_ne.
    + reflexivity.
    + reflexivity.
Qed.

(** C3. For every key of a relations-change payload, handled in order:
    - the lookup fails with not-found or unauthorized: a tracked
      relation has its sub-watcher stopped and, the stop reporting no
      error, its entries in the sub-watcher map and in Relations
      removed (a failing stop is returned, traced, with both entries
      still there); an untracked one changes nothing;
    - the lookup succeeds and the relation is tracked: its entry in
      Relations gets the new Life and keeps its Members, and no Members
      map, sub-watcher or sub-watcher entry changes;
    - the lookup succeeds and the relation is new: a relation-units
      watcher is started and the handler waits for its first event;
      with that event Members is a fresh map holding exactly the
      event's Changed versions, the entry is inserted in Relations and
      a new sub-watcher is registered under the key; if instead the
      watcher cannot be started, the tomb is dying or the channel is
      closed, the handler returns the error and inserts nothing. *)
Theorem relationsChanged_per_key (key : string) (a : RelationAnswer) (σ : World) :
  let tag := NewRelationTag key in
  (∀ rest,
     relationsChanged ((key, a) :: rest) σ
     = match relationsChangedKey key a σ with
       | Done σ' => relationsChanged rest σ'
       | stopped => stopped
       end)
  ∧ (∀ err,
       raRelation a = inr err →
       IsCodeNotFoundOrCodeUnauthorized (Some err) = true →
       match relations (watcher σ) !! tag with
       | None => relationsChangedKey key a σ = Done σ
       | Some ruw =>
           (raStop a = None →
            ∃ σ', relationsChangedKey key a σ = Done σ'
                  ∧ subs σ' = delete (ruwHandle ruw) (subs σ)
                  ∧ subs σ' !! ruwHandle ruw = None
                  ∧ relations (watcher σ') = delete tag (relations (watcher σ))
                  ∧ relations (watcher σ') !! tag = None
                  ∧ curRelations σ' = delete (relationId ruw) (curRelations σ)
                  ∧ curRelations σ' !! relationId ruw = None)
           ∧ (∀ err', raStop a = Some err' →
                ∃ σ', relationsChangedKey key a σ = Fail (Trace err') σ'
                      ∧ subs σ' !! ruwHandle ruw = None
                      ∧ relations (watcher σ') = relations (watcher σ)
                      ∧ curRelations σ' = curRelations σ)
       end)
  ∧ (∀ relId relLife ruw,
       raRelation a = inl (relId, relLife) →
       relations (watcher σ) !! tag = Some ruw →
       ∃ σ', relationsChangedKey key a σ = Done σ'
             ∧ curRelations σ'
               = <[relId := {| rsLife := relLife;
                               Members := Members (default zeroRelationSnapshot
                                                     (curRelations σ !! relId)) |}]>
                   (curRelations σ)
             ∧ (∀ rs, curRelations σ !! relId = Some rs →
                      curRelations σ' !! relId
                      = Some {| rsLife := relLife; Members := Members rs |})
             ∧ memMaps (heap σ') = memMaps (heap σ)
             ∧ subs σ' = subs σ
             ∧ relations (watcher σ') = relations (watcher σ))
  ∧ (∀ relId relLife,
       raRelation a = inl (relId, relLife) →
       relations (watcher σ) !! tag = None →
       match raWatch a, raInitial a with
       | Some err, _ => relationsChangedKey key a σ = Fail (Trace err) σ
       | None, GotDying =>
           ∃ σ', relationsChangedKey key a σ = Fail ErrDying σ'
                 ∧ relations (watcher σ') = relations (watcher σ)
                 ∧ curRelations σ' = curRelations σ
       | None, ChannelClosed err =>
           ∃ σ', relationsChangedKey key a σ = Fail err σ'
                 ∧ relations (watcher σ') = relations (watcher σ)
                 ∧ curRelations σ' = curRelations σ
       | None, GotChange changed =>
           ∃ σ' members h,
             relationsChangedKey key a σ = Done σ'
             ∧ memMaps (heap σ) !! members = None
             ∧ subs σ !! h = None
             ∧ curRelations σ'
               = <[relId := {| rsLife := relLife; Members := Some members |}]>
                   (curRelations σ)
             ∧ memMapAt (heap σ') members = changed
             ∧ (∀ l, l ≠ members →
                     memMaps (heap σ') !! l = memMaps (heap σ) !! l)
             ∧ subs σ' = <[h := RelationUnitsW relId]> (subs σ)
             ∧ relations (watcher σ')
               = <[tag := {| relationId := relId; ruwHandle := h |}]>
                   (relations (watcher σ))
       end).
Proof.
  intros tag. split_and!.
  - reflexivity.
  - intros err Hrel Hcode.
    destruct (relations (watcher σ) !! tag) as [ruw|] eqn:Htracked.
    + destruct (relationsChangedKey_gone key a σ err ruw Hrel Hcode Htracked)
        as (σ' & Hsubs & _ & Hres).
      split.
      * intros Hstop. rewrite Hstop in Hres. destruct Hres as (Hd & Hr & Hc).
        exists σ'. rewrite Hsubs, Hr, Hc, !lookup_delete_eq. by split_and!.
      * intros err' Hstop. rewrite Hstop in Hres. destruct Hres as (Hd & Hr & Hc).
        exists σ'. rewrite Hsubs, lookup_delete_eq. by split_and!.
    + unfold relationsChangedKey. fold tag. by rewrite Hrel, Hcode, Htracked.
  - intros relId relLife ruw Hrel Htracked.
    destruct (relationsChangedKey_tracked key a σ relId relLife ruw Hrel Htracked)
      as (σ' & Hd & Hc & Hm & Hs & Hr).
    exists σ'. split_and!; try done.
    intros rs Hrs. by rewrite Hc, Hrs, lookup_insert_eq.
  - intros relId relLife Hrel Hnew.
    apply (relationsChangedKey_new key a σ relId relLife Hrel Hnew).
Qed.

Lemma relationsChanged_per_key_witness :
  (∃ σ' members h,
     relationsChangedKey dbKey dbAppears newWorld = Done σ'
     ∧ curRelations σ' !! 0 = Some {| rsLife := Alive; Members := Some members |}
     ∧ memMapAt (heap σ') members = {["svc2/0" := 7]}
     ∧ relations (watcher σ') !! dbKey = Some {| relationId := 0; ruwHandle := h |}
     ∧ subs σ' !! h = Some (RelationUnitsW 0))
  ∧ (∃ σ', relationsChangedKey dbKey dbDying withDb = Done σ'
           ∧ curRelations σ' !! 0
             = Some {| rsLife := Dying; Members := Some 1%positive |}
           ∧ memMaps (heap σ') = memMaps (heap withDb))
  ∧ (∃ σ', relationsChangedKey dbKey dbGone withDb = Done σ'
           ∧ subs σ' !! 1%positive = None
           ∧ relations (watcher σ') !! dbKey = None
           ∧ curRelations σ' !! 0 = None).
Proof.
  split_and!.
  - destruct (proj2 (proj2 (proj2
        (relationsChanged_per_key dbKey dbAppears newWorld))) 0 Alive
        eq_refl eq_refl)
      as (σ' & members & h & Hd & _ & _ & Hc & Hm & _ & Hs & Hr).
    exists σ', members, h. rewrite Hc, Hs, Hr, !lookup_insert_eq. by split_and!.
  - destruct (proj1 (proj2 (proj2
        (relationsChanged_per_key dbKey dbDying withDb))) 0 Dying
        {| relationId := 0; ruwHandle := 1%positive |} eq_refl eq_refl)
      as (σ' & Hd & _ & Hc & Hm & _ & _).
    exists σ'. split_and!; try done.
    apply (Hc {| rsLife := Alive; Members := Some 1%positive |}).
    vm_compute; reflexivity.
  - pose proof (proj1 (proj2 (relationsChanged_per_key dbKey dbGone withDb))
        (ApiError CodeNotFound "relation not found") eq_refl eq_refl) as H.
    change (relations (watcher withDb) !! NewRelationTag dbKey)
      with (Some {| relationId := 0; ruwHandle := 1%positive |}) in H.
    destruct H as [H _]. destruct (H eq_refl)
      as (σ' & Hd & _ & Hs & _ & Hr & _ & Hc).
    exists σ'. by split_and!.
Defined.

(** ** Storage *)

Lemma trackedIn_delete_other running registered h :
  trackedIn running registered → trackedIn (delete h running) registered.
Proof.
  intros Ht h' tag Hh'. apply Ht.
  by apply lookup_delete_Some in Hh' as [_ ?].
Qed.

Lemma trackedIn_insert_relation running registered h relId :
  trackedIn running registered →
  trackedIn (<[h := RelationUnitsW relId]> running) registered.
Proof.
  intros Ht h' tag Hh'. apply Ht.
  by apply lookup_insert_Some in Hh' as [[_ ?]|[_ ?]].
Qed.

Lemma trackedIn_insert_unowned running registered h tag :
  trackedIn running registered →
  trackedIn (<[h := WatchRelationUnitsW tag]> running) registered.
Proof.
  intros Ht h' tag' Hh'. apply Ht.
  by apply lookup_insert_Some in Hh' as [[_ ?]|[_ ?]].
Qed.

Lemma trackedIn_start running registered h tag :
  trackedIn running registered →
  registered !! tag = None →
  trackedIn (<[h := StorageAttachmentW tag]> running) (<[tag := h]> registered).
Proof.
  intros Ht Hnone h' tag' Hh'.
  apply lookup_insert_Some in Hh' as [[<- [= <-]]|[Hne Hh']].
  - apply lookup_insert_eq.
  - specialize (Ht _ _ Hh').
    rewrite lookup_insert_ne; [done|]. intros <-. congruence.
Qed.

Lemma trackedIn_stop running registered h tag :
  trackedIn running registered →
  registered !! tag = Some h →
  trackedIn (delete h running) (delete tag registered)
  ∧ ∀ h', delete h running !! h' ≠ Some (StorageAttachmentW tag).
Proof.
  intros Ht Hreg. split.
  - intros h' tag' Hh'. apply lookup_delete_Some in Hh' as [Hne Hh'].
    specialize (Ht _ _ Hh').
    rewrite lookup_delete_ne; [done|]. intros <-. congruence.
  - intros h' Hh'. apply lookup_delete_Some in Hh' as [Hne Hh'].
    specialize (Ht _ _ Hh'). congruence.
Qed.

Lemma trackedIn_unregistered running registered tag :
  trackedIn running registered →
  registered !! tag = None →
  ∀ h, running !! h ≠ Some (StorageAttachmentW tag).
Proof. intros Ht Hnone h Hh. specialize (Ht _ _ Hh). congruence. Qed.

Lemma storageChanged_single key a result σ :
  stLife a = inl [result] →
  storageChanged [key] a σ
  = storageResult [NewStorageTag key] 0 result (stWatcherErr a 0) σ.
Proof.
  intros Hlife. unfold storageChanged. rewrite Hlife. simpl.
  by destruct (storageResult _ _ _ _ _).
Qed.

(* A present storage: the entry is upserted and a watcher runs for it,
   the one there was or a new one. *)
Lemma storageResult_present tag life newErr σ σ1 :
  storageResult [tag] 0 {| lrLife := life; lrError := None |} newErr σ = Done σ1 →
  curStorage σ1 = <[tag := upserted tag life σ]> (curStorage σ)
  ∧ keeps σ σ1
  ∧ relations (watcher σ1) = relations (watcher σ)
  ∧ relMaps (heap σ1) = relMaps (heap σ)
  ∧ memMaps (heap σ1) = memMaps (heap σ)
  ∧ (∀ l, l ≠ Storage (current (watcher σ)) →
          stoMaps (heap σ1) !! l = stoMaps (heap σ) !! l)
  ∧ match storageAttachementWatchers (watcher σ) !! tag with
    | Some h =>
        storageAttachementWatchers (watcher σ1) = storageAttachementWatchers (watcher σ)
        ∧ subs σ1 = subs σ
    | None =>
        ∃ h, subs σ !! h = None
             ∧ storageAttachementWatchers (watcher σ1)
               = <[tag := h]> (storageAttachementWatchers (watcher σ))
             ∧ subs σ1 = <[h := StorageAttachmentW tag]> (subs σ)
    end.
Proof.
  unfold storageResult; simpl. unfold startStorageAttachmentWatcher; simpl.
  destruct (storageAttachementWatchers (watcher σ) !! tag) as [h|] eqn:Hreg.
  - simpl. intros [= <-]. rewrite curStorage_set. split_and!; try done.
    + unfold upserted. by destruct (curStorage σ !! tag).
    + intros l Hl. simpl. by rewrite lookup_insert_ne.
  - destruct newErr as [err|]; simpl; [done|].
    intros [= <-]. split_and!; try done.
    + etrans; [apply (curStorage_set _ σ)|].
      unfold upserted. by destruct (curStorage σ !! tag).
    + intros l Hl. simpl. by rewrite lookup_insert_ne.
    + eexists. split_and!; [|reflexivity|reflexivity].
      apply (newHandle_fresh (setCurStorage _ σ)).
Qed.

Lemma curStorage_withSubs f σ : curStorage (withSubs f σ) = curStorage σ.
Proof. reflexivity. Qed.

Lemma curStorage_withStorageWatchers f σ :
  curStorage (withStorageWatchers f σ) = curStorage σ.
Proof. reflexivity. Qed.

(* A storage the store no longer finds: the entry is dropped, the
   watcher deregistered and stopped; a failing stop is returned. *)
Lemma storageResult_gone tag life err stopErr σ :
  IsCodeNotFound (Some err) = true →
  ∃ σ2,
    storageResult [tag] 0 {| lrLife := life; lrError := Some err |} stopErr σ
    = match storageAttachementWatchers (watcher σ) !! tag, stopErr with
      | Some _, Some e =>
          Fail (Annotate ("stopping watcher of " +:+ ReadableString tag
                          +:+ " attachment") e) σ2
      | _, _ => Done σ2
      end
    ∧ curStorage σ2 = delete tag (curStorage σ)
    ∧ keeps σ σ2
    ∧ relations (watcher σ2) = relations (watcher σ)
    ∧ relMaps (heap σ2) = relMaps (heap σ)
    ∧ memMaps (heap σ2) = memMaps (heap σ)
    ∧ (∀ l, l ≠ Storage (current (watcher σ)) →
            stoMaps (heap σ2) !! l = stoMaps (heap σ) !! l)
    ∧ storageAttachementWatchers (watcher σ2)
      = delete tag (storageAttachementWatchers (watcher σ))
    ∧ subs σ2 = match storageAttachementWatchers (watcher σ) !! tag with
                | Some h => delete h (subs σ)
                | None => subs σ
                end.
Proof.
  intros Hcode. unfold storageResult; simpl. rewrite Hcode.
  unfold stopStorageAttachmentWatcher; simpl.
  destruct (storageAttachementWatchers (watcher σ) !! tag) as [h|] eqn:Hreg.
  - destruct stopErr as [e|]; simpl; eexists; (split; [reflexivity|]);
      unfold stopSub;
      rewrite curStorage_withSubs, curStorage_withStorageWatchers, curStorage_set;
      split_and!; try done;
      intros l Hl; simpl; by rewrite lookup_insert_ne.
  - simpl. eexists; (split; [by destruct stopErr|]).
    rewrite curStorage_set; split_and!; try done.
    + intros l Hl; simpl; by rewrite lookup_insert_ne.
    + simpl. by rewrite delete_id.
Qed.

Lemma storageResult_present_tracked tag life newErr σ σ1 :
  storageWatchersTracked σ →
  storageResult [tag] 0 {| lrLife := life; lrError := None |} newErr σ = Done σ1 →
  storageWatchersTracked σ1
  ∧ ∃ h, storageAttachementWatchers (watcher σ1) !! tag = Some h.
Proof.
  intros Ht Hres. unfold storageWatchersTracked in *.
  destruct (storageResult_present _ _ _ _ _ Hres)
    as (_ & _ & _ & _ & _ & _ & Hw).
  destruct (storageAttachementWatchers (watcher σ) !! tag) as [h|] eqn:Hreg.
  - destruct Hw as [-> ->]. eauto.
  - destruct Hw as (h & Hfresh & -> & ->). split.
    + by apply trackedIn_start.
    + exists h. apply lookup_insert_eq.
Qed.

(** C6. A storage-changed event for a key the store reports present,
    followed by a storage-changed event for the same key whose life
    query answers not-found, leaves no entry for the tag in Storage,
    no storage-attachment watcher registered for it and none running
    for it (also when stopping the watcher reports an error, which is
    then returned). If the watcher had never seen the tag, every part
    of the state that can be observed is as it was before the two
    events. *)
Theorem storage_seen_then_gone (key : string) (present gone : StorageAnswer)
    (life life' : Life) (err : error) (σ σ1 : World) :
  storageWatchersTracked σ →
  stLife present = inl [{| lrLife := life; lrError := None |}] →
  storageChanged [key] present σ = Done σ1 →
  stLife gone = inl [{| lrLife := life'; lrError := Some err |}] →
  IsCodeNotFound (Some err) = true →
  let tag := NewStorageTag key in
  ∃ σ2,
    storageChanged [key] gone σ1
    = match stWatcherErr gone 0 with
      | None => Done σ2
      | Some e =>
          Fail (Annotate ("stopping watcher of " +:+ ReadableString tag
                          +:+ " attachment") e) σ2
      end
    ∧ curStorage σ2 !! tag = None
    ∧ storageAttachementWatchers (watcher σ2) !! tag = None
    ∧ (∀ h, subs σ2 !! h ≠ Some (StorageAttachmentW tag))
    ∧ storageWatchersTracked σ2
    ∧ (curStorage σ !! tag = None →
       storageAttachementWatchers (watcher σ) !! tag = None →
       curStorage σ2 = curStorage σ
       ∧ storageAttachementWatchers (watcher σ2)
         = storageAttachementWatchers (watcher σ)
       ∧ subs σ2 = subs σ
       ∧ relations (watcher σ2) = relations (watcher σ)
       ∧ current (watcher σ2) = current (watcher σ)
       ∧ out σ2 = out σ
       ∧ relMaps (heap σ2) = relMaps (heap σ)
       ∧ memMaps (heap σ2) = memMaps (heap σ)
       ∧ ∀ l, l ≠ Storage (current (watcher σ)) →
              stoMaps (heap σ2) !! l = stoMaps (heap σ) !! l).
Proof.
  intros Ht Hpresent Hfirst Hgone Hcode tag.
  rewrite (storageChanged_single _ _ _ _ Hpresent) in Hfirst.
  rewrite (storageChanged_single _ _ _ _ Hgone). fold tag in Hfirst |- *.
  destruct (storageResult_present_tracked _ _ _ _ _ Ht Hfirst) as (Ht1 & h1 & Hreg1).
  destruct (storageResult_present _ _ _ _ _ Hfirst)
    as (Hc1 & [Ho1 Hcur1] & Hr1 & Hrel1 & Hmem1 & Hsto1 & Hw1).
  destruct (storageResult_gone tag life' err (stWatcherErr gone 0) σ1 Hcode)
    as (σ2 & Hres & Hc2 & [Ho2 Hcur2] & Hr2 & Hrel2 & Hmem2 & Hsto2 & Hw2 & Hs2).
  rewrite Hreg1 in Hres, Hs2.
  destruct (trackedIn_stop _ _ _ _ Ht1 Hreg1) as [Ht2 Hnone].
  exists σ2. split_and!.
  - by destruct (stWatcherErr gone 0).
  - rewrite Hc2. apply lookup_delete_eq.
  - rewrite Hw2. apply lookup_delete_eq.
  - by rewrite Hs2.
  - unfold storageWatchersTracked. by rewrite Hs2, Hw2.
  - intros Hunseen Hunreg. rewrite Hunreg in Hw1.
    destruct Hw1 as (h & Hfresh & Hw1 & Hs1).
    assert (h1 = h) as -> by (rewrite Hw1, lookup_insert_eq in Hreg1; congruence).
    split_and!.
    + by rewrite Hc2, Hc1, delete_insert_eq, delete_id.
    + by rewrite Hw2, Hw1, delete_insert_eq, delete_id.
    + by rewrite Hs2, Hs1, delete_insert_eq, delete_id.
    + congruence.
    + congruence.
    + congruence.
    + congruence.
    + congruence.
    + intros l Hl. rewrite Hsto2, Hsto1; [done|done|congruence].
Qed.

Lemma newWorld_tracked : storageWatchersTracked newWorld.
Proof. intros h tag Hh. simpl in Hh. by rewrite lookup_empty in Hh. Qed.

Lemma storage_seen_then_gone_witness :
  storageWatchersTracked newWorld
  ∧ storageChanged ["data/0"] dataPresent newWorld = Done withData
  ∧ curStorage withData !! "data/0"
    = Some {| Tag := "data/0"; ssLife := Alive; Kind := 0; Location := "";
              Attached := false |}
  ∧ ∃ σ2, storageChanged ["data/0"] dataGone withData = Done σ2
          ∧ curStorage σ2 !! "data/0" = None
          ∧ storageAttachementWatchers (watcher σ2) !! "data/0" = None
          ∧ (∀ h, subs σ2 !! h ≠ Some (StorageAttachmentW "data/0"))
          ∧ subs σ2 = subs newWorld.
Proof.
  split; [exact newWorld_tracked|].
  split; [vm_compute; reflexivity|].
  split; [vm_compute; reflexivity|].
  destruct (storage_seen_then_gone "data/0" dataPresent dataGone Alive ""
              (ApiError CodeNotFound "attachment not found") newWorld withData
              newWorld_tracked eq_refl eq_refl eq_refl eq_refl)
    as (σ2 & Hres & Hc & Hw & Hs & _ & Hsame).
  exists σ2. split_and!; try done.
  destruct Hsame as (_ & _ & Hsubs & _); [by vm_compute|by vm_compute|done].
Defined.

(** The invariant is one of the watcher: it holds of every state the
    watcher reaches. *)

Lemma tracked_same σ σ' :
  subs σ' = subs σ →
  storageAttachementWatchers (watcher σ') = storageAttachementWatchers (watcher σ) →
  storageWatchersTracked σ → storageWatchersTracked σ'.
Proof. unfold storageWatchersTracked. by intros -> ->. Qed.

Lemma relationsChangedKey_storage_tracked key a σ :
  storageWatchersTracked σ →
  after storageWatchersTracked (relationsChangedKey key a σ).
Proof.
  intros Ht. unfold relationsChangedKey.
  destruct (raRelation a) as [[relId relLife]|err].
  - destruct (relations (watcher σ) !! NewRelationTag key).
    { by apply (tracked_same σ). }
    destruct (raWatch a); [done|].
    destruct (raInitial a); try by apply (tracked_same σ).
    + apply trackedIn_insert_unowned, Ht.
    + apply trackedIn_insert_relation, Ht.
  - destruct (IsCodeNotFoundOrCodeUnauthorized (Some err)); [|done].
    destruct (relations (watcher σ) !! NewRelationTag key); [|done].
    destruct (raStop a); apply trackedIn_delete_other, Ht.
Qed.

Lemma relationsChanged_storage_tracked keys : ∀ σ,
  storageWatchersTracked σ →
  after storageWatchersTracked (relationsChanged keys σ).
Proof.
  induction keys as [|[key a] rest IH]; intros σ Ht; [done|].
  simpl. pose proof (relationsChangedKey_storage_tracked key a σ Ht) as Hk.
  destruct (relationsChangedKey key a σ) as [σ'| |]; try done.
  by apply IH.
Qed.

Lemma startStorageAttachmentWatcher_tracked tag e σ :
  storageWatchersTracked σ →
  after storageWatchersTracked (startStorageAttachmentWatcher tag e σ).
Proof.
  intros Ht. unfold startStorageAttachmentWatcher.
  destruct (storageAttachementWatchers (watcher σ) !! tag) eqn:Hreg; [done|].
  destruct e; [done|]. by apply trackedIn_start.
Qed.

Lemma stopStorageAttachmentWatcher_tracked tag e σ :
  storageWatchersTracked σ →
  after storageWatchersTracked (stopStorageAttachmentWatcher tag e σ).
Proof.
  intros Ht. unfold stopStorageAttachmentWatcher.
  destruct (storageAttachementWatchers (watcher σ) !! tag) as [h|] eqn:Hreg;
    [|done].
  destruct e; by apply trackedIn_stop.
Qed.

Lemma storageResult_tracked tags i result e σ :
  storageWatchersTracked σ →
  after storageWatchersTracked (storageResult tags i result e σ).
Proof.
  intros Ht. unfold storageResult.
  destruct (tags !! i) as [tag|]; [|done].
  destruct (lrError result) as [err|].
  - destruct (IsCodeNotFound (Some err)); [|done].
    apply after_withAnnotation, stopStorageAttachmentWatcher_tracked.
    by apply (tracked_same σ).
  - apply after_withAnnotation, startStorageAttachmentWatcher_tracked.
    by apply (tracked_same σ).
Qed.

Lemma storageResults_tracked tags results we : ∀ i σ,
  storageWatchersTracked σ →
  after storageWatchersTracked (storageResults tags i results we σ).
Proof.
  induction results as [|result rest IH]; intros i σ Ht; [done|].
  simpl. pose proof (storageResult_tracked tags i result (we i) σ Ht) as Hk.
  destruct (storageResult tags i result (we i) σ) as [σ'| |]; try done.
  by apply IH.
Qed.

Lemma storageChanged_tracked keys a σ :
  storageWatchersTracked σ →
  after storageWatchersTracked (storageChanged keys a σ).
Proof.
  intros Ht. unfold storageChanged. destruct (stLife a); [|done].
  by apply storageResults_tracked.
Qed.

Lemma relationUnitsChanged_tracked change σ :
  storageWatchersTracked σ →
  after storageWatchersTracked (relationUnitsChanged change σ).
Proof.
  intros Ht. unfold relationUnitsChanged.
  destruct (curRelations σ !! rucRelationId change) as [snapshot|]; [|done].
  destruct (Members snapshot); [by apply (tracked_same σ)|].
  by case_decide.
Qed.

Lemma stopRelationWatchers_tracked σ :
  storageWatchersTracked σ → storageWatchersTracked (stopRelationWatchers σ).
Proof.
  unfold storageWatchersTracked, stopRelationWatchers; simpl.
  generalize (storageAttachementWatchers (watcher σ)) as registered.
  intros registered Ht.
  apply (map_fold_weak_ind (λ acc _, trackedIn acc registered)); [done|].
  intros tag ruw m acc _ Hacc. by apply trackedIn_delete_other.
Qed.

Lemma fire_tracked rr c :
  storageWatchersTracked (world c) → storageWatchersTracked (world (fire rr c)).
Proof. unfold fire. case_decide; [done|]. by destruct rr. Qed.

Lemma handled_tracked o flag rr c :
  storageWatchersTracked (world c) →
  after storageWatchersTracked o →
  storageWatchersTracked (worldOf (handled o flag rr c)).
Proof.
  intros Ht Ho. destruct o as [σ|err σ|]; simpl in *; [|by apply stopRelationWatchers_tracked|done].
  by apply (fire_tracked rr {| world := σ |}).
Qed.

Lemma received_tracked {A} (r : Recv A) handler flag rr c :
  storageWatchersTracked (world c) →
  (∀ a σ, storageWatchersTracked σ → after storageWatchersTracked (handler a σ)) →
  storageWatchersTracked (worldOf (received r handler flag rr c)).
Proof.
  intros Ht Hh. destruct r as [err|a]; simpl.
  - by apply stopRelationWatchers_tracked.
  - apply handled_tracked; [done|]. by apply Hh.
Qed.

Lemma step_tracked s i :
  storageWatchersTracked (worldOf s) → storageWatchersTracked (worldOf (step s i)).
Proof.
  intros Ht. destruct s as [c|c|err σ|σ]; simpl in *; try done.
  - destruct (event i); simpl; try done.
    by apply stopRelationWatchers_tracked.
  - destruct (event i) as [|isLeader|r|r|r|r|r|r|r| | |ok sev|change]; simpl;
      try done.
    + by apply stopRelationWatchers_tracked.
    + apply received_tracked; [done|]. intros a σ Hσ. unfold unitChanged.
      destruct (uaRefresh a); [done|]. by destruct (uaResolvedErr a).
    + apply received_tracked; [done|]. intros a σ Hσ. unfold serviceChanged.
      destruct (saRefresh a); [done|]. by destruct (saCharmErr a).
    + by apply received_tracked.
    + by apply received_tracked.
    + by apply received_tracked.
    + apply received_tracked; [done|].
      intros a σ. apply relationsChanged_storage_tracked.
    + apply received_tracked; [done|].
      intros a σ. apply storageChanged_tracked.
    + destruct (waitMinion (vars c)); [|done].
      by apply (fire_tracked _ {| world := withCurrent _ (world c) |}).
    + destruct (waitLeader (vars c)); [|done].
      by apply (fire_tracked _ {| world := withCurrent _ (world c) |}).
    + destruct ok; [|by apply fire_tracked].
      apply handled_tracked; [done|]. unfold storageAttachmentChanged.
      by destruct (remove sev).
    + apply handled_tracked; [done|]. by apply relationUnitsChanged_tracked.
Qed.

Lemma act_tracked s a :
  storageWatchersTracked (worldOf s) → storageWatchersTracked (worldOf (act s a)).
Proof.
  destruct a as [i| |]; simpl; [apply step_tracked| |]; by destruct s.
Qed.

Lemma run_tracked acts : ∀ s,
  storageWatchersTracked (worldOf s) → storageWatchersTracked (worldOf (run s acts)).
Proof.
  induction acts as [|a acts IH]; intros s Ht; [done|].
  by apply IH, act_tracked.
Qed.

Lemma NewWatcher_subs env σ : NewWatcher env = inl σ → subs σ = ∅.
Proof.
  unfold NewWatcher, init. intros HN.
  repeat case_match; simplify_eq; reflexivity.
Qed.

Lemma reachable_tracked env acts s :
  systemRun env acts = Started s → storageWatchersTracked (worldOf s).
Proof.
  unfold systemRun, start.
  destruct (NewWatcher (seInit env)) as [σ|err] eqn:HN; [|done].
  intros [= <-]. apply run_tracked. rewrite loopStart_world.
  apply NewWatcher_subs in HN.
  intros h tag Hh. rewrite HN in Hh. by rewrite lookup_empty in Hh.
Qed.

(** ** What Snapshot() shares with the watcher *)

Lemma copyEntries_id {K V} `{Countable K} (src : gmap K V) : copyEntries src = src.
Proof.
  unfold copyEntries.
  apply (map_fold_weak_ind (λ r m, r = m)); [done|].
  by intros k v m r _ ->.
Qed.

(* The two maps of the returned snapshot are new maps with the entries
   of the watcher's maps; no map of members is made. *)
Lemma Snapshot_copies_maps σ :
  relMaps (heap σ) !! Relations (Snapshot_ σ).1 = None
  ∧ stoMaps (heap σ) !! Storage (Snapshot_ σ).1 = None
  ∧ relMapAt (heap (Snapshot_ σ).2) (Relations (Snapshot_ σ).1) = curRelations σ
  ∧ stoMapAt (heap (Snapshot_ σ).2) (Storage (Snapshot_ σ).1) = curStorage σ
  ∧ memMaps (heap (Snapshot_ σ).2) = memMaps (heap σ)
  ∧ watcher (Snapshot_ σ).2 = watcher σ.
Proof.
  unfold Snapshot_; simpl. split_and!.
  - unfold newRelLoc. apply not_elem_of_dom. apply is_fresh.
  - unfold newStoLoc; simpl. apply not_elem_of_dom. apply is_fresh.
  - unfold relMapAt; simpl. by rewrite lookup_insert_eq, copyEntries_id.
  - unfold stoMapAt; simpl. by rewrite lookup_insert_eq, copyEntries_id.
  - reflexivity.
  - reflexivity.
Qed.

(* What the caller does to its own Relations map does not reach the
   watcher's. *)
Lemma Snapshot_relations_map_is_private σ m :
  is_Some (relMaps (heap σ) !! Relations (current (watcher σ))) →
  curRelations (withHeap (putRelMap (Relations (Snapshot_ σ).1) m) (Snapshot_ σ).2)
  = curRelations σ.
Proof.
  intros Halloc.
  destruct (Snapshot_copies_maps σ) as (Hfresh & _).
  assert (Relations (Snapshot_ σ).1 ≠ Relations (current (watcher σ))) as Hne.
  { intros Heq. rewrite Heq in Hfresh. rewrite Hfresh in Halloc.
    by destruct Halloc. }
  unfold curRelations, relMapAt. simpl in *.
  by rewrite !lookup_insert_ne.
Qed.

(* But every entry keeps the Members map it had: the caller's entry and
   the watcher's name the same map. *)
Lemma Snapshot_members_are_shared σ id :
  relMapAt (heap (Snapshot_ σ).2) (Relations (Snapshot_ σ).1) !! id
  = curRelations (Snapshot_ σ).2 !! id.
Proof.
  destruct (Snapshot_copies_maps σ) as (Hfresh & _ & -> & _).
  destruct (relMaps (heap σ) !! Relations (current (watcher σ))) eqn:Halloc.
  - unfold curRelations, relMapAt. simpl in *.
    rewrite (lookup_insert_ne (relMaps (heap σ))); [done|].
    intros Heq. rewrite Heq in Hfresh. congruence.
  - unfold curRelations, relMapAt. simpl in *.
    destruct (decide (newRelLoc (heap σ) = Relations (current (watcher σ))))
      as [Heq|Hne].
    + rewrite Heq, lookup_insert_eq, copyEntries_id; simpl.
      unfold curRelations, relMapAt. by rewrite Halloc.
    + by rewrite lookup_insert_ne.
Qed.

(** C5, at an input where it fails. A caller takes a Snapshot() of a
    watcher tracking relation 0 with member svc2/0 at version 7; its
    Relations map is a new one, yet the entry for relation 0 names the
    very Members map the watcher holds. The watcher then handles a
    relation-units delta, and the Members read through the snapshot
    taken before have changed with it; a write the caller makes to
    those Members is in turn read by the watcher. *)
Theorem Snapshot_shares_Members :
  let snap := (Snapshot_ withDb).1 in
  let σ1 := (Snapshot_ withDb).2 in
  Relations snap ≠ Relations (current (watcher σ1))
  ∧ relMapAt (heap σ1) (Relations snap) !! 0
    = Some {| rsLife := Alive; Members := Some 1%positive |}
  ∧ curRelations σ1 !! 0 = Some {| rsLife := Alive; Members := Some 1%positive |}
  ∧ readMembers (heap σ1) (Relations snap) 0 = Some {["svc2/0" := 7]}
  ∧ (∃ σ2, relationUnitsChanged dbDelta σ1 = Done σ2
           ∧ readMembers (heap σ2) (Relations snap) 0 = Some {["svc2/1" := 3]})
  ∧ readMembers
      (putMemMap 1%positive (<["svc2/9" := 1]> (memMapAt (heap σ1) 1%positive))
         (heap σ1))
      (Relations (current (watcher σ1))) 0
    = Some {["svc2/0" := 7; "svc2/9" := 1]}.
Proof.
  split_and!.
  - vm_compute. discriminate.
  - vm_compute; reflexivity.
  - vm_compute; reflexivity.
  - vm_compute; reflexivity.
  - eexists. split; [vm_compute; reflexivity|vm_compute; reflexivity].
  - vm_compute; reflexivity.
Qed.

(** ** The bound on the txn-queue *)

Section QueueBound.

Import Txn.

Context {Id : Type} `{Countable Id}.
Variable fmtV : Id → string.
Variable fmtQ : string → string.

Lemma pullTokens_others (pull : gset string) (q : list token) :
  (∀ tok, tok ∈ q → tokId tok ∉ pull) → pullTokens pull q = q.
Proof.
  unfold pullTokens. induction q as [|tok q IH]; intros Hq; [done|].
  rewrite filter_cons_True by (apply Hq; set_solver).
  f_equal. apply IH. intros tok' Hin. apply Hq. set_solver.
Qed.

(* Putting a new transaction's token on a queue and pulling that
   transaction's tokens gives the queue back. *)
Lemma pullTokens_addToSet (t : transaction) (q : list token) :
  (∀ tok, tok ∈ q → tokId tok ≠ tId t) →
  addToSet (tokenOf t) q = q ++ [tokenOf t]
  ∧ pullTokens {[tId t]} (addToSet (tokenOf t) q) = q.
Proof.
  intros Hnew.
  assert (addToSet (tokenOf t) q = q ++ [tokenOf t]) as ->.
  { unfold addToSet. case_decide as Hin; [|done].
    by destruct (Hnew _ Hin). }
  split; [done|]. unfold pullTokens. rewrite filter_app.
  fold (pullTokens {[tId t]} q). rewrite pullTokens_others.
  - rewrite filter_cons_False; [by rewrite filter_nil, app_nil_r|].
    simpl. set_solver.
  - intros tok Hin. specialize (Hnew _ Hin). set_solver.
Qed.

(** C4. With MaxTxnQueueLength L greater than zero, a new transaction
    (prepared or preparing, and so recorded in the txns collection)
    whose token is put on a document's txn-queue that already holds L
    tokens or more is aborted through abortOrReload, which takes the
    preparing state as it takes the prepared one; the caller gets the
    error naming the document id, its collection and the length the
    queue had with the token on it; afterwards the queue is what it was
    before the token was put on it, and the transaction is aborted.
    With L zero the check is off: the token stays on the queue, however
    long, and the flusher goes on. *)
Theorem txn_queue_bound (f : flusher) (db : DB) (t : transaction)
    (dkey : string * Id) (q : list token) :
  docQueues db !! dkey = Some q →
  (MaxTxnQueueLength (fopts f) = 0 →
     prepareDoc fmtV fmtQ f db t dkey
     = Proceed f {| docQueues := <[dkey := addToSet (tokenOf t) q]> (docQueues db);
                    txnStates := txnStates db |})
  ∧ (0 < MaxTxnQueueLength (fopts f) →
     MaxTxnQueueLength (fopts f) ≤ Z.of_nat (length q) →
     State t = tprepared ∨ State t = tpreparing →
     txnStates db !! tId t = Some (State t) →
     (∀ tok, tok ∈ q → tokId tok ≠ tId t) →
     ∃ f' db',
       prepareDoc fmtV fmtQ f db t dkey
       = Refused
           (OtherError
              ("txn-queue for " +:+ fmtV dkey.2 +:+ " in " +:+ fmtQ dkey.1
               +:+ " has too many transactions (" +:+ pretty (S (length q))
               +:+ ")"))
           f' db'
       ∧ docQueues db' !! dkey = Some q
       ∧ length (default [] (docQueues db' !! dkey)) = length q
       ∧ txnStates db' !! tId t = Some taborted).
Proof.
  intros Hdoc. split.
  - intros Hoff. unfold prepareDoc. rewrite Hdoc; simpl.
    rewrite bool_decide_eq_false_2; [done|]. lia.
  - intros Hon Hlong Hstate Htxn Hnew.
    destruct (pullTokens_addToSet t q Hnew) as [Hadd Hpull].
    assert (length (addToSet (tokenOf t) q) = S (length q)) as Hlen
      by (rewrite Hadd, length_app; simpl; lia).
    unfold prepareDoc. rewrite Hdoc; simpl.
    rewrite bool_decide_eq_true_2 by (rewrite Hlen; lia).
    unfold abortOrReload; simpl.
    rewrite decide_True by done. rewrite decide_True by done.
    unfold afterSetAborting; simpl. unfold tooManyTransactions. rewrite Hlen.
    eexists _, _. split; [reflexivity|]. simpl.
    assert (∀ (m : gmap (string * Id) (list token)) v,
              map_imap (λ k q0, Some (if decide (is_Some (<[dkey := v]> (fqueue f) !! k))
                                      then pullTokens {[tId t]} q0 else q0))
                (<[dkey := addToSet (tokenOf t) q]> m) !! dkey = Some q) as Hq.
    { intros m v. rewrite map_lookup_imap, !lookup_insert_eq; simpl.
      by rewrite Hpull. }
    rewrite Hq. split_and!; [done|done|].
    by rewrite lookup_insert_eq.
Qed.

End QueueBound.

Lemma txn_queue_bound_witness :
  (∃ f' db',
     Txn.prepareDoc pretty quoted (boundedAt 2) fullDB third account0
     = Txn.Refused
         (OtherError ("txn-queue for 0 in " +:+ quoted "accounts"
                      +:+ " has too many transactions (3)")) f' db'
     ∧ Txn.docQueues db' !! account0 = Some deadTokens)
  ∧ ∃ db', Txn.prepareDoc pretty quoted (boundedAt 0) fullDB third account0
           = Txn.Proceed (boundedAt 0) db'
           ∧ length <$> Txn.docQueues db' !! account0 = Some 3%nat.
Proof.
  split.
  - destruct (proj2 (txn_queue_bound pretty quoted (boundedAt 2) fullDB third
                       account0 deadTokens eq_refl))
      as (f' & db' & Hres & Hq & _); simpl.
    + lia.
    + lia.
    + by right.
    + reflexivity.
    + intros tok Hin. repeat (apply elem_of_cons in Hin as [->|Hin]); try done.
      by apply elem_of_nil in Hin.
    + exists f', db'. split; [exact Hres|exact Hq].
  - eexists. split.
    + apply (proj1 (txn_queue_bound pretty quoted (boundedAt 0) fullDB third
                      account0 deadTokens eq_refl)). reflexivity.
    + vm_compute. reflexivity.
Defined.

(** ** The scenarios of the spec, run *)

(* S2: three address changes and two config changes while the consumer
   is not reading add five to ConfigVersion and send nothing more. *)
Example config_coalescing_scenario :
  let burst := [unread (AddressesChanges (Value ()));
                unread (ConfigChanges (Value ()));
                unread (AddressesChanges (Value ()));
                unread (AddressesChanges (Value ()));
                unread (ConfigChanges (Value ()))] in
  ConfigVersion <$> snapshotAfter initialEvents = Some 2
  ∧ ConfigVersion <$> snapshotAfter (initialEvents ++ burst) = Some 7
  ∧ signals (systemRun unitPresent (initialEvents ++ burst)) = 1%nat
  ∧ signals (systemRun unitPresent
               (initialEvents ++ burst
                ++ [received_ (LeaderSettingsChanges (Value ()))])) = 2%nat.
Proof. repeat split; vm_compute; reflexivity. Qed.

(* S4: the leadership flip-flop. *)
Example leadership_scenario :
  let leader := [received_ (ClaimLeaderReady true)] in
  let minion := leader ++ [received_ WaitMinionReady] in
  let again := minion ++ [received_ WaitLeaderReady] in
  Leader <$> snapshotAfter leader = Some true
  ∧ waitsAfter leader = Some (false, true)
  ∧ Leader <$> snapshotAfter minion = Some false
  ∧ waitsAfter minion = Some (true, false)
  ∧ Leader <$> snapshotAfter again = Some true
  ∧ waitsAfter again = Some (false, true)
  ∧ waitsAfter (leader ++ [received_ WaitLeaderReady]) = Some (false, true).
Proof. repeat split; vm_compute; reflexivity. Qed.

(* S3: the relation appears with its first member, a delta replaces the
   member, and the relation goes away. *)
Example relation_scenario :
  readMembers (heap withDb) (Relations (current (watcher withDb))) 0
  = Some {["svc2/0" := 7]}
  ∧ (∃ σ, relationUnitsChanged dbDelta withDb = Done σ
          ∧ readMembers (heap σ) (Relations (current (watcher σ))) 0
            = Some {["svc2/1" := 3]}
          ∧ ∃ σ', relationsChanged [(dbKey, dbGone)] σ = Done σ'
                  ∧ curRelations σ' = ∅
                  ∧ relations (watcher σ') = ∅
                  ∧ subs σ' = ∅).
Proof.
  split; [vm_compute; reflexivity|].
  eexists. split; [vm_compute; reflexivity|].
  split; [vm_compute; reflexivity|].
  eexists. split; [vm_compute; reflexivity|].
  repeat split; vm_compute; reflexivity.
Qed.

(* S5: the unit is not found at construction. *)
Example terminal_agent_scenario :
  systemRun unitGone initialEvents = NoWatcher (Trace ErrTerminateAgent)
  ∧ signals (systemRun unitGone initialEvents) = 0%nat.
Proof. split; vm_compute; reflexivity. Qed.

(** * More of the watcher *)

(** ** The books of the sub-watchers *)


























Lemma NewWatcher_empty env σ :
  NewWatcher env = inl σ →
  subs σ = ∅ ∧ relations (watcher σ) = ∅
  ∧ storageAttachementWatchers (watcher σ) = ∅.
Proof.
  unfold NewWatcher, init. intros HN.
  repeat case_match; simplify_eq; done.
Qed.



(** ** The API watchers of relation units *)

Lemma allOwned_left err running rels :
  allOwned running → oneLeftBehind err running rels.
Proof. intros Ho h tag Hrun. by destruct (Ho h tag). Qed.



Lemma keepsOwned_withAnnotation msg o :
  after (λ σ, allOwned (subs σ)) o → keepsOwned (withAnnotation msg o).
Proof. destruct o; simpl; [done| |done]. apply allOwned_left. Qed.




















(** ** Which handler writes what *)

Lemma relationsFrame_refl σ : relationsFrame σ σ.
Proof. by split_and!. Qed.

Lemma relationsFrame_trans σ1 σ2 σ3 :
  relationsFrame σ1 σ2 → relationsFrame σ2 σ3 → relationsFrame σ1 σ3.
Proof. intros (? & ? & ?) (? & ? & ?). split_and!; congruence. Qed.

Lemma storageFrame_refl σ : storageFrame σ σ.
Proof. by split_and!. Qed.

Lemma storageFrame_trans σ1 σ2 σ3 :
  storageFrame σ1 σ2 → storageFrame σ2 σ3 → storageFrame σ1 σ3.
Proof. intros (? & ? & ? & ?) (? & ? & ? & ?). split_and!; congruence. Qed.

Lemma relationsChangedKey_frame key a σ :
  after (relationsFrame σ) (relationsChangedKey key a σ).
Proof.
  unfold relationsChangedKey.
  destruct (raRelation a) as [[relId relLife]|err].
  - destruct (relations (watcher σ) !! NewRelationTag key); [by split_and!|].
    destruct (raWatch a); [by split_and!|].
    destruct (raInitial a); by split_and!.
  - destruct (IsCodeNotFoundOrCodeUnauthorized (Some err)); [|by split_and!].
    destruct (relations (watcher σ) !! NewRelationTag key); [|by split_and!].
    destruct (raStop a); by split_and!.
Qed.

Lemma relationsChanged_frame keys : ∀ σ,
  after (relationsFrame σ) (relationsChanged keys σ).
Proof.
  induction keys as [|[key a] rest IH]; intros σ; [by split_and!|].
  simpl. pose proof (relationsChangedKey_frame key a σ) as Hk.
  destruct (relationsChangedKey key a σ) as [σ'| |]; try done.
  specialize (IH σ'). destruct (relationsChanged rest σ'); simpl in *;
    eauto using relationsFrame_trans.
Qed.

Lemma relationUnitsChanged_frame change σ :
  after (membersFrame σ) (relationUnitsChanged change σ).
Proof.
  unfold relationUnitsChanged.
  destruct (curRelations σ !! rucRelationId change) as [snapshot|];
    [|by split_and!].
  destruct (Members snapshot); [by split_and!|].
  case_decide; by try split_and!.
Qed.

Lemma storageAttachmentChanged_frame event σ :
  after (storageFrame σ) (storageAttachmentChanged event σ).
Proof. unfold storageAttachmentChanged. destruct (remove event); by split_and!. Qed.

Lemma storageResult_frame tags i result e σ :
  after (storageFrame σ) (storageResult tags i result e σ).
Proof.
  unfold storageResult.
  destruct (tags !! i) as [tag|]; [|done].
  destruct (lrError result) as [err|].
  - destruct (IsCodeNotFound (Some err)); [|by split_and!].
    unfold stopStorageAttachmentWatcher; simpl.
    destruct (storageAttachementWatchers (watcher σ) !! tag); [|by split_and!].
    destruct e; by split_and!.
  - unfold startStorageAttachmentWatcher; simpl.
    destruct (storageAttachementWatchers (watcher σ) !! tag); [by split_and!|].
    destruct e; by split_and!.
Qed.

Lemma storageResults_frame tags results we : ∀ i σ,
  after (storageFrame σ) (storageResults tags i results we σ).
Proof.
  induction results as [|result rest IH]; intros i σ; [by split_and!|].
  simpl. pose proof (storageResult_frame tags i result (we i) σ) as Hk.
  destruct (storageResult tags i result (we i) σ) as [σ'| |]; try done.
  specialize (IH (S i) σ').
  destruct (storageResults tags (S i) rest we σ'); simpl in *;
    eauto using storageFrame_trans.
Qed.

Lemma storageChanged_frame keys a σ :
  after (storageFrame σ) (storageChanged keys a σ).
Proof.
  unfold storageChanged. destruct (stLife a); [|by split_and!].
  apply storageResults_frame.
Qed.

Lemma curRelations_same σ σ' :
  current (watcher σ') = current (watcher σ) →
  relMaps (heap σ') = relMaps (heap σ) →
  curRelations σ' = curRelations σ.
Proof. unfold curRelations, relMapAt. by intros -> ->. Qed.

Lemma curStorage_same σ σ' :
  current (watcher σ') = current (watcher σ) →
  stoMaps (heap σ') = stoMaps (heap σ) →
  curStorage σ' = curStorage σ.
Proof. unfold curStorage, stoMapAt. by intros -> ->. Qed.

Lemma framed_refl W σ : framed W σ σ.
Proof. intros p _. by destruct p. Qed.

Lemma relationsFrame_framed σ σ' :
  relationsFrame σ σ' → framed [PRelations; PMembers] σ σ'.
Proof.
  intros (Hc & Hs & _) p Hp.
  destruct p; simpl; rewrite ?Hc; try done; [set_solver|set_solver|].
  by apply curStorage_same.
Qed.

Lemma membersFrame_framed σ σ' :
  membersFrame σ σ' → framed [PMembers] σ σ'.
Proof.
  intros (Hc & Hr & Hs & _) p Hp.
  destruct p; simpl; rewrite ?Hc; try done.
  - by apply curRelations_same.
  - set_solver.
  - by apply curStorage_same.
Qed.

Lemma storageFrame_framed σ σ' :
  storageFrame σ σ' → framed [PStorage] σ σ'.
Proof.
  intros (Hc & Hr & Hm & _) p Hp.
  destruct p; simpl; rewrite ?Hc; try done.
  - by apply curRelations_same.
  - set_solver.
Qed.

(* Neither fire() nor the deferred stops touch a part. *)
Lemma framed_fire W rr σ v σ0 :
  framed W σ0 σ → framed W σ0 (world (fire rr {| world := σ; vars := v |})).
Proof.
  intros Hf. unfold fire; simpl. case_decide; [done|].
  destruct rr; [|done]. intros p Hp. specialize (Hf p Hp).
  by destruct p.
Qed.

Lemma framed_stopRelationWatchers W σ0 σ :
  framed W σ0 σ → framed W σ0 (stopRelationWatchers σ).
Proof. intros Hf p Hp. specialize (Hf p Hp). by destruct p. Qed.

Lemma handled_framed W o flag rr c :
  after (framed W (world c)) o →
  framed W (world c) (worldOf (handled o flag rr c)).
Proof.
  destruct o as [σ|err σ|]; simpl; intros Hf.
  - by apply framed_fire.
  - by apply framed_stopRelationWatchers.
  - apply framed_refl.
Qed.

Lemma received_framed {A} W (r : Recv A) handler flag rr c :
  (∀ a σ, after (framed W σ) (handler a σ)) →
  framed W (world c) (worldOf (received r handler flag rr c)).
Proof.
  intros Hh. destruct r as [err|a]; simpl.
  - apply framed_stopRelationWatchers, framed_refl.
  - by apply handled_framed.
Qed.

Local Ltac frame_scalars :=
  let p := fresh "p" in
  let Hp := fresh "Hp" in
  intros p Hp; destruct p; simpl; try done; set_solver.

Lemma step_framed (s : LoopState) (i : Input) :
  framed (writes (event i)) (worldOf s) (worldOf (step s i)).
Proof.
  destruct s as [c|c|err σ|σ]; try apply framed_refl.
  - simpl. destruct (event i) as [|isLeader| | | | | | | | | | |];
      try apply framed_refl.
    + apply framed_stopRelationWatchers, framed_refl.
    + simpl. frame_scalars.
  - unfold step.
    destruct (event i) as [|isLeader|r|r|r|r|r|r|r| | |ok sev|change];
      try apply framed_refl.
    + apply framed_stopRelationWatchers, framed_refl.
    + apply received_framed. intros a σ. unfold unitChanged.
      destruct (uaRefresh a); [apply framed_refl|].
      destruct (uaResolvedErr a); [apply framed_refl|]. simpl. frame_scalars.
    + apply received_framed. intros a σ. unfold serviceChanged.
      destruct (saRefresh a); [apply framed_refl|].
      destruct (saCharmErr a); [apply framed_refl|]. simpl. frame_scalars.
    + apply received_framed. intros a σ. simpl. frame_scalars.
    + apply received_framed. intros a σ. simpl. frame_scalars.
    + apply received_framed. intros a σ. simpl. frame_scalars.
    + apply received_framed. intros a σ.
      eapply after_impl; [apply relationsFrame_framed|apply relationsChanged_frame].
    + apply received_framed. intros a σ.
      eapply after_impl; [apply storageFrame_framed|apply storageChanged_frame].
    + destruct (waitMinion (vars c)); [|apply framed_refl].
      apply (handled_framed _ _ _ _ {| world := world c |}). simpl. frame_scalars.
    + destruct (waitLeader (vars c)); [|apply framed_refl].
      apply (handled_framed _ _ _ _ {| world := world c |}). simpl. frame_scalars.
    + destruct ok.
      * apply handled_framed.
        eapply after_impl;
          [apply storageFrame_framed|apply storageAttachmentChanged_frame].
      * destruct c as [σ v]. apply framed_fire, framed_refl.
    + apply handled_framed.
      eapply after_impl;
        [apply membersFrame_framed|apply relationUnitsChanged_frame].
Qed.

(** X3. Each case of the loop's select writes only its own part of
    what Snapshot() shows: a unit event Life and ResolvedMode, a service
    event the charm URL and its force flag, config and address events
    ConfigVersion, a leader-settings event LeaderSettingsVersion, the
    leadership tickets Leader, a relations event the Relations map and
    the Members behind it, a relation-units delta Members only, storage
    and storage-attachment events the Storage map; a dying tomb writes
    nothing. Every other part is after the step what it was before,
    also when the handler fails and the loop returns. *)
Theorem step_writes_own_part (s : LoopState) (i : Input) (p : Part) :
  p ∉ writes (event i) →
  samePart p (worldOf s) (worldOf (step s i)).
Proof. apply step_framed. Qed.

Lemma step_writes_own_part_witness :
(PLeader ∉ writes (event configArrives))
  ∧ samePart PLeader (world waitingForTicket)
      (worldOf (step (InLoop waitingForTicket) configArrives)).
Proof.
  assert (PLeader ∉ writes (event configArrives)) as Hp
    by (intros [=]%list_elem_of_singleton).
  split; [exact Hp|].
  exact (step_writes_own_part (InLoop waitingForTicket) configArrives PLeader Hp).
Defined.

(** ** The leadership bridge *)

Lemma observedEvent_waits flag v :
  waitLeader (observedEvent flag v) = waitLeader v
  ∧ waitMinion (observedEvent flag v) = waitMinion v.
Proof. unfold observedEvent. by destruct (seen v flag). Qed.

Lemma fire_bridge rr c : bridgeSet (InLoop c) → bridgeSet (InLoop (fire rr c)).
Proof. unfold fire. case_decide; [done|]. by destruct rr. Qed.

Lemma handled_bridge o flag rr c :
  bridgeSet (InLoop c) →
  after (framed [] (world c)) o ∨ after (keeps (world c)) o
  ∨ after (λ σ', Leader (current (watcher σ'))
                 = Leader (current (watcher (world c)))) o →
  bridgeSet (handled o flag rr c).
Proof.
  intros [Hm Hl] Ho. destruct o as [σ|err σ|]; simpl; try done.
  assert (Leader (current (watcher σ)) = Leader (current (watcher (world c))))
    as Hsame.
  { destruct Ho as [Ho|[Ho|Ho]]; simpl in Ho.
    - apply (Ho PLeader). by intros ?%elem_of_nil.
    - destruct Ho as [_ ->]. done.
    - done. }
  apply fire_bridge. simpl. rewrite Hsame.
  destruct flag as [f|]; [|done].
  destruct (observedEvent_waits f (vars c)) as [-> ->]. done.
Qed.

Lemma received_bridge {A} (r : Recv A) handler flag rr c :
  bridgeSet (InLoop c) →
  (∀ a σ, after (λ σ', Leader (current (watcher σ'))
                       = Leader (current (watcher σ))) (handler a σ)) →
  bridgeSet (received r handler flag rr c).
Proof.
  intros Hb Hh. destruct r as [err|a]; [done|].
  apply handled_bridge; [done|]. right; right. apply Hh.
Qed.

Lemma keeps_leader σ o :
  after (keeps σ) o →
  after (λ σ', Leader (current (watcher σ')) = Leader (current (watcher σ))) o.
Proof. apply after_impl. by intros σ' [_ ->]. Qed.

Lemma step_bridge s i : bridgeSet s → bridgeSet (step s i).
Proof.
  intros Hb. destruct s as [c|c|err σ|σ]; try done.
  - simpl. destruct (event i) as [|isLeader| | | | | | | | | | |]; try done.
    simpl. split.
    + rewrite (proj2 (observedEvent_waits _ _)). by destruct isLeader.
    + rewrite (proj1 (observedEvent_waits _ _)). by destruct isLeader.
  - unfold step.
    destruct (event i) as [|isLeader|r|r|r|r|r|r|r| | |ok sev|change];
      try done.
    + apply received_bridge; [done|]. intros a σ. unfold unitChanged.
      destruct (uaRefresh a); [done|]. by destruct (uaResolvedErr a).
    + apply received_bridge; [done|]. intros a σ. unfold serviceChanged.
      destruct (saRefresh a); [done|]. by destruct (saCharmErr a).
    + by apply received_bridge.
    + by apply received_bridge.
    + by apply received_bridge.
    + apply received_bridge; [done|]. intros a σ.
      apply keeps_leader, relationsChanged_keeps.
    + apply received_bridge; [done|]. intros a σ.
      apply keeps_leader, storageChanged_keeps.
    + destruct (waitMinion (vars c)); [|done]. simpl. by apply fire_bridge.
    + destruct (waitLeader (vars c)); [|done]. simpl. by apply fire_bridge.
    + destruct ok; [|by apply fire_bridge].
      apply handled_bridge; [done|]. right; left.
      apply storageAttachmentChanged_keeps.
    + apply handled_bridge; [done|]. right; left.
      apply relationUnitsChanged_keeps.
Qed.

Lemma act_bridge s a : bridgeSet s → bridgeSet (act s a).
Proof.
  destruct a as [i| |]; simpl; [apply step_bridge| |]; by destruct s.
Qed.

Lemma run_bridge acts : ∀ s, bridgeSet s → bridgeSet (run s acts).
Proof.
  induction acts as [|a acts IH]; intros s Hb; [done|].
  by apply IH, act_bridge.
Qed.

Lemma start_bridge env s0 : start env = Started s0 → bridgeSet s0.
Proof.
  unfold start. destruct (NewWatcher (seInit env)) as [σ|err]; [|done].
  intros [= <-]. unfold loopStart. by repeat case_match.
Qed.

(** X4. In the for loop the leadership bridge is always set for the
    role the unit has: the loop waits on the minion ticket exactly when
    Leader is true and on the leader ticket exactly when it is false,
    so one of the two tickets is armed and never both, whatever events
    and caller operations came before. *)
Theorem leadership_bridge_follows_Leader
    (env : StartEnv) (acts : list Action) (c : Config) :
  systemRun env acts = Started (InLoop c) →
  waitMinion (vars c) = Leader (Snapshot_ (world c)).1
  ∧ waitLeader (vars c) = negb (Leader (Snapshot_ (world c)).1)
  ∧ waitLeader (vars c) ≠ waitMinion (vars c).
Proof.
  intros Hrun. unfold systemRun in Hrun.
  destruct (start env) as [err|s0] eqn:Hstart; [done|].
  injection Hrun as Hrun.
  pose proof (run_bridge acts s0 (start_bridge _ _ Hstart)) as Hb.
  rewrite Hrun in Hb. destruct Hb as [Hm Hl]. simpl.
  split_and!; [done|done|]. rewrite Hm, Hl.
  by destruct (Leader (current (watcher (world c)))).
Qed.

Lemma leadership_bridge_follows_Leader_witness :
  ∃ c, systemRun unitPresent busyEvents = Started (InLoop c)
       ∧ waitMinion (vars c) = false ∧ waitLeader (vars c) = true.
Proof.
  destruct (systemRun unitPresent busyEvents) as [err|[c|c|err σ|σ]] eqn:Hrun;
    try (vm_compute in Hrun; discriminate).
  exists c. split; [reflexivity|].
  destruct (leadership_bridge_follows_Leader unitPresent busyEvents c Hrun)
    as (Hm & Hl & _).
  assert (Leader (Snapshot_ (world c)).1 = false) as Hminion
    by (vm_compute in Hrun; injection Hrun as <-; reflexivity).
  by rewrite Hm, Hl, Hminion.
Defined.

(** ** The two counters count *)

Lemma framed_configVersion W σ σ' :
  PConfigVersion ∉ W → framed W σ σ' →
  readConfigVersion σ' = readConfigVersion σ.
Proof. intros Hp Hf. exact (Hf PConfigVersion Hp). Qed.

Lemma framed_leaderSettingsVersion W σ σ' :
  PLeaderSettingsVersion ∉ W → framed W σ σ' →
  readLeaderSettingsVersion σ' = readLeaderSettingsVersion σ.
Proof. intros Hp Hf. exact (Hf PLeaderSettingsVersion Hp). Qed.

Local Ltac not_written :=
  simpl; rewrite ?elem_of_cons, ?elem_of_nil; intuition discriminate.

Lemma step_configVersion_counts s i :
  readConfigVersion (worldOf (step s i))
  = match s with
    | InLoop _ =>
        if isConfigOrAddress (event i) then intIncr (readConfigVersion (worldOf s))
        else readConfigVersion (worldOf s)
    | _ => readConfigVersion (worldOf s)
    end.
Proof.
  pose proof (step_framed s i) as Hf.
  destruct s as [c|c|err σ|σ]; try reflexivity.
  - destruct (event i) eqn:He; try (simpl; rewrite He; reflexivity);
      (eapply framed_configVersion; [|exact Hf]); not_written.
  - destruct (event i) as [|isLeader|r|r|[e|[]]|[e|[]]|r|r|r| | |ok sev|change]
      eqn:He; simpl isConfigOrAddress; cbv iota.
    all: try ((eapply framed_configVersion; [|exact Hf]); not_written).
    all: unfold step; rewrite He; simpl;
      rewrite ?fire_readConfigVersion, ?readConfigVersion_current; reflexivity.
Qed.

Lemma fire_readLeaderSettingsVersion rr c :
  readLeaderSettingsVersion (world (fire rr c))
  = readLeaderSettingsVersion (world c).
Proof. unfold fire. case_decide; [done|]. by destruct rr. Qed.

Lemma step_leaderSettingsVersion_counts s i :
  readLeaderSettingsVersion (worldOf (step s i))
  = match s with
    | InLoop _ =>
        if isLeaderSettings (event i)
        then intIncr (readLeaderSettingsVersion (worldOf s))
        else readLeaderSettingsVersion (worldOf s)
    | _ => readLeaderSettingsVersion (worldOf s)
    end.
Proof.
  pose proof (step_framed s i) as Hf.
  destruct s as [c|c|err σ|σ]; try reflexivity.
  - destruct (event i) eqn:He; try (simpl; rewrite He; reflexivity);
      (eapply framed_leaderSettingsVersion; [|exact Hf]); not_written.
  - destruct (event i) as [|isLeader|r|r|r|r|[e|[]]|r|r| | |ok sev|change]
      eqn:He; simpl isLeaderSettings; cbv iota.
    all: try ((eapply framed_leaderSettingsVersion; [|exact Hf]); not_written).
    all: unfold step; rewrite He; simpl;
      rewrite ?fire_readLeaderSettingsVersion; reflexivity.
Qed.

(* A tally kept with ++: the count, wrapped as an int wraps. *)
Lemma tally_step (counted : bool) (before after tail : Z) :
  after = (if counted then intIncr before else before) →
  intWrap (after + tail)
  = intWrap (before + ((if counted then 1 else 0) + tail)).
Proof.
  intros ->. destruct counted; [|done].
  unfold intIncr. rewrite intWrap_add. f_equal. lia.
Qed.

Lemma run_configVersion_counts acts : ∀ s,
  intWrap (readConfigVersion (worldOf (run s acts)))
  = intWrap (readConfigVersion (worldOf s)
             + valuesReceived isConfigOrAddress s acts).
Proof.
  induction acts as [|a acts IH]; intros s; [simpl; by rewrite Z.add_0_r|].
  change (run s (a :: acts)) with (run (act s a) acts). rewrite IH.
  change (valuesReceived isConfigOrAddress s (a :: acts))
    with (match a, s with
          | LoopInput i, InLoop _ =>
              if isConfigOrAddress (event i) then 1 else 0
          | _, _ => 0
          end + valuesReceived isConfigOrAddress (act s a) acts).
  destruct a as [i| |].
  - simpl act. rewrite step_configVersion_counts.
    destruct s as [c|c|err σ|σ]; try done.
    by apply tally_step.
  - by destruct s.
  - by destruct s.
Qed.

Lemma run_leaderSettingsVersion_counts acts : ∀ s,
  intWrap (readLeaderSettingsVersion (worldOf (run s acts)))
  = intWrap (readLeaderSettingsVersion (worldOf s)
             + valuesReceived isLeaderSettings s acts).
Proof.
  induction acts as [|a acts IH]; intros s; [simpl; by rewrite Z.add_0_r|].
  change (run s (a :: acts)) with (run (act s a) acts). rewrite IH.
  change (valuesReceived isLeaderSettings s (a :: acts))
    with (match a, s with
          | LoopInput i, InLoop _ =>
              if isLeaderSettings (event i) then 1 else 0
          | _, _ => 0
          end + valuesReceived isLeaderSettings (act s a) acts).
  destruct a as [i| |].
  - simpl act. rewrite step_leaderSettingsVersion_counts.
    destruct s as [c|c|err σ|σ]; try done.
    by apply tally_step.
  - by destruct s.
  - by destruct s.
Qed.

Lemma valuesReceived_range counted acts : ∀ s,
  0 ≤ valuesReceived counted s acts ≤ Z.of_nat (length acts).
Proof.
  induction acts as [|a acts IH]; intros s; [simpl; lia|].
  change (valuesReceived counted s (a :: acts))
    with (match a, s with
          | LoopInput i, InLoop _ => if counted (event i) then 1 else 0
          | _, _ => 0
          end + valuesReceived counted (act s a) acts).
  rewrite length_cons, Nat2Z.inj_succ.
  specialize (IH (act s a)). repeat case_match; lia.
Qed.

Lemma valuesReceived_app counted before : ∀ s later,
  valuesReceived counted s (before ++ later)
  = valuesReceived counted s before
    + valuesReceived counted (run s before) later.
Proof.
  induction before as [|a before IH]; intros s later; [simpl; lia|].
  change (run s (a :: before)) with (run (act s a) before).
  simpl. rewrite IH. lia.
Qed.

Lemma run_readLeaderSettingsVersion_int acts : ∀ s,
  minInt ≤ readLeaderSettingsVersion (worldOf s) ≤ maxInt →
  minInt ≤ readLeaderSettingsVersion (worldOf (run s acts)) ≤ maxInt.
Proof.
  induction acts as [|a acts IH]; intros s Hs; [done|].
  change (run s (a :: acts)) with (run (act s a) acts).
  apply IH. destruct a as [i| |].
  - simpl act. rewrite step_leaderSettingsVersion_counts.
    destruct s; try done. destruct (isLeaderSettings (event i)); [|done].
    apply intWrap_range.
  - by destruct s.
  - by destruct s.
Qed.

Lemma NewWatcher_counters env σ :
  NewWatcher env = inl σ →
  readConfigVersion σ = 0 ∧ readLeaderSettingsVersion σ = 0.
Proof.
  unfold NewWatcher, init. intros HN.
  repeat case_match; simplify_eq; done.
Qed.

Lemma start_counters env s0 :
  start env = Started s0 →
  readConfigVersion (worldOf s0) = 0
  ∧ readLeaderSettingsVersion (worldOf s0) = 0.
Proof.
  unfold start.
  destruct (NewWatcher (seInit env)) as [σ|err] eqn:HN; [|done].
  intros [= <-]. rewrite loopStart_world. by eapply NewWatcher_counters.
Qed.

(** X5. ConfigVersion is a tally kept in a Go int. What Snapshot()
    shows after any run is what it showed before plus the number of
    config values and address values the for loop received in between,
    wrapped around as ++ wraps; a closed channel, an event taken before
    the for loop and a caller operation do not move it. For a watcher
    built by NewWatcher it is that number wrapped, and the number
    itself in every run of fewer than 2^63 steps. *)
Theorem ConfigVersion_counts_config_and_address_values :
  (∀ s acts,
     intWrap (readConfigVersion (worldOf (run s acts)))
     = intWrap (readConfigVersion (worldOf s)
                + valuesReceived isConfigOrAddress s acts))
  ∧ (∀ env acts,
       configVersionAfter env acts
       = intWrap (valuesReceivedBy isConfigOrAddress env acts))
  ∧ (∀ env acts,
       Z.of_nat (length acts) ≤ maxInt →
       configVersionAfter env acts
       = valuesReceivedBy isConfigOrAddress env acts).
Proof.
  assert (∀ env acts,
            configVersionAfter env acts
            = intWrap (valuesReceivedBy isConfigOrAddress env acts)) as Hwrapped.
  { intros env acts. unfold configVersionAfter, valuesReceivedBy, systemRun.
    destruct (start env) as [err|s0] eqn:Hstart; [done|].
    destruct (start_counters _ _ Hstart) as [H0 _].
    rewrite <- (intWrap_id (readConfigVersion (worldOf (run s0 acts)))).
    - by rewrite run_configVersion_counts, H0.
    - apply run_readConfigVersion_int. rewrite H0. unfold minInt, maxInt. lia. }
  split_and!; [intros; apply run_configVersion_counts|done|].
  intros env acts Hlen. rewrite Hwrapped. apply intWrap_id.
  unfold valuesReceivedBy. destruct (start env) as [err|s0].
  - unfold minInt, maxInt. lia.
  - pose proof (valuesReceived_range isConfigOrAddress acts s0).
    unfold minInt. lia.
Qed.

(** X6. LeaderSettingsVersion is a tally kept in a Go int of the
    leader-settings values the for loop received: it starts at zero,
    each such value increments it as ++ does, and no other event,
    closed channel or caller operation changes it. In every run of
    fewer than 2^63 steps of a watcher built by NewWatcher it is
    exactly that number, and so never decreases. *)
Theorem LeaderSettingsVersion_counts_leader_settings_values :
  (∀ s acts,
     intWrap (readLeaderSettingsVersion (worldOf (run s acts)))
     = intWrap (readLeaderSettingsVersion (worldOf s)
                + valuesReceived isLeaderSettings s acts))
  ∧ (∀ env acts,
       leaderSettingsVersionAfter env acts
       = intWrap (valuesReceivedBy isLeaderSettings env acts))
  ∧ (∀ env acts,
       Z.of_nat (length acts) ≤ maxInt →
       leaderSettingsVersionAfter env acts
       = valuesReceivedBy isLeaderSettings env acts)
  ∧ (∀ env before later,
       Z.of_nat (length (before ++ later)) ≤ maxInt →
       leaderSettingsVersionAfter env before
       ≤ leaderSettingsVersionAfter env (before ++ later)).
Proof.
  assert (∀ env acts,
            leaderSettingsVersionAfter env acts
            = intWrap (valuesReceivedBy isLeaderSettings env acts)) as Hwrapped.
  { intros env acts.
    unfold leaderSettingsVersionAfter, valuesReceivedBy, systemRun.
    destruct (start env) as [err|s0] eqn:Hstart; [done|].
    destruct (start_counters _ _ Hstart) as [_ H0].
    rewrite <- (intWrap_id (readLeaderSettingsVersion (worldOf (run s0 acts)))).
    - by rewrite run_leaderSettingsVersion_counts, H0.
    - apply run_readLeaderSettingsVersion_int. rewrite H0.
      unfold minInt, maxInt. lia. }
  assert (∀ env acts,
            Z.of_nat (length acts) ≤ maxInt →
            leaderSettingsVersionAfter env acts
            = valuesReceivedBy isLeaderSettings env acts) as Hexact.
  { intros env acts Hlen. rewrite Hwrapped. apply intWrap_id.
    unfold valuesReceivedBy. destruct (start env) as [err|s0].
    - unfold minInt, maxInt. lia.
    - pose proof (valuesReceived_range isLeaderSettings acts s0).
      unfold minInt. lia. }
  split_and!; [intros; apply run_leaderSettingsVersion_counts|done|done|].
  intros env before later Hlen.
  rewrite !Hexact; [|done|rewrite length_app, Nat2Z.inj_add in Hlen; lia].
  unfold valuesReceivedBy. destruct (start env) as [err|s0]; [lia|].
  rewrite valuesReceived_app.
  pose proof (valuesReceived_range isLeaderSettings later (run s0 before)). lia.
Qed.

(** ** Relation-units deltas and repeated relation keys *)

Lemma deleteAll_lookup (departed : list string) : ∀ (members : gmap string Z) unit,
  deleteAll departed members !! unit
  = if decide (unit ∈ departed) then None else members !! unit.
Proof.
  unfold deleteAll.
  induction departed as [|d rest IH]; intros members unit.
  - case_decide as Hin; [by apply elem_of_nil in Hin|done].
  - change (foldl (λ acc unit0, delete unit0 acc) members (d :: rest))
      with (foldl (λ acc unit0, delete unit0 acc) (delete d members) rest).
    rewrite IH. destruct (decide (unit ∈ rest)) as [Hin|Hnin].
    + rewrite decide_True; [done|]. by right.
    + destruct (decide (unit = d)) as [->|Hne].
      * rewrite decide_True by left. apply lookup_delete_eq.
      * rewrite decide_False by (by intros [?|?]%elem_of_cons).
        by apply lookup_delete_ne.
Qed.

Lemma assignAll_lookup (changed members : gmap string Z) unit :
  assignAll changed members !! unit
  = match changed !! unit with
    | Some version => Some version
    | None => members !! unit
    end.
Proof.
  rewrite assignAll_union, lookup_union.
  destruct (changed !! unit), (members !! unit); done.
Qed.

(** X7. A relation-units delta for a tracked relation is merged into
    that relation's Members and nothing else: afterwards a departed
    unit is absent (also when the same delta lists it as changed), a
    changed unit has the delta's version, every other unit has the
    version it had; the Relations map, with the relation's Life, and
    every other Members map are as before. On an entry whose Members
    map is nil a delta with changes panics, and one with departures
    only does nothing. *)
Theorem relationUnitsChanged_merges_delta
    (change : relationUnitsChange) (σ : World) (rs : RelationSnapshot) :
  curRelations σ !! rucRelationId change = Some rs →
  match Members rs with
  | Some members =>
      ∃ σ', relationUnitsChanged change σ = Done σ'
            ∧ (∀ unit,
                 memMapAt (heap σ') members !! unit
                 = if decide (unit ∈ Departed change) then None
                   else match Changed change !! unit with
                        | Some version => Some version
                        | None => memMapAt (heap σ) members !! unit
                        end)
            ∧ (∀ l, l ≠ members → memMaps (heap σ') !! l = memMaps (heap σ) !! l)
            ∧ curRelations σ' = curRelations σ
            ∧ curStorage σ' = curStorage σ
            ∧ current (watcher σ') = current (watcher σ)
            ∧ subs σ' = subs σ
            ∧ relations (watcher σ') = relations (watcher σ)
  | None =>
      relationUnitsChanged change σ
      = if decide (Changed change = ∅) then Done σ else Panic
  end.
Proof.
  intros Hrs. unfold relationUnitsChanged. rewrite Hrs.
  destruct (Members rs) as [members|]; [|done].
  eexists. split; [reflexivity|]. split_and!; try done.
  - intros unit. simpl. rewrite memMapAt_put, deleteAll_lookup.
    case_decide; [done|]. apply assignAll_lookup.
  - intros l Hl. simpl. by rewrite lookup_insert_ne.
Qed.

Lemma relationUnitsChanged_merges_delta_witness :
  curRelations withDb !! rucRelationId dbDelta
  = Some {| rsLife := Alive; Members := Some 1%positive |}
  ∧ ∃ σ', relationUnitsChanged dbDelta withDb = Done σ'
          ∧ memMapAt (heap σ') 1%positive !! "svc2/0" = None
          ∧ memMapAt (heap σ') 1%positive !! "svc2/1" = Some 3.
Proof.
  assert (curRelations withDb !! rucRelationId dbDelta
          = Some {| rsLife := Alive; Members := Some 1%positive |}) as Hrs
    by (vm_compute; reflexivity).
  split; [exact Hrs|].
  destruct (relationUnitsChanged_merges_delta dbDelta withDb _ Hrs)
    as (σ' & Hdone & Hunits & _).
  exists σ'. split; [exact Hdone|].
  rewrite !Hunits. split; reflexivity.
Defined.

Lemma setCurRelations_twice m σ :
  setCurRelations m (setCurRelations m σ) = setCurRelations m σ.
Proof.
  unfold setCurRelations, withHeap, putRelMap; simpl.
  by rewrite insert_insert_eq.
Qed.

(** X8. Handling a relation key a second time, with the same answers
    from the store, changes nothing: if the first handling returned nil
    then the second returns nil with the state exactly as the first
    left it. In particular a relation that is present gets no second
    sub-watcher and no new Members map, and a relation that is gone is
    not stopped twice. *)
Theorem relationsChangedKey_twice
    (key : string) (a : RelationAnswer) (σ σ1 : World) :
  relationsChangedKey key a σ = Done σ1 →
  relationsChangedKey key a σ1 = Done σ1.
Proof.
  unfold relationsChangedKey at 1.
  destruct (raRelation a) as [[relId relLife]|err] eqn:Hrel.
  - destruct (relations (watcher σ) !! NewRelationTag key) as [ruw|] eqn:Hreg.
    + intros [= <-]. unfold relationsChangedKey. rewrite Hrel; simpl.
      rewrite Hreg, curRelations_set, lookup_insert_eq; simpl.
      by rewrite insert_insert_eq, setCurRelations_twice.
    + destruct (raWatch a); [done|].
      destruct (raInitial a) as [| |changed]; try done.
      intros [= <-]. unfold relationsChangedKey. rewrite Hrel; simpl.
      rewrite lookup_insert_eq.
      match goal with
      | |- Done (setCurRelations ?m ?s) = Done ?s =>
          assert (m = curRelations s) as ->
      end.
      { unfold curRelations, relMapAt; simpl. rewrite lookup_insert_eq; simpl.
        by rewrite lookup_insert_eq, insert_insert_eq. }
      f_equal. unfold setCurRelations, curRelations, relMapAt, withHeap,
        putRelMap, withRelationWatchers, withSubs; simpl.
      by rewrite lookup_insert_eq, insert_insert_eq.
  - destruct (IsCodeNotFoundOrCodeUnauthorized (Some err)) eqn:Hcode; [|done].
    destruct (relations (watcher σ) !! NewRelationTag key) as [ruw|] eqn:Hreg.
    + destruct (raStop a); [done|].
      intros [= <-]. unfold relationsChangedKey. rewrite Hrel, Hcode; simpl.
      by rewrite lookup_delete_eq.
    + intros [= <-]. unfold relationsChangedKey. by rewrite Hrel, Hcode, Hreg.
Qed.

Lemma relationsChangedKey_twice_witness :
  relationsChangedKey dbKey dbAppears newWorld = Done withDb
  ∧ relationsChangedKey dbKey dbAppears withDb = Done withDb.
Proof.
  assert (relationsChangedKey dbKey dbAppears newWorld = Done withDb) as Hfirst
    by (vm_compute; reflexivity).
  split; [exact Hfirst|].
  exact (relationsChangedKey_twice dbKey dbAppears newWorld withDb Hfirst).
Defined.

(** ** Storage: results against keys *)

Lemma storageResults_app tags pre post we : ∀ i σ,
  storageResults tags i (pre ++ post) we σ
  = match storageResults tags i pre we σ with
    | Done σ' => storageResults tags (i + length pre) post we σ'
    | stopped => stopped
    end.
Proof.
  induction pre as [|r pre IH]; intros i σ; simpl.
  - by rewrite Nat.add_0_r.
  - destruct (storageResult tags i r (we i) σ) as [σ'| |]; try done.
    rewrite IH. by rewrite Nat.add_succ_r.
Qed.

Lemma storageResult_in_range tags i tag result e σ :
  tags !! i = Some tag → storageResult tags i result e σ ≠ Panic.
Proof.
  intros Htag. unfold storageResult. rewrite Htag.
  destruct (lrError result) as [err|].
  - destruct (IsCodeNotFound (Some err)); [|done].
    unfold stopStorageAttachmentWatcher.
    destruct (storageAttachementWatchers _ !! tag); [|done].
    by destruct e.
  - unfold startStorageAttachmentWatcher.
    destruct (storageAttachementWatchers _ !! tag); [done|].
    by destruct e.
Qed.

Lemma storageResult_more_tags tags more i tag result e σ :
  tags !! i = Some tag →
  storageResult (tags ++ more) i result e σ = storageResult tags i result e σ.
Proof.
  intros Htag. unfold storageResult.
  by rewrite (lookup_app_l_Some _ _ _ _ Htag), Htag.
Qed.

Lemma storageResults_in_range tags results we : ∀ i σ,
  (i + length results ≤ length tags)%nat →
  storageResults tags i results we σ ≠ Panic
  ∧ ∀ more, storageResults (tags ++ more) i results we σ
            = storageResults tags i results we σ.
Proof.
  induction results as [|r rest IH]; intros i σ Hlen; [done|].
  simpl in Hlen.
  destruct (lookup_lt_is_Some_2 tags i) as [tag Htag]; [lia|].
  simpl. split.
  - pose proof (storageResult_in_range tags i tag r (we i) σ Htag) as Hnp.
    destruct (storageResult tags i r (we i) σ) as [σ'| |]; try done.
    apply IH. lia.
  - intros more. rewrite (storageResult_more_tags _ _ _ tag) by done.
    destruct (storageResult tags i r (we i) σ) as [σ'| |]; try done.
    apply IH. lia.
Qed.

Lemma storageResults_overrun tags results we : ∀ i σ σ',
  (i ≤ length tags < i + length results)%nat →
  storageResults tags i results we σ ≠ Done σ'.
Proof.
  induction results as [|r rest IH]; intros i σ σ' Hlen; simpl in *; [lia|].
  destruct (decide (i = length tags)) as [->|Hne].
  - unfold storageResult. by rewrite (lookup_ge_None_2 tags (length tags)).
  - destruct (storageResult tags i r (we i) σ) as [σ1| |]; try done.
    apply IH. lia.
Qed.

(** X9. storageChanged indexes the keys of the event by the position of
    each result the store returns. With no more results than keys it
    never panics, and the keys beyond the results are not looked at;
    with more results than keys it cannot return nil: it returns the
    error of an earlier result or panics on the index. *)
Theorem storageChanged_results_against_keys
    (keys : list string) (a : StorageAnswer) (results : list LifeResult)
    (σ : World) :
  stLife a = inl results →
  ((length results ≤ length keys)%nat →
     storageChanged keys a σ ≠ Panic
     ∧ ∀ more, storageChanged (keys ++ more) a σ = storageChanged keys a σ)
  ∧ ((length keys < length results)%nat →
       ∀ σ', storageChanged keys a σ ≠ Done σ').
Proof.
  intros Hresults. unfold storageChanged. rewrite Hresults. split.
  - intros Hlen.
    destruct (storageResults_in_range (NewStorageTag <$> keys) results
                (stWatcherErr a) 0 σ) as [Hnp Hmore].
    { rewrite length_fmap. lia. }
    split; [done|]. intros more. rewrite fmap_app. apply Hmore.
  - intros Hlen σ'. apply storageResults_overrun.
    rewrite length_fmap. lia.
Qed.

Lemma storageChanged_results_against_keys_witness :
  stLife threeResults
  = inl [ {| lrLife := Alive; lrError := None |};
          {| lrLife := Alive; lrError := None |};
          {| lrLife := Alive; lrError := None |} ]
  ∧ storageChanged twoKeys threeResults newWorld = Panic
  ∧ ∀ σ', storageChanged twoKeys threeResults newWorld ≠ Done σ'.
Proof.
  split; [reflexivity|]. split; [vm_compute; reflexivity|].
  apply (storageChanged_results_against_keys twoKeys threeResults _ newWorld
           eq_refl).
  simpl. lia.
Defined.

(** X10. When a result of the life query carries an error that is not a
    not-found, storageChanged returns that error, annotated with the
    storage it was for: the results before it stay applied, the results
    after it are not looked at, and the loop returns with that error,
    having stopped its relation-units watchers and sent no signal. *)
Theorem storageChanged_fatal_result
    (keys : list string) (a : StorageAnswer) (pre post : list LifeResult)
    (r : LifeResult) (err : error) (key : string) (σ σ1 : World) :
  stLife a = inl (pre ++ r :: post) →
  storageChanged keys (answering pre a) σ = Done σ1 →
  keys !! length pre = Some key →
  lrError r = Some err →
  IsCodeNotFound (Some err) = false →
  let failure :=
    Annotate ("getting life of " +:+ ReadableString (NewStorageTag key)
              +:+ " attachment") err in
  storageChanged keys a σ = Fail failure σ1
  ∧ Cause failure = Cause err
  ∧ ∀ c receiving,
      world c = σ →
      step (InLoop c) (storageEvent keys a receiving)
      = Returned failure (stopRelationWatchers σ1)
      ∧ out (stopRelationWatchers σ1) = out σ.
Proof.
  intros Hresults Hpre Hkey Herr Hcode failure.
  assert (storageChanged keys a σ = Fail failure σ1) as Hfail.
  { revert Hpre. unfold storageChanged, answering; simpl. rewrite Hresults.
    intros Hpre. rewrite storageResults_app, Hpre. simpl.
    unfold storageResult.
    rewrite list_lookup_fmap, Hkey; simpl. by rewrite Herr, Hcode. }
  split; [done|]. split; [done|].
  intros c receiving <-. simpl. rewrite Hfail. split; [done|].
  pose proof (storageChanged_keeps keys a (world c)) as Hk.
  rewrite Hfail in Hk. by destruct Hk as [Hout _].
Qed.

Lemma storageChanged_fatal_result_witness :
  ∃ σ1, storageChanged twoKeys secondFails newWorld
        = Fail (Annotate "getting life of storage data/1 attachment"
                  (ApiError "permission denied" "no")) σ1
        ∧ is_Some (curStorage σ1 !! NewStorageTag "data/0").
Proof.
  assert (∃ σ1, storageChanged twoKeys
                  (answering [ {| lrLife := Alive; lrError := None |} ]
                     secondFails) newWorld = Done σ1
                ∧ is_Some (curStorage σ1 !! NewStorageTag "data/0"))
    as (σ1 & Hpre & Hentry).
  { eexists. split; [reflexivity|]. vm_compute. eauto. }
  exists σ1. split; [|exact Hentry].
  apply (storageChanged_fatal_result twoKeys secondFails
           [ {| lrLife := Alive; lrError := None |} ] []
           {| lrLife := Alive;
              lrError := Some (ApiError "permission denied" "no") |}
           (ApiError "permission denied" "no") "data/1" newWorld σ1);
    [reflexivity | exact Hpre | reflexivity | reflexivity
    | vm_compute; reflexivity].
Defined.

(** ** Storage-attachment events *)

(** X11. A storage-attachment event writes, or with remove set deletes,
    the Storage entry under the tag of its snapshot and nothing else:
    it never fails, it does not ask whether a watcher is registered for
    the tag, and it leaves the registered and the running watchers,
    the relations and the count of signals as they are. *)
Theorem storageAttachmentChanged_writes_one_entry
    (event : StorageSnapshotEvent) (σ : World) :
  ∃ σ',
    storageAttachmentChanged event σ = Done σ'
    ∧ curStorage σ' !! Tag (sseSnapshot event)
      = (if remove event then None else Some (sseSnapshot event))
    ∧ (∀ tag, tag ≠ Tag (sseSnapshot event) →
              curStorage σ' !! tag = curStorage σ !! tag)
    ∧ storageAttachementWatchers (watcher σ')
      = storageAttachementWatchers (watcher σ)
    ∧ subs σ' = subs σ
    ∧ relations (watcher σ') = relations (watcher σ)
    ∧ curRelations σ' = curRelations σ
    ∧ memMaps (heap σ') = memMaps (heap σ)
    ∧ current (watcher σ') = current (watcher σ)
    ∧ out σ' = out σ.
Proof.
  unfold storageAttachmentChanged.
  destruct (remove event); eexists; (split; [reflexivity|]);
    rewrite curStorage_set; split_and!; try done.
  - apply lookup_delete_eq.
  - intros tag Hne. by apply lookup_delete_ne.
  - apply lookup_insert_eq.
  - intros tag Hne. by apply lookup_insert_ne.
Qed.

(** ** Signals *)

(* What taking a case in the for loop comes to. *)
Lemma handled_shape o flag rr c n :
  after (λ σ', out σ' = n) o →
  out (world c) = n →
  (∃ err σ', handled o flag rr c = Returned err σ' ∧ out σ' = n)
  ∨ handled o flag rr c = Panicked (world c)
  ∨ ∃ σ', handled o flag rr c
          = InLoop (fire rr {| world := σ';
                               vars := match flag with
                                       | Some f => observedEvent f (vars c)
                                       | None => vars c
                                       end |})
          ∧ out σ' = n.
Proof.
  intros Ho Hc. destruct o as [σ|err σ|]; simpl in *.
  - right; right. by exists σ.
  - left. by exists err, (stopRelationWatchers σ).
  - by right; left.
Qed.

Lemma received_shape {A} (r : Recv A) handler flag rr c :
  (∀ a σ, after (λ σ', out σ' = out σ) (handler a σ)) →
  (∃ err σ', received r handler flag rr c = Returned err σ'
             ∧ out σ' = out (world c))
  ∨ received r handler flag rr c = Panicked (world c)
  ∨ ∃ σ', received r handler flag rr c
          = InLoop (fire rr {| world := σ'; vars := observedEvent flag (vars c) |})
          ∧ out σ' = out (world c).
Proof.
  intros Hh. destruct r as [err|a]; simpl.
  - left. by exists err, (stopRelationWatchers (world c)).
  - by apply (handled_shape _ (Some flag)).
Qed.

Lemma step_disabled c i :
  enabled c (event i) = false → step (InLoop c) i = InLoop c.
Proof.
  destruct i as [ev rr]; simpl.
  destruct ev; simpl; try done; by intros ->.
Qed.

Lemma step_taken c i :
  enabled c (event i) = true →
  (∃ err σ', step (InLoop c) i = Returned err σ' ∧ out σ' = out (world c))
  ∨ step (InLoop c) i = Panicked (world c)
  ∨ ∃ σ' v', step (InLoop c) i
             = InLoop (fire (receiverReady i) {| world := σ'; vars := v' |})
             ∧ out σ' = out (world c)
             ∧ requiredEvents v' = requiredEvents (vars c)
             ∧ (v' = vars c ∨ (∃ f, v' = observedEvent f (vars c))
                ∨ ∃ l m, v' = setWaits l m (vars c)).
Proof.
  destruct i as [ev rr]; simpl.
  assert (∀ {A} (r : Recv A) handler flag,
            (∀ a σ, after (λ σ', out σ' = out σ) (handler a σ)) →
            let s' := received r handler flag rr c in
            (∃ err σ', s' = Returned err σ' ∧ out σ' = out (world c))
            ∨ s' = Panicked (world c)
            ∨ ∃ σ' v', s' = InLoop (fire rr {| world := σ'; vars := v' |})
                       ∧ out σ' = out (world c)
                       ∧ requiredEvents v' = requiredEvents (vars c)
                       ∧ (v' = vars c ∨ (∃ f, v' = observedEvent f (vars c))
                          ∨ ∃ l m, v' = setWaits l m (vars c))) as Hrecv.
  { intros A r handler flag Hh s'.
    destruct (received_shape r handler flag rr c Hh)
      as [?|[?|(σ' & Hs & Hout)]]; [by left|by right; left|].
    right; right. exists σ', (observedEvent flag (vars c)).
    split_and!; [exact Hs|done|apply observedEvent_required|].
    right; left. by exists flag. }
  assert (∀ o,
            after (λ σ', out σ' = out (world c)) o →
            let s' := handled o None rr c in
            (∃ err σ', s' = Returned err σ' ∧ out σ' = out (world c))
            ∨ s' = Panicked (world c)
            ∨ ∃ σ' v', s' = InLoop (fire rr {| world := σ'; vars := v' |})
                       ∧ out σ' = out (world c)
                       ∧ requiredEvents v' = requiredEvents (vars c)
                       ∧ (v' = vars c ∨ (∃ f, v' = observedEvent f (vars c))
                          ∨ ∃ l m, v' = setWaits l m (vars c))) as Hsub.
  { intros o Ho s'.
    destruct (handled_shape o None rr c (out (world c)) Ho eq_refl)
      as [?|[Hp|(σ' & Hs & Hout)]]; [by left|by right; left|].
    right; right. exists σ', (vars c).
    split_and!; [exact Hs|done|done|by left]. }
  destruct ev as [|isLeader|r|r|r|r|r|r|r| | |ok sev|change]; simpl; intros Hen.
  - left. by exists ErrDying, (stopRelationWatchers (world c)).
  - done.
  - apply Hrecv. intros a σ. apply grows_out, unitChanged_grows.
  - apply Hrecv. intros a σ. apply grows_out, serviceChanged_grows.
  - by apply Hrecv.
  - by apply Hrecv.
  - by apply Hrecv.
  - apply Hrecv. intros a σ. apply keeps_out, relationsChanged_keeps.
  - apply Hrecv. intros a σ. apply keeps_out, storageChanged_keeps.
  - rewrite Hen. right; right. eexists _, _.
    split_and!; [reflexivity|done|done|]. right; right. by exists true, false.
  - rewrite Hen. right; right. eexists _, _.
    split_and!; [reflexivity|done|done|]. right; right. by exists false, true.
  - destruct ok.
    + apply Hsub. apply keeps_out, storageAttachmentChanged_keeps.
    + right; right. exists (world c), (vars c). destruct c as [σ v]; simpl.
      split_and!; try done. by left.
  - apply Hsub. apply keeps_out, relationUnitsChanged_keeps.
Qed.

Lemma step_shape c i :
  step (InLoop c) i = InLoop c ∧ enabled c (event i) = false
  ∨ (∃ err σ', step (InLoop c) i = Returned err σ' ∧ out σ' = out (world c))
  ∨ step (InLoop c) i = Panicked (world c)
  ∨ ∃ σ' v', step (InLoop c) i
             = InLoop (fire (receiverReady i) {| world := σ'; vars := v' |})
             ∧ out σ' = out (world c)
             ∧ enabled c (event i) = true
             ∧ requiredEvents v' = requiredEvents (vars c)
             ∧ (v' = vars c ∨ (∃ f, v' = observedEvent f (vars c))
                ∨ ∃ l m, v' = setWaits l m (vars c)).
Proof.
  destruct (enabled c (event i)) eqn:Hen.
  - right.
    destruct (step_taken c i Hen) as [?|[?|(σ' & v' & ? & ? & ? & ?)]];
      [by left|by right; left|].
    right; right. by exists σ', v'.
  - left. split; [|done]. by apply step_disabled.
Qed.

Lemma fire_out rr c :
  out (world (fire rr c))
  = (out (world c)
     + if rr && bool_decide (eventsObserved (vars c) = requiredEvents (vars c))
       then 1 else 0)%nat.
Proof.
  unfold fire. case_decide as Hg.
  - rewrite bool_decide_eq_false_2 by done. rewrite andb_false_r. lia.
  - rewrite bool_decide_eq_true_2 by done.
    destruct rr; simpl; lia.
Qed.

Lemma step_signals s i :
  (out (worldOf s) ≤ out (worldOf (step s i))
   ≤ out (worldOf s) + sendsOffered s [LoopInput i])%nat.
Proof.
  destruct s as [c|c|err σ|σ]; [| |simpl; lia|simpl; lia].
  - (* waiting for the ticket *)
    simpl. destruct (event i); simpl; lia.
  - unfold sendsOffered, act.
    destruct (step_shape c i)
      as [[-> Hen]|[(err & σ' & -> & Hout)|[->|(σ' & v' & -> & Hout & Hen & _)]]];
      simpl; try lia.
    rewrite fire_out; simpl. rewrite Hout, Hen, andb_true_r.
    destruct (receiverReady i); simpl; [|lia].
    destruct (bool_decide _); lia.
Qed.

Lemma act_signals s a :
  (out (worldOf s) ≤ out (worldOf (act s a))
   ≤ out (worldOf s) + sendsOffered s [a])%nat.
Proof.
  destruct a as [i| |].
  - apply step_signals.
  - destruct s; simpl; lia.
  - destruct s; simpl; lia.
Qed.

Lemma run_signals acts : ∀ s,
  (out (worldOf s) ≤ out (worldOf (run s acts))
   ≤ out (worldOf s) + sendsOffered s acts)%nat.
Proof.
  induction acts as [|a acts IH]; intros s; [simpl; lia|].
  change (run s (a :: acts)) with (run (act s a) acts).
  specialize (IH (act s a)). pose proof (act_signals s a) as Ha.
  simpl in *. lia.
Qed.

(** X12. A signal is sent only by fire(), at most one for each case the
    for loop takes, and only if the consumer is receiving at that
    moment: along every run the count of signals never goes down, and
    it grows by no more than the number of cases taken in the for loop
    (the loop staying in it) while the consumer was receiving. Neither
    the wait for the claim ticket, nor a return of the loop, nor
    Snapshot() or ClearResolvedMode() sends one. *)
Theorem signals_only_from_fire (env : StartEnv) (acts : list Action) :
  (∀ s more,
     (out (worldOf (run s acts)) ≤ out (worldOf (run s (acts ++ more)))
      ≤ out (worldOf (run s acts)) + sendsOffered (run s acts) more)%nat)
  ∧ (signals (systemRun env acts) ≤ sendsOfferedTo env acts)%nat
  ∧ (∀ s i,
       out (worldOf (step s i)) ≠ out (worldOf s) →
       out (worldOf (step s i)) = S (out (worldOf s))
       ∧ receiverReady i = true
       ∧ ∃ c c', s = InLoop c ∧ step s i = InLoop c'
                 ∧ enabled c (event i) = true
                 ∧ eventsObserved (vars c') = requiredEvents (vars c')).
Proof.
  split_and!.
  - intros s more. rewrite run_app. apply run_signals.
  - unfold systemRun, sendsOfferedTo, start.
    destruct (NewWatcher (seInit env)) as [σ|err] eqn:HN; simpl; [|lia].
    pose proof (run_signals acts (loopStart (seWatch env) σ)) as Hr.
    rewrite loopStart_world, (NewWatcher_out _ _ HN) in Hr. lia.
  - intros s i Hne.
    destruct s as [c|c|err σ|σ]; [| |done|done].
    { exfalso. revert Hne. simpl. by destruct (event i). }
    destruct (step_shape c i)
      as [[Heq Hen]|[(err & σ' & Heq & Hout)|[Heq|(σ' & v' & Heq & Hout & Hen & _)]]];
      rewrite Heq in Hne |- *; simpl in Hne |- *; try done.
    rewrite fire_out in Hne |- *; simpl in Hne |- *. rewrite Hout in Hne |- *.
    destruct (receiverReady i); simpl in Hne |- *; [|lia].
    destruct (bool_decide_reflect (eventsObserved v' = requiredEvents v'))
      as [Hg|Hg]; [|lia].
    split; [lia|]. split; [done|].
    eexists c, _. split_and!; try done.
    unfold fire; simpl. by case_decide.
Qed.

Lemma seen_all_observedEvent f v :
  (∀ f', seen v f' = true) → observedEvent f v = v.
Proof. intros Hall. unfold observedEvent. by rewrite Hall. Qed.

Lemma countSeen_full v : (∀ f, seen v f = true) → countSeen v = 8.
Proof. intros Hall. unfold countSeen; simpl. by rewrite !Hall. Qed.

(** X13. Once all eight sources have been observed the gate stays
    open and every change is signalled: each case the for loop takes
    after that, its handler returning nil, sends exactly one signal if
    the consumer is receiving and none if it is not (the change is then
    left to be read with Snapshot()), and the gate is still open
    afterwards; a case whose handler fails or whose channel is closed
    sends none. *)
Theorem open_gate_signals_every_change
    (env : StartEnv) (acts : list Action) (c : Config) (i : Input) :
  systemRun env acts = Started (InLoop c) →
  (∀ flag, seen (vars c) flag = true) →
  enabled c (event i) = true →
  match step (InLoop c) i with
  | InLoop c' =>
      out (world c') = (out (world c) + if receiverReady i then 1 else 0)%nat
      ∧ (∀ flag, seen (vars c') flag = true)
      ∧ eventsObserved (vars c') = requiredEvents (vars c')
  | Returned _ σ' | Panicked σ' => out σ' = out (world c)
  | AtClaimLeader _ => False
  end.
Proof.
  intros Hrun Hall Hen.
  pose proof (systemRun_gate env acts) as Hinv.
  unfold systemRun in Hrun.
  destruct (start env) as [err|s0]; [done|]. injection Hrun as Hrun.
  rewrite Hrun in Hinv. destruct Hinv as (Hreq & Hobs & _ & _).
  rewrite (countSeen_full _ Hall) in Hobs.
  destruct (step_shape c i)
    as [[Heq Hdis]|[(err & σ' & -> & Hout)|[->|(σ' & v' & -> & Hout & _ & Hr' & Hv')]]];
    try done; [congruence|].
  assert (eventsObserved v' = eventsObserved (vars c)
          ∧ ∀ flag, seen v' flag = true) as [He' Hall'].
  { destruct Hv' as [->|[[f ->]|(l & m & ->)]]; [done| |done].
    by rewrite seen_all_observedEvent. }
  rewrite fire_out; simpl.
  rewrite bool_decide_eq_true_2 by congruence. rewrite andb_true_r, Hout.
  split; [done|].
  assert (vars (fire (receiverReady i) {| world := σ'; vars := v' |}) = v')
    as -> by (unfold fire; simpl; case_decide; [done|];
              by destruct (receiverReady i)).
  split; [done|congruence].
Qed.

Lemma open_gate_signals_every_change_witness :
  ∃ c c', systemRun unitPresent initialEvents = Started (InLoop c)
          ∧ step (InLoop c) configArrives = InLoop c'
          ∧ out (world c') = S (out (world c)).
Proof.
  destruct (systemRun unitPresent initialEvents) as [err|[c|c|err σ|σ]] eqn:Hrun;
    try (vm_compute in Hrun; discriminate).
  assert (∀ flag, seen (vars c) flag = true) as Hall
    by (vm_compute in Hrun; injection Hrun as <-; by intros []).
  assert (enabled c (event configArrives) = true) as Hen by reflexivity.
  pose proof (open_gate_signals_every_change unitPresent initialEvents c
                configArrives Hrun Hall Hen) as Hstep.
  destruct (step (InLoop c) configArrives) as [c'|c'|err σ|σ] eqn:Hs;
    [done| |discriminate Hs..].
  exists c, c'. split; [reflexivity|]. split; [exact Hs|].
  destruct Hstep as [-> _]. simpl. lia.
Defined.

(** ** The maps of a snapshot *)

Lemma foreignKept_refl σ : foreignKept σ σ.
Proof. by split_and!. Qed.

Lemma foreignKept_trans σ1 σ2 σ3 :
  foreignKept σ1 σ2 → foreignKept σ2 σ3 → foreignKept σ1 σ3.
Proof.
  intros (Hr & Hs & Hrel & Hsto & Har & Has) (Hr' & Hs' & Hrel' & Hsto' & Har' & Has').
  rewrite Hr in Hrel', Har'. rewrite Hs in Hsto', Has'.
  split_and!; [congruence|congruence| | | |]; eauto.
Qed.

Local Ltac foreign_kept :=
  split_and!; simpl;
  first [ done
        | by (intros ? ? ? ?; rewrite ?lookup_insert_ne by done)
        | by (intros ?; rewrite ?lookup_insert_eq; eauto) ].

Lemma foreignKept_withAnnotation σ msg o :
  after (foreignKept σ) o → after (foreignKept σ) (withAnnotation msg o).
Proof. apply after_withAnnotation. Qed.

Lemma unitChanged_foreign a σ : after (foreignKept σ) (unitChanged a σ).
Proof.
  unfold unitChanged.
  destruct (uaRefresh a); [apply foreignKept_refl|].
  destruct (uaResolvedErr a); [apply foreignKept_refl|]. by split_and!.
Qed.

Lemma serviceChanged_foreign a σ : after (foreignKept σ) (serviceChanged a σ).
Proof.
  unfold serviceChanged.
  destruct (saRefresh a); [apply foreignKept_refl|].
  destruct (saCharmErr a); [apply foreignKept_refl|]. by split_and!.
Qed.

Lemma relationsChangedKey_foreign key a σ :
  after (foreignKept σ) (relationsChangedKey key a σ).
Proof.
  unfold relationsChangedKey.
  destruct (raRelation a) as [[relId relLife]|err].
  - destruct (relations (watcher σ) !! NewRelationTag key); [foreign_kept|].
    destruct (raWatch a); [apply foreignKept_refl|].
    destruct (raInitial a); foreign_kept.
  - destruct (IsCodeNotFoundOrCodeUnauthorized (Some err));
      [|apply foreignKept_refl].
    destruct (relations (watcher σ) !! NewRelationTag key);
      [|apply foreignKept_refl].
    destruct (raStop a); foreign_kept.
Qed.

Lemma relationsChanged_foreign keys : ∀ σ,
  after (foreignKept σ) (relationsChanged keys σ).
Proof.
  induction keys as [|[key a] rest IH]; intros σ; [apply foreignKept_refl|].
  simpl. pose proof (relationsChangedKey_foreign key a σ) as Hk.
  destruct (relationsChangedKey key a σ) as [σ'| |]; try done.
  specialize (IH σ'). destruct (relationsChanged rest σ'); simpl in *;
    eauto using foreignKept_trans.
Qed.

Lemma relationUnitsChanged_foreign change σ :
  after (foreignKept σ) (relationUnitsChanged change σ).
Proof.
  unfold relationUnitsChanged.
  destruct (curRelations σ !! rucRelationId change) as [rs|];
    [|apply foreignKept_refl].
  destruct (Members rs); [by split_and!|].
  case_decide; [apply foreignKept_refl|done].
Qed.

Lemma storageAttachmentChanged_foreign event σ :
  after (foreignKept σ) (storageAttachmentChanged event σ).
Proof.
  unfold storageAttachmentChanged. destruct (remove event); foreign_kept.
Qed.

Lemma storageResult_foreign tags i result e σ :
  after (foreignKept σ) (storageResult tags i result e σ).
Proof.
  unfold storageResult.
  destruct (tags !! i) as [tag|]; [|done].
  destruct (lrError result) as [err|].
  - destruct (IsCodeNotFound (Some err)); [|apply foreignKept_refl].
    apply foreignKept_withAnnotation. unfold stopStorageAttachmentWatcher.
    destruct (storageAttachementWatchers _ !! tag); [|foreign_kept].
    destruct e; foreign_kept.
  - apply foreignKept_withAnnotation. unfold startStorageAttachmentWatcher.
    destruct (storageAttachementWatchers _ !! tag); [foreign_kept|].
    destruct e; foreign_kept.
Qed.

Lemma storageResults_foreign tags results we : ∀ i σ,
  after (foreignKept σ) (storageResults tags i results we σ).
Proof.
  induction results as [|result rest IH]; intros i σ; [apply foreignKept_refl|].
  simpl. pose proof (storageResult_foreign tags i result (we i) σ) as Hk.
  destruct (storageResult tags i result (we i) σ) as [σ'| |]; try done.
  specialize (IH (S i) σ').
  destruct (storageResults tags (S i) rest we σ'); simpl in *;
    eauto using foreignKept_trans.
Qed.

Lemma storageChanged_foreign keys a σ :
  after (foreignKept σ) (storageChanged keys a σ).
Proof.
  unfold storageChanged. destruct (stLife a); [|apply foreignKept_refl].
  apply storageResults_foreign.
Qed.

Lemma handled_foreign o flag rr c :
  after (foreignKept (world c)) o →
  foreignKept (world c) (worldOf (handled o flag rr c)).
Proof.
  destruct o as [σ|err σ|]; simpl; [|done|intros _; apply foreignKept_refl].
  intros Hk. unfold fire; simpl. case_decide; [done|]. by destruct rr.
Qed.

Lemma received_foreign {A} (r : Recv A) handler flag rr c :
  (∀ a σ, after (foreignKept σ) (handler a σ)) →
  foreignKept (world c) (worldOf (received r handler flag rr c)).
Proof.
  intros Hh. destruct r as [err|a]; simpl; [by split_and!|].
  by apply handled_foreign.
Qed.

Lemma step_foreign s i : foreignKept (worldOf s) (worldOf (step s i)).
Proof.
  destruct s as [c|c|err σ|σ]; try apply foreignKept_refl.
  - simpl. destruct (event i); simpl; by split_and!.
  - destruct i as [ev rr].
    change (worldOf (InLoop c)) with (world c).
    destruct ev as [|isLeader|r|r|r|r|r|r|r| | |ok sev|change]; simpl.
    + by split_and!.
    + apply foreignKept_refl.
    + apply received_foreign, unitChanged_foreign.
    + apply received_foreign, serviceChanged_foreign.
    + apply received_foreign. intros _ σ. by split_and!.
    + apply received_foreign. intros _ σ. by split_and!.
    + apply received_foreign. intros _ σ. by split_and!.
    + apply received_foreign. intros a σ. apply relationsChanged_foreign.
    + apply received_foreign. intros a σ. apply storageChanged_foreign.
    + destruct (waitMinion (vars c)); [|apply foreignKept_refl].
      unfold fire; simpl. case_decide; [by split_and!|].
      destruct rr; by split_and!.
    + destruct (waitLeader (vars c)); [|apply foreignKept_refl].
      unfold fire; simpl. case_decide; [by split_and!|].
      destruct rr; by split_and!.
    + destruct ok.
      * apply handled_foreign, storageAttachmentChanged_foreign.
      * unfold fire; simpl. case_decide; [apply foreignKept_refl|].
        destruct rr; by split_and!.
    + apply handled_foreign, relationUnitsChanged_foreign.
Qed.

Lemma Snapshot_foreign σ : foreignKept σ (Snapshot_ σ).2.
Proof.
  destruct (Snapshot_copies_maps σ) as (Hr & Hs & _).
  unfold Snapshot_ in *; simpl in *. split_and!; simpl; try done.
  - intros l m _ Hm. rewrite lookup_insert_ne; [done|]. congruence.
  - intros l m _ Hm. rewrite lookup_insert_ne; [done|]. congruence.
  - intros [m Hm]. rewrite lookup_insert_ne; [by eauto|]. congruence.
  - intros [m Hm]. rewrite lookup_insert_ne; [by eauto|]. congruence.
Qed.

Lemma worldOf_onWorld f s : worldOf (onWorld f s) = f (worldOf s).
Proof. by destruct s. Qed.

Lemma act_foreign s a : foreignKept (worldOf s) (worldOf (act s a)).
Proof.
  destruct a as [i| |]; simpl.
  - apply step_foreign.
  - rewrite worldOf_onWorld. by split_and!.
  - rewrite worldOf_onWorld. apply Snapshot_foreign.
Qed.

Lemma run_foreign acts : ∀ s, foreignKept (worldOf s) (worldOf (run s acts)).
Proof.
  induction acts as [|a acts IH]; intros s; [apply foreignKept_refl|].
  change (run s (a :: acts)) with (run (act s a) acts).
  eapply foreignKept_trans; [apply act_foreign|apply IH].
Qed.

Lemma foreignKept_allocated σ σ' :
  foreignKept σ σ' → allocated σ → allocated σ'.
Proof.
  intros (Hr & Hs & _ & _ & Har & Has) [Hrel Hsto].
  unfold allocated. rewrite Hr, Hs. auto.
Qed.

Lemma NewWatcher_allocated env σ : NewWatcher env = inl σ → allocated σ.
Proof.
  unfold NewWatcher, init.
  assert (allocated newWorld) as Hnew.
  { unfold allocated, newWorld; simpl. split.
    - rewrite lookup_insert_eq. eauto.
    - rewrite lookup_insert_eq. eauto. }
  destruct (stUnit env); [destruct (unitService env)|]; simpl;
    try (destruct (initDeferred _); [done|]); intros [= <-]; exact Hnew.
Qed.

Lemma systemRun_allocated env acts s :
  systemRun env acts = Started s → allocated (worldOf s).
Proof.
  unfold systemRun, start.
  destruct (NewWatcher (seInit env)) as [σ|err] eqn:HN; [|done].
  intros [= <-].
  eapply foreignKept_allocated; [apply run_foreign|].
  rewrite loopStart_world. by eapply NewWatcher_allocated.
Qed.

Lemma Snapshot_taken σ :
  allocated σ →
  relMaps (heap (Snapshot_ σ).2) !! Relations (Snapshot_ σ).1
  = Some (curRelations σ)
  ∧ stoMaps (heap (Snapshot_ σ).2) !! Storage (Snapshot_ σ).1
    = Some (curStorage σ)
  ∧ Relations (Snapshot_ σ).1 ≠ Relations (current (watcher (Snapshot_ σ).2))
  ∧ Storage (Snapshot_ σ).1 ≠ Storage (current (watcher (Snapshot_ σ).2)).
Proof.
  intros [[mr Hmr] [ms Hms]].
  destruct (Snapshot_copies_maps σ) as (Hfr & Hfs & _).
  unfold Snapshot_ in *; simpl in *. split_and!.
  - by rewrite lookup_insert_eq, copyEntries_id.
  - by rewrite lookup_insert_eq, copyEntries_id.
  - congruence.
  - congruence.
Qed.

Lemma foreignKept_reads σ σ' lr ls mr ms :
  foreignKept σ σ' →
  relMaps (heap σ) !! lr = Some mr →
  stoMaps (heap σ) !! ls = Some ms →
  lr ≠ Relations (current (watcher σ)) →
  ls ≠ Storage (current (watcher σ)) →
  relMapAt (heap σ') lr = mr ∧ stoMapAt (heap σ') ls = ms
  ∧ lr ≠ Relations (current (watcher σ'))
  ∧ ls ≠ Storage (current (watcher σ')).
Proof.
  intros (Hr & Hs & Hkr & Hks & _ & _) Hmr Hms Hner Hnes.
  unfold relMapAt, stoMapAt.
  rewrite (Hkr _ _ Hner Hmr), (Hks _ _ Hnes Hms), Hr, Hs. by split_and!.
Qed.

(** X14. The two maps of a value returned by Snapshot() belong to the
    caller: whatever the loop handles afterwards, and whatever further
    calls of Snapshot() and ClearResolvedMode() are made, the Relations
    map and the Storage map of that value hold exactly the entries the
    watcher had at the call. No relation or storage is added to them or
    removed from them, no Life of theirs changes, and each relation
    keeps naming the Members map it named. *)
Theorem Snapshot_maps_stay_as_taken
    (env : StartEnv) (before later : list Action) (s : LoopState) :
  systemRun env before = Started s →
  let snapshot := (Snapshot_ (worldOf s)).1 in
  let afterwards := worldOf (run (act s CallSnapshot) later) in
  relMapAt (heap afterwards) (Relations snapshot) = curRelations (worldOf s)
  ∧ stoMapAt (heap afterwards) (Storage snapshot) = curStorage (worldOf s)
  ∧ Relations snapshot ≠ Relations (current (watcher afterwards))
  ∧ Storage snapshot ≠ Storage (current (watcher afterwards)).
Proof.
  intros Hrun snapshot afterwards.
  pose proof (systemRun_allocated env before s Hrun) as Halloc.
  destruct (Snapshot_taken (worldOf s) Halloc) as (Hmr & Hms & Hner & Hnes).
  pose proof (run_foreign later (act s CallSnapshot)) as Hkept.
  assert (worldOf (act s CallSnapshot) = (Snapshot_ (worldOf s)).2) as Hact
    by apply (worldOf_onWorld (λ σ, (Snapshot_ σ).2) s).
  rewrite Hact in Hkept.
  exact (foreignKept_reads _ _ _ _ _ _ Hkept Hmr Hms Hner Hnes).
Qed.

Lemma Snapshot_maps_stay_as_taken_witness :
  ∃ s, systemRun unitPresent busyEvents = Started s
       ∧ relMapAt
           (heap (worldOf (run (act s CallSnapshot)
                             [received_ (RelationsChanges (Value [(dbKey, dbGone)]))])))
           (Relations (Snapshot_ (worldOf s)).1)
         = curRelations (worldOf s)
       ∧ is_Some (curRelations (worldOf s) !! 0).
Proof.
  destruct (systemRun unitPresent busyEvents) as [err|s] eqn:Hrun;
    [vm_compute in Hrun; discriminate|].
  exists s. split; [reflexivity|]. split.
  - exact (proj1 (Snapshot_maps_stay_as_taken unitPresent busyEvents
                    [received_ (RelationsChanges (Value [(dbKey, dbGone)]))]
                    s Hrun)).
  - vm_compute in Hrun. injection Hrun as <-. vm_compute. eauto.
Defined.

(** ** Handlers that fail *)

(** X15. Only the handlers of relations and of storage can fail half
    way. When the for loop returns on any other case (the tomb dying, a
    closed channel, a unit or service that cannot be refreshed or
    read), the watcher's state is exactly what it was before that case
    was taken, but for the relation-units watchers the deferred
    function stops. *)
Theorem failed_case_leaves_state_as_it_was
    (c : Config) (i : Input) (err : error) (σ' : World) :
  step (InLoop c) i = Returned err σ' →
  hasPayload (event i) = false →
  σ' = stopRelationWatchers (world c).
Proof.
  destruct i as [ev rr]; simpl. intros Hstep Hno. revert Hstep.
  destruct ev as [|isLeader|r|r|r|r|r|r|r| | |ok sev|change]; simpl.
  - by intros [= _ <-].
  - done.
  - destruct r as [e|a]; simpl; [by intros [= _ <-]|].
    unfold unitChanged.
    destruct (uaRefresh a); simpl; [by intros [= _ <-]|].
    destruct (uaResolvedErr a); simpl; [by intros [= _ <-]|done].
  - destruct r as [e|a]; simpl; [by intros [= _ <-]|].
    unfold serviceChanged.
    destruct (saRefresh a); simpl; [by intros [= _ <-]|].
    destruct (saCharmErr a); simpl; [by intros [= _ <-]|done].
  - destruct r as [e|a]; simpl; [by intros [= _ <-]|done].
  - destruct r as [e|a]; simpl; [by intros [= _ <-]|done].
  - destruct r as [e|a]; simpl; [by intros [= _ <-]|done].
  - destruct r as [e|a]; simpl; [by intros [= _ <-]|done].
  - destruct r as [e|a]; simpl; [by intros [= _ <-]|done].
  - by destruct (waitMinion (vars c)).
  - by destruct (waitLeader (vars c)).
  - destruct ok; [|done]. unfold storageAttachmentChanged.
    by destruct (remove sev).
  - unfold relationUnitsChanged.
    destruct (curRelations (world c) !! rucRelationId change) as [rs|]; [|done].
    destruct (Members rs); [done|]. by case_decide.
Qed.

Lemma failed_case_leaves_state_as_it_was_witness :
  step (InLoop waitingForTicket) unitRefreshFails
  = Returned (OtherError "connection is shut down")
      (stopRelationWatchers (world waitingForTicket)).
Proof.
  assert (∃ σ', step (InLoop waitingForTicket) unitRefreshFails
                = Returned (OtherError "connection is shut down") σ')
    as [σ' Hstep] by (eexists; reflexivity).
  rewrite Hstep. f_equal.
  exact (failed_case_leaves_state_as_it_was waitingForTicket unitRefreshFails
           _ σ' Hstep eq_refl).
Defined.

Lemma relationsChanged_app keys1 keys2 : ∀ σ,
  relationsChanged (keys1 ++ keys2) σ
  = match relationsChanged keys1 σ with
    | Done σ1 => relationsChanged keys2 σ1
    | stopped => stopped
    end.
Proof.
  induction keys1 as [|[key a] rest IH]; intros σ; [done|].
  simpl. destruct (relationsChangedKey key a σ) as [σ'| |]; try done.
Qed.

(** X16. relationsChanged takes the keys of the payload in order, each
    in the state the one before left, so a payload handled at once is
    handled as its two halves one after the other. It stops at the
    first key that fails: the keys before it stay applied, the keys
    after it are not looked at, and the loop returns that key's error
    without a signal. *)
Theorem relationsChanged_in_order_until_error
    (before later : list (string * RelationAnswer)) (key : string)
    (a : RelationAnswer) (err : error) (σ σ1 σ2 : World) :
  relationsChanged before σ = Done σ1 →
  relationsChangedKey key a σ1 = Fail err σ2 →
  relationsChanged (before ++ later) σ = relationsChanged later σ1
  ∧ relationsChanged (before ++ (key, a) :: later) σ = Fail err σ2
  ∧ ∀ c receiving,
      world c = σ →
      step (InLoop c) (relationsEvent (before ++ (key, a) :: later) receiving)
      = Returned err (stopRelationWatchers σ2)
      ∧ out (stopRelationWatchers σ2) = out σ.
Proof.
  intros Hbefore Hkey.
  assert (relationsChanged (before ++ (key, a) :: later) σ = Fail err σ2)
    as Hfail by (by rewrite relationsChanged_app, Hbefore; simpl; rewrite Hkey).
  split_and!.
  - by rewrite relationsChanged_app, Hbefore.
  - done.
  - intros c receiving <-. simpl. rewrite Hfail. split; [done|].
    pose proof (relationsChanged_keeps (before ++ (key, a) :: later) (world c))
      as Hk.
    rewrite Hfail in Hk. by destruct Hk as [Hout _].
Qed.

Lemma relationsChanged_in_order_until_error_witness :
  relationsChanged [(dbKey, dbAppears); (otherKey, storeDown); (dbKey, dbGone)]
    newWorld
  = Fail (OtherError "connection is shut down") withDb.
Proof.
  apply (relationsChanged_in_order_until_error [(dbKey, dbAppears)]
           [(dbKey, dbGone)] otherKey storeDown
           (OtherError "connection is shut down") newWorld withDb withDb).
  - vm_compute; reflexivity.
  - vm_compute; reflexivity.
Defined.

(** ** Snapshot() reads *)

Lemma Snapshot_curRelations σ : curRelations (Snapshot_ σ).2 = curRelations σ.
Proof.
  unfold Snapshot_, curRelations, relMapAt; simpl.
  destruct (decide (newRelLoc (heap σ) = Relations (current (watcher σ))))
    as [->|Hne].
  - by rewrite lookup_insert_eq, copyEntries_id.
  - by rewrite lookup_insert_ne.
Qed.

Lemma Snapshot_curStorage σ : curStorage (Snapshot_ σ).2 = curStorage σ.
Proof.
  unfold Snapshot_, curStorage, stoMapAt; simpl.
  match goal with
  | |- context [<[?l := _]> _ !! ?k] =>
      destruct (decide (l = k)) as [Heq|Hne]
  end.
  - rewrite Heq at 1. rewrite lookup_insert_eq; simpl.
    by rewrite copyEntries_id.
  - by rewrite lookup_insert_ne.
Qed.

(** X17. Snapshot() only reads the watcher. The value it returns has
    the scalar fields of w.current and maps with the entries of
    w.current's; the watcher, its sub-watchers, the count of signals
    and everything a later Snapshot() shows are as before the call, so
    two calls in a row return the same fields and the same entries, in
    maps of their own. *)
Theorem Snapshot_only_reads (σ : World) :
  let first := Snapshot_ σ in
  let second := Snapshot_ first.2 in
  (∀ p, samePart p σ first.2)
  ∧ watcher first.2 = watcher σ ∧ subs first.2 = subs σ ∧ out first.2 = out σ
  ∧ setMaps 1 1 first.1 = setMaps 1 1 (current (watcher σ))
  ∧ setMaps 1 1 second.1 = setMaps 1 1 first.1
  ∧ relMapAt (heap second.2) (Relations second.1) = curRelations σ
  ∧ relMapAt (heap second.2) (Relations first.1) = curRelations σ
  ∧ stoMapAt (heap second.2) (Storage second.1) = curStorage σ
  ∧ stoMapAt (heap second.2) (Storage first.1) = curStorage σ
  ∧ Relations second.1 ≠ Relations first.1
  ∧ Storage second.1 ≠ Storage first.1.
Proof.
  intros first second.
  destruct (Snapshot_copies_maps σ) as (_ & _ & Hr1 & Hs1 & Hm1 & Hw1).
  destruct (Snapshot_copies_maps first.2) as (Hfr & Hfs & Hr2 & Hs2 & _ & _).
  fold first in Hr1, Hs1, Hm1, Hw1. fold second in Hfr, Hfs, Hr2, Hs2.
  assert (is_Some (relMaps (heap first.2) !! Relations first.1)) as [mr Hmr]
    by (unfold first, Snapshot_; simpl; rewrite lookup_insert_eq; eauto).
  assert (is_Some (stoMaps (heap first.2) !! Storage first.1)) as [ms Hms]
    by (unfold first, Snapshot_; simpl; rewrite lookup_insert_eq; eauto).
  assert (Relations second.1 ≠ Relations first.1) as Hner by congruence.
  assert (Storage second.1 ≠ Storage first.1) as Hnes by congruence.
  split_and!; try done.
  - intros p. destruct p; unfold samePart, first;
      first [apply Snapshot_curRelations | apply Snapshot_curStorage | done].
  - rewrite Hr2. apply Snapshot_curRelations.
  - rewrite <- Hr1. unfold relMapAt, second, Snapshot_; simpl.
    by rewrite lookup_insert_ne.
  - rewrite Hs2. apply Snapshot_curStorage.
  - rewrite <- Hs1. unfold stoMapAt, second, Snapshot_; simpl.
    by rewrite lookup_insert_ne.
Qed.

(** ** The head of the loop *)

Lemma run_Returned acts : ∀ err σ,
  ∃ σ', run (Returned err σ) acts = Returned err σ'
        ∧ out σ' = out σ ∧ subs σ' = subs σ.
Proof.
  induction acts as [|a acts IH]; intros err σ; [by exists σ|].
  change (run (Returned err σ) (a :: acts))
    with (run (act (Returned err σ) a) acts).
  destruct a as [i| |].
  - apply IH.
  - destruct (IH err (ClearResolvedMode σ)) as (σ' & Hrun & Ho & Hs).
    exists σ'. split; [exact Hrun|]. by split.
  - destruct (IH err (Snapshot_ σ).2) as (σ' & Hrun & Ho & Hs).
    exists σ'. split; [exact Hrun|]. by split.
Qed.

(** X18. The loop makes its seven Watch calls in a fixed order before
    anything else. If one fails, the loop returns the error of the
    first that does, with the watcher as NewWatcher built it: no
    sub-watcher was started, no event is ever taken and no signal is
    ever sent. If none fails, the loop goes on to wait for the claim
    ticket, requiring eight events and having observed none. *)
Theorem loop_returns_first_Watch_error (env : StartEnv) (σ : World) :
  NewWatcher (seInit env) = inl σ →
  match firstWatchError (seWatch env) with
  | Some err =>
      start env = Started (Returned err σ)
      ∧ ∀ acts, ∃ σ', systemRun env acts = Started (Returned err σ')
                      ∧ subs σ' = ∅
                      ∧ signals (systemRun env acts) = 0%nat
  | None =>
      start env
      = Started (AtClaimLeader
                   {| world := σ;
                      vars := {| requiredEvents := 8; eventsObserved := 0;
                                 seen := λ _, false;
                                 waitLeader := false; waitMinion := false |} |})
  end.
Proof.
  intros HN.
  destruct (NewWatcher_empty _ _ HN) as (Hsubs & _).
  pose proof (NewWatcher_out _ _ HN) as Hout.
  assert (∀ err, start env = Started (Returned err σ) →
            ∀ acts, ∃ σ', systemRun env acts = Started (Returned err σ')
                          ∧ subs σ' = ∅
                          ∧ signals (systemRun env acts) = 0%nat) as Hret.
  { intros err Hstart acts. unfold systemRun. rewrite Hstart.
    destruct (run_Returned acts err σ) as (σ' & -> & Ho & Hs).
    exists σ'. simpl. split_and!; [done|congruence|congruence]. }
  unfold firstWatchError, watchErrors; simpl.
  unfold start in *. rewrite HN in *. unfold loopStart in *.
  destruct (unitWatch (seWatch env)); [by split; [|apply Hret]|].
  destruct (serviceWatch (seWatch env)); [by split; [|apply Hret]|].
  destruct (configWatch (seWatch env)); [by split; [|apply Hret]|].
  destruct (relationsWatch (seWatch env)); [by split; [|apply Hret]|].
  destruct (addressesWatch (seWatch env)); [by split; [|apply Hret]|].
  destruct (storageWatch (seWatch env)); [by split; [|apply Hret]|].
  destruct (leaderSettingsWatch (seWatch env)); [by split; [|apply Hret]|].
  reflexivity.
Qed.

Lemma loop_returns_first_Watch_error_witness :
  ∃ σ, NewWatcher (seInit relationsUnwatchable) = inl σ
       ∧ start relationsUnwatchable
         = Started (Returned (OtherError "cannot watch relations") σ).
Proof.
  destruct (NewWatcher (seInit relationsUnwatchable)) as [σ|err] eqn:HN;
    [|vm_compute in HN; discriminate].
  exists σ. split; [reflexivity|].
  exact (proj1 (loop_returns_first_Watch_error relationsUnwatchable σ HN)).
Defined.
